(** * aerospacetoolbox: isentropic flow, normal shock and standard atmosphere

    A shallow embedding of [aerospacetoolbox.py] ([flowisentropic],
    [flownormalshock], [atmosisa]), the properties its specification
    states about them (C1 to C10), and further properties that the code
    itself shows (X1 to X25): behaviour on arrays, edge cases, ranges and
    monotonicity of the relations, inverse modes, the temperature profile.

    ** Number model

    The program computes on numpy [float64] arrays.  A [float64] is modelled
    by [f64]: a real number, or one of the three special values of IEEE 754
    ([+inf], [-inf], [nan]).  Arithmetic on finite values is exact (no
    rounding, no overflow, one unsigned zero); arithmetic that involves a
    special value, a division by zero or a function outside its domain follows
    IEEE 754 and C99 as numpy does (a warning, never an exception).  The
    theorems below are therefore statements about the program in exact
    arithmetic; where the specification says "within numerical tolerance" the
    exact-arithmetic statement is an equality. *)

From Stdlib Require Import Reals Lra Lia List Bool String Arith ZArith.
Import ListNotations.

Set Implicit Arguments.

Local Open Scope R_scope.

(* ================================================================= *)
(** * Idealised float64 arithmetic *)

Module F64.

Inductive f64 : Type :=
| Fin (r : R)
| PInf
| NInf
| NaN.

Definition Rlt_b (x y : R) : bool := if Rlt_dec x y then true else false.
Definition Rle_b (x y : R) : bool := if Rle_dec x y then true else false.
Definition Req_b (x y : R) : bool := if Req_dec_T x y then true else false.

(** Is the real [y] an integer, and is it an odd one?  ([pow] needs both.) *)
Definition is_int (y : R) : bool := Req_b (IZR (Int_part y)) y.
Definition is_odd_int (y : R) : bool := is_int y && Z.odd (Int_part y).

(** ** Comparisons: every ordered comparison with [nan] is false. *)

Definition ltb (x y : f64) : bool :=
  match x, y with
  | Fin a, Fin b => Rlt_b a b
  | Fin _, PInf | NInf, Fin _ | NInf, PInf => true
  | _, _ => false
  end.

Definition eqb (x y : f64) : bool :=
  match x, y with
  | Fin a, Fin b => Req_b a b
  | PInf, PInf | NInf, NInf => true
  | _, _ => false
  end.

Definition leb (x y : f64) : bool := ltb x y || eqb x y.
Definition gtb (x y : f64) : bool := ltb y x.
Definition geb (x y : f64) : bool := leb y x.
Definition neb (x y : f64) : bool := negb (eqb x y).

(** [sp.isinf] *)
Definition isinf (x : f64) : bool :=
  match x with PInf | NInf => true | _ => false end.

(** ** Arithmetic *)

Definition opp (x : f64) : f64 :=
  match x with
  | Fin a => Fin (- a)
  | PInf => NInf
  | NInf => PInf
  | NaN => NaN
  end.

Definition add (x y : f64) : f64 :=
  match x, y with
  | NaN, _ | _, NaN => NaN
  | Fin a, Fin b => Fin (a + b)
  | PInf, NInf | NInf, PInf => NaN
  | PInf, _ | _, PInf => PInf
  | NInf, _ | _, NInf => NInf
  end.

Definition sub (x y : f64) : f64 := add x (opp y).

(** The infinity with the sign of [a]; [nan] for [a = 0] *)
Definition signed_inf (a : R) : f64 :=
  if Rlt_b 0 a then PInf else if Rlt_b a 0 then NInf else NaN.

Definition mul (x y : f64) : f64 :=
  match x, y with
  | NaN, _ | _, NaN => NaN
  | Fin a, Fin b => Fin (a * b)
  | Fin a, PInf | PInf, Fin a => signed_inf a
  | Fin a, NInf | NInf, Fin a => signed_inf (- a)
  | PInf, PInf | NInf, NInf => PInf
  | PInf, NInf | NInf, PInf => NInf
  end.

(** Division by zero gives an infinity (numpy warns and goes on); the zero
    is the positive one. *)
Definition div (x y : f64) : f64 :=
  match x, y with
  | NaN, _ | _, NaN => NaN
  | Fin a, Fin b => if Req_b b 0 then signed_inf a else Fin (a / b)
  | Fin _, _ => Fin 0
  | PInf, Fin b => if Rlt_b b 0 then NInf else PInf
  | NInf, Fin b => if Rlt_b b 0 then PInf else NInf
  | _, _ => NaN
  end.

Definition sqrt (x : f64) : f64 :=
  match x with
  | Fin a => if Rlt_b a 0 then NaN else Fin (R_sqrt.sqrt a)
  | PInf => PInf
  | _ => NaN
  end.

Definition exp (x : f64) : f64 :=
  match x with
  | Fin a => Fin (Rtrigo_def.exp a)
  | PInf => PInf
  | NInf => Fin 0
  | NaN => NaN
  end.

(** [x ** y] on finite arguments, [y <> 0] and [x <> 1] *)
Definition pow_fin (a b : R) : f64 :=
  if Rlt_b 0 a then Fin (Rpower a b)
  else if Req_b a 0 then (if Rlt_b 0 b then Fin 0 else PInf)
  else if is_int b then
    Fin ((if Z.odd (Int_part b) then -1 else 1) * Rpower (- a) b)
  else NaN.

(** [x ** y]: C99 [pow] *)
Definition pow (x y : f64) : f64 :=
  if eqb y (Fin 0) then Fin 1
  else if eqb x (Fin 1) then Fin 1
  else
    match x, y with
    | NaN, _ | _, NaN => NaN
    | Fin a, Fin b => pow_fin a b
    | Fin a, PInf =>
        if Rlt_b (Rabs a) 1 then Fin 0
        else if Req_b (Rabs a) 1 then Fin 1 else PInf
    | Fin a, NInf =>
        if Rlt_b (Rabs a) 1 then PInf
        else if Req_b (Rabs a) 1 then Fin 1 else Fin 0
    | PInf, Fin b => if Rlt_b 0 b then PInf else Fin 0
    | PInf, PInf => PInf
    | PInf, NInf => Fin 0
    | NInf, Fin b =>
        if Rlt_b 0 b then (if is_odd_int b then NInf else PInf) else Fin 0
    | NInf, PInf => PInf
    | NInf, NInf => Fin 0
    end.

(** ** Ways to compare results *)

Definition is_finite (x : f64) : bool :=
  match x with Fin _ => true | _ => false end.

(** Two values agree within the tolerance [tol] *)
Definition agree (tol : R) (x y : f64) : Prop :=
  exists a b, x = Fin a /\ y = Fin b /\ Rabs (a - b) <= tol.

End F64.

Export F64.

Declare Scope f64_scope.
Delimit Scope f64_scope with f64.
Bind Scope f64_scope with f64.

Notation "x + y" := (F64.add x y) : f64_scope.
Notation "x - y" := (F64.sub x y) : f64_scope.
Notation "x * y" := (F64.mul x y) : f64_scope.
Notation "x / y" := (F64.div x y) : f64_scope.
Notation "- x" := (F64.opp x) : f64_scope.
Notation "x ** y" := (F64.pow x y) (at level 30, right associativity) : f64_scope.
Notation "x <? y" := (F64.ltb x y) : f64_scope.
Notation "x <=? y" := (F64.leb x y) : f64_scope.
Notation "x >? y" := (F64.gtb x y) : f64_scope.
Notation "x >=? y" := (F64.geb x y) : f64_scope.
Notation "x =? y" := (F64.eqb x y) : f64_scope.
Notation "x !=? y" := (F64.neb x y) (at level 70) : f64_scope.

Local Open Scope f64_scope.

(* ================================================================= *)
(** * numpy arrays

    An [ndarray] is a rank-1 array of [float64]; its shape is its length.  A
    Python scalar handed to [sp.array(x, sp.float64, ndmin=1)] is the array
    of size 1.  An expression of the source over arrays of one shape is the
    elementwise [map] of the same expression over their elements.  A call
    where exactly one of two input arrays is empty is outside the model
    (numpy fails there on an index or on broadcasting). *)

Module Np.

Inductive exn : Type :=
| Exception (msg : string)     (* [raise Exception(msg)] of the source *)
| ValueError (msg : string).   (* raised by numpy itself *)

Inductive result (A : Type) : Type :=
| Ok (a : A)
| Raise (e : exn).

Arguments Ok {A} a.
Arguments Raise {A} e.

Definition bind {A B} (r : result A) (k : A -> result B) : result B :=
  match r with
  | Ok a => k a
  | Raise e => Raise e
  end.

Definition ndarray := list f64.

Definition size (x : ndarray) : nat := List.length x.

(** [x.flat[0]], used by the source on arrays of size 1 only *)
Definition flat0 (x : ndarray) : f64 := hd NaN x.

Definition any (m : list bool) : bool := existsb (fun b => b) m.
Definition all (m : list bool) : bool := forallb (fun b => b) m.

Definition ones (n : nat) : ndarray := repeat (Fin 1) n.
Definition zeros (n : nat) : ndarray := repeat (Fin 0) n.

(** [sp.empty(n)]: an array of whatever the allocator left there, [junk] *)
Definition empty (junk : nat -> f64) (n : nat) : ndarray := map junk (seq 0 n).

Fixpoint map2 {A B C} (f : A -> B -> C) (xs : list A) (ys : list B) : list C :=
  match xs, ys with
  | x :: xs', y :: ys' => f x y :: map2 f xs' ys'
  | _, _ => []
  end.

Fixpoint map3 {A B C D} (f : A -> B -> C -> D)
    (xs : list A) (ys : list B) (zs : list C) : list D :=
  match xs, ys, zs with
  | x :: xs', y :: ys', z :: zs' => f x y z :: map3 f xs' ys' zs'
  | _, _, _ => []
  end.

(** [x[mask]] *)
Fixpoint select {A} (mask : list bool) (x : list A) : list A :=
  match mask, x with
  | m :: mask', v :: x' => if m then v :: select mask' x' else select mask' x'
  | _, _ => []
  end.

(** [x[mask] = v] for a scalar [v] *)
Fixpoint fill {A} (x : list A) (mask : list bool) (v : A) : list A :=
  match x, mask with
  | a :: x', m :: mask' => (if m then v else a) :: fill x' mask' v
  | _, _ => x
  end.

(** [x[mask] = vals] once numpy has accepted the sizes: the values go to the
    selected places in order *)
Fixpoint scatter {A} (x : list A) (mask : list bool) (vals : list A) : list A :=
  match x, mask with
  | a :: x', m :: mask' =>
      if m then
        match vals with
        | v :: vals' => v :: scatter x' mask' vals'
        | [] => a :: scatter x' mask' []
        end
      else a :: scatter x' mask' vals
  | _, _ => x
  end.

Definition count (mask : list bool) : nat :=
  List.length (filter (fun b => b) mask).

Definition msg_put : string :=
  "NumPy boolean array indexing assignment cannot assign the input values to the output values where the mask is true".

(** [x[mask] = vals] for an array [vals]: numpy wants as many values as the
    mask selects, or one value, which it repeats *)
Definition put {A} (x : list A) (mask : list bool) (vals : list A)
  : result (list A) :=
  if (List.length vals =? count mask)%nat then Ok (scatter x mask vals)
  else
    match vals with
    | [v] => Ok (fill x mask v)
    | _ => Raise (ValueError msg_put)
    end.

(** [if x.size == 1: x = sp.ones(n, sp.float64) * x.flat[0]] *)
Definition bcast (n : nat) (x : ndarray) : ndarray :=
  if (size x =? 1)%nat then map (fun o => o * flat0 x) (ones n) else x.

(** [mtype in [...]] *)
Definition in_list (s : string) (l : list string) : bool :=
  existsb (String.eqb s) l.

(** What a function of the source returns: scalars when one value was
    computed, arrays otherwise *)
Inductive retval (A : Type -> Type) : Type :=
| Scalars (r : A f64)
| Arrays (r : A ndarray).

Arguments Scalars {A} r.
Arguments Arrays {A} r.

End Np.

Export Np.

Notation "x <- r ;; k" := (Np.bind r (fun x => k))
  (at level 61, r at next level, right associativity).

(* ================================================================= *)
(** * flowisentropic *)

Module Isentropic.

Definition _AETB_iternum : nat := 10.

Definition msg_gamma : string :=
  "Specific heat ratio inputs must be real numbers greater than 1.".
Definition msg_shape : string :=
  "Inputs must be same shape or at least one input must be scalar.".
Definition msg_mach : string :=
  "Mach number inputs must be real numbers greater than 0.".
Definition msg_temp : string :=
  "Temperature ratio inputs must be real numbers 0 <= T <= 1.".
Definition msg_pres : string :=
  "Pressure ratio inputs must be real numbers 0 <= P <= 1.".
Definition msg_dens : string :=
  "Density ratio inputs must be real numbers 0 <= rho <= 1.".
Definition msg_area : string :=
  "Area ratio inputs must be real numbers greater than or equal to 1.".
Definition msg_mode : string :=
  "Third input must be an acceptable string to select second input parameter.".

(** The gamma-ratios [a], [b], [c] of one element *)
Definition ga (gamma : f64) : f64 := (gamma + Fin 1) / Fin 2.
Definition gb (gamma : f64) : f64 := (gamma - Fin 1) / Fin 2.
Definition gc (gamma : f64) : f64 := ga gamma / (gamma - Fin 1).

(** The closed-form inverses, one element of the right-hand sides of
    [M[flow != 0] = ...] *)
Definition mach_of_temp (gamma flow : f64) : f64 :=
  sqrt ((Fin 1 / gb gamma) * (flow ** Fin (-1) - Fin 1)).
Definition mach_of_pres (gamma flow : f64) : f64 :=
  sqrt ((Fin 1 / gb gamma) * (flow ** ((gamma - Fin 1) / - gamma) - Fin 1)).
Definition mach_of_dens (gamma flow : f64) : f64 :=
  sqrt ((Fin 1 / gb gamma) * (flow ** ((gamma - Fin 1) / Fin (-1)) - Fin 1)).

(** One element of the body of the Newton-Raphson loop *)
Definition newton_f (gamma flow M : f64) : f64 :=
  let a := ga gamma in let b := gb gamma in let c := gc gamma in
  let K := M ** Fin 2 in
  - flow + a ** (- c) * ((Fin 1 + b * K) ** c) / M.

Definition newton_g (gamma M : f64) : f64 :=
  let a := ga gamma in let b := gb gamma in let c := gc gamma in
  let K := M ** Fin 2 in
  a ** (- c) * ((Fin 1 + b * K) ** (c - Fin 1))
    * (b * (Fin 2 * c - Fin 1) * K - Fin 1) / K.

Definition newton_step (gamma flow M : f64) : f64 :=
  M - newton_f gamma flow M / newton_g gamma M.

(** [for i in xrange(n): ... M = M - (f / g)] on the arrays *)
Fixpoint newton_loop (n : nat) (gamma flow M : ndarray) : ndarray :=
  match n with
  | O => M
  | S n' => newton_loop n' gamma flow (map3 newton_step gamma flow M)
  end.

(** The isentropic relations of one element *)
Definition rel_d (gamma M : f64) : f64 := Fin 1 + gb gamma * M ** Fin 2.
Definition rel_T (gamma M : f64) : f64 := rel_d gamma M ** Fin (-1).
Definition rel_P (gamma M : f64) : f64 :=
  rel_d gamma M ** (- gamma / (gamma - Fin 1)).
Definition rel_rho (gamma M : f64) : f64 :=
  rel_d gamma M ** (Fin (-1) / (gamma - Fin 1)).
Definition rel_area (gamma M : f64) : f64 :=
  ga gamma ** (- gc gamma) * rel_d gamma M ** gc gamma / M.

Record flow5 (A : Type) : Type := Flow5
  { out_M : A; out_T : A; out_P : A; out_rho : A; out_area : A }.

Definition output := retval flow5.

(** The resolution of the Mach number array from [flow], by input mode.
    [M0] is the preshaped [sp.empty(n)]. *)
Definition solve_mach (M0 gamma flow : ndarray) (mtype : string)
  : result ndarray :=
  if in_list mtype ["mach"; "m"]%string then
    if any (map (fun f => f <? Fin 0) flow)
    then Raise (Exception msg_mach)
    else Ok flow
  else if in_list mtype ["temp"; "t"]%string then
    if any (map (fun f => f <? Fin 0) flow)
       || any (map (fun f => f >? Fin 1) flow)
    then Raise (Exception msg_temp)
    else
      let nz := map (fun f => f !=? Fin 0) flow in
      let M := fill M0 (map (fun f => f =? Fin 0) flow) PInf in
      put M nz (map2 mach_of_temp (select nz gamma) (select nz flow))
  else if in_list mtype ["pres"; "p"]%string then
    if any (map (fun f => f <? Fin 0) flow)
       || any (map (fun f => f >? Fin 1) flow)
    then Raise (Exception msg_pres)
    else
      let nz := map (fun f => f !=? Fin 0) flow in
      let M := fill M0 (map (fun f => f =? Fin 0) flow) PInf in
      put M nz (map2 mach_of_pres (select nz gamma) (select nz flow))
  else if in_list mtype ["dens"; "d"; "rho"]%string then
    if any (map (fun f => f <? Fin 0) flow)
       || any (map (fun f => f >? Fin 1) flow)
    then Raise (Exception msg_dens)
    else
      let nz := map (fun f => f !=? Fin 0) flow in
      let M := fill M0 (map (fun f => f =? Fin 0) flow) PInf in
      put M nz (map2 mach_of_dens (select nz gamma) (select nz flow))
  else if in_list mtype ["sub"; "sup"]%string then
    if any (map (fun f => f <? Fin 1) flow)
    then Raise (Exception msg_area)
    else
      let M := if String.eqb mtype "sub" then map (fun _ => Fin 0.2) M0 else M0 in
      let M := if String.eqb mtype "sup" then map (fun _ => Fin 1.8) M else M in
      let M := newton_loop _AETB_iternum gamma flow M in
      Ok (fill M (map (fun f => f =? Fin 1) flow) (Fin 1))
  else Raise (Exception msg_mode).

(** The relations evaluated from the Mach number: the branch for a single
    value and the branch for an array *)
Definition relations_scalar (gamma M : f64) : flow5 f64 :=
  let area :=
    if isinf M then Fin 0
    else if M =? Fin 0 then PInf
    else rel_area gamma M in
  Flow5 M (rel_T gamma M) (rel_P gamma M) (rel_rho gamma M) area.

Definition relations_array (n : nat) (gamma M : ndarray)
  : result (flow5 ndarray) :=
  let area := fill (zeros n) (map (fun m => m =? Fin 0) M) PInf in
  let r := map (fun m => negb (m =? Fin 0) && negb (isinf m)) M in
  area <- put area r (map2 rel_area (select r gamma) (select r M)) ;;
  Ok (Flow5 M (map2 rel_T gamma M) (map2 rel_P gamma M)
        (map2 rel_rho gamma M) area).

Definition flowisentropic_from (junk : nat -> f64)
    (gamma flow : ndarray) (mtype : string) : result output :=
  if any (map (fun g => g <=? Fin 1) gamma)
  then Raise (Exception msg_gamma)
  else if (1 <? size gamma)%nat && (1 <? size flow)%nat
          && negb (size gamma =? size flow)%nat
  then Raise (Exception msg_shape)
  else
    let n := if (size flow <? size gamma)%nat then size gamma else size flow in
    let flow := bcast n flow in
    let gamma := bcast n gamma in
    M <- solve_mach (empty junk n) gamma flow mtype ;;
    if (size M =? 1)%nat
    then Ok (Scalars (relations_scalar (flat0 gamma) (flat0 M)))
    else r <- relations_array n gamma M ;; Ok (Arrays r).

(** The contents of [sp.empty] never reach the result (lemma
    [flowisentropic_junk] below), so they may as well be [nan]. *)
Definition flowisentropic : ndarray -> ndarray -> string -> result output :=
  flowisentropic_from (fun _ => NaN).

End Isentropic.

(* ================================================================= *)
(** * flownormalshock *)

Module Shock.

Definition msg_gamma : string := Isentropic.msg_gamma.
Definition msg_shape : string := Isentropic.msg_shape.
Definition msg_mode : string := Isentropic.msg_mode.
Definition msg_mach : string :=
  "Mach number inputs must be real numbers greater than 1.".
Definition msg_down : string :=
  "Mach number downstream inputs must be real numbers SQRT((GAMMA-1)/(2*GAMMA)) <= M <= 1.".
Definition msg_pres : string :=
  "Pressure ratio inputs must be real numbers greater than or equal to 1.".
Definition msg_dens : string :=
  "Density ratio inputs must be real numbers 1 <= M <= (GAMMA+1)/(GAMMA-1).".

Definition ga (gamma : f64) : f64 := (gamma + Fin 1) / Fin 2.
Definition gb (gamma : f64) : f64 := (gamma - Fin 1) / Fin 2.
Definition gc (gamma : f64) : f64 := gamma / (gamma - Fin 1).

Definition lowerbound (gamma : f64) : f64 :=
  sqrt ((gamma - Fin 1) / (Fin 2 * gamma)).
Definition upperbound (gamma : f64) : f64 :=
  (gamma + Fin 1) / (gamma - Fin 1).

(** One element of the right-hand sides that resolve the upstream Mach
    number *)
Definition mach_of_down (gamma flow : f64) : f64 :=
  sqrt ((Fin 1 + gb gamma * flow ** Fin 2) / (gamma * flow ** Fin 2 - gb gamma)).
Definition mach_of_pres (gamma flow : f64) : f64 :=
  sqrt ((flow - Fin 1) * (gamma + Fin 1) / (Fin 2 * gamma) + Fin 1).
Definition mach_of_dens (gamma flow : f64) : f64 :=
  sqrt (Fin 2 * flow / (Fin 1 + gamma + flow - flow * gamma)).

(** The normal shock relations of one element *)
Definition rel_M2 (gamma M : f64) : f64 :=
  sqrt ((Fin 1 + gb gamma * M ** Fin 2) / (gamma * M ** Fin 2 - gb gamma)).
Definition rel_rho (gamma M : f64) : f64 :=
  ((gamma + Fin 1) * M ** Fin 2) / (Fin 2 + (gamma - Fin 1) * M ** Fin 2).
Definition rel_P (gamma M : f64) : f64 :=
  Fin 1 + (M ** Fin 2 - Fin 1) * gamma / ga gamma.
Definition rel_T (gamma M : f64) : f64 := rel_P gamma M / rel_rho gamma M.
Definition rel_P0 (gamma M : f64) : f64 :=
  rel_P gamma M * rel_T gamma M ** (- gc gamma).
Definition rel_P1 (gamma M : f64) : f64 :=
  ((ga gamma ** Fin 2 * M ** Fin 2) / (gamma * M ** Fin 2 - gb gamma)) ** gc gamma
    * (Fin 1 - gamma + Fin 2 * gamma * M ** Fin 2) / (gamma + Fin 1).

Record shock7 (A : Type) : Type := Shock7
  { out_M : A; out_M2 : A; out_T : A; out_P : A; out_rho : A;
    out_P0 : A; out_P1 : A }.

Definition output := retval shock7.

(** The resolution of the upstream Mach number array.  The right-hand sides
    of the two masked assignments of modes [down] and [dens] are whole arrays,
    not their masked parts. *)
Definition solve_mach (M0 gamma flow : ndarray) (mtype : string)
  : result ndarray :=
  if in_list mtype ["mach"; "m1"; "m"]%string then
    if any (map (fun f => f <? Fin 1) flow)
    then Raise (Exception msg_mach)
    else Ok flow
  else if in_list mtype ["down"; "mach2"; "m2"; "md"]%string then
    let lb := map lowerbound gamma in
    if any (map2 ltb flow lb) || any (map (fun f => f >? Fin 1) flow)
    then Raise (Exception msg_down)
    else
      let M := fill M0 (map2 leb flow lb) PInf in
      put M (map2 gtb flow lb) (map2 mach_of_down gamma flow)
  else if in_list mtype ["pres"; "p"]%string then
    if any (map (fun f => f <? Fin 1) flow)
    then Raise (Exception msg_pres)
    else Ok (map2 mach_of_pres gamma flow)
  else if in_list mtype ["dens"; "d"; "rho"]%string then
    let ub := map upperbound gamma in
    if any (map (fun f => f <? Fin 1) flow) || any (map2 gtb flow ub)
    then Raise (Exception msg_dens)
    else
      let M := fill M0 (map2 geb flow ub) PInf in
      put M (map2 ltb flow ub) (map2 mach_of_dens gamma flow)
  else Raise (Exception msg_mode).

Definition flownormalshock (junk : nat -> f64)
    (gamma flow : ndarray) (mtype : string) : result output :=
  if any (map (fun g => g <=? Fin 1) gamma)
  then Raise (Exception msg_gamma)
  else if (1 <? size gamma)%nat && (1 <? size flow)%nat
          && negb (size gamma =? size flow)%nat
  then Raise (Exception msg_shape)
  else
    let n := if (size flow <? size gamma)%nat then size gamma else size flow in
    let flow := bcast n flow in
    let gamma := bcast n gamma in
    M <- solve_mach (empty junk n) gamma flow mtype ;;
    let M2 := map2 rel_M2 gamma M in
    let rho := map2 rel_rho gamma M in
    let P := map2 rel_P gamma M in
    let T := map2 rel_T gamma M in
    let P0 := map2 rel_P0 gamma M in
    let P1 := map2 rel_P1 gamma M in
    if (size M =? 1)%nat
    then Ok (Scalars (Shock7 (flat0 M) (flat0 M2) (flat0 T) (flat0 P)
                        (flat0 rho) (flat0 P0) (flat0 P1)))
    else Ok (Arrays (Shock7 M M2 T P rho P0 P1)).

End Shock.

(* ================================================================= *)
(** * atmosisa *)

Module Atmos.

Definition msg_mode : string := Isentropic.msg_mode.

Definition R : f64 := Fin 287.053.
Definition g : f64 := Fin 9.80665.
Definition Re : f64 := Fin 6356766.0.

Definition Hb : ndarray :=
  map (fun x => x * Fin 1000)
    [Fin 0; Fin 11; Fin 20; Fin 32; Fin 47; Fin 51; Fin 71; Fin 84.852].
Definition Lr : ndarray :=
  map (fun x => x * Fin 0.001)
    [Fin (-6.5); Fin 0; Fin 1; Fin 2.8; Fin 0; Fin (-2.8); Fin (-2.0)].

(** [x[i]] *)
Definition at_ (x : ndarray) (i : nat) : f64 := nth i x NaN.

(** The solution arrays and the running base conditions of the layer loop *)
Record state : Type := State
  { sT : ndarray; sP : ndarray; Tb : f64; Pb : f64 }.

(** The body of the loop for layer [i], after the selection [s] was found
    non-empty *)
Definition layer (i : nat) (s : list bool) (h : ndarray) (st : state)
  : result state :=
  if at_ Lr i =? Fin 0 then
    let T := fill (sT st) s (Tb st) in
    P <- put (sP st) s
           (map (fun x => Pb st * exp ((- g / (R * Tb st)) * (x - at_ Hb i)))
                (select s h)) ;;
    let Pb' := Pb st * exp ((- g / (R * Tb st)) * (at_ Hb (i + 1) - at_ Hb i)) in
    Ok (State T P (Tb st) Pb')
  else
    T <- put (sT st) s
           (map (fun x => Tb st + at_ Lr i * (x - at_ Hb i)) (select s h)) ;;
    P <- put (sP st) s
           (map (fun t => Pb st * (t / Tb st) ** (- g / (at_ Lr i * R)))
                (select s T)) ;;
    let Tt := Tb st + at_ Lr i * (at_ Hb (i + 1) - at_ Hb i) in
    let Pb' := Pb st * (Tt / Tb st) ** (- g / (at_ Lr i * R)) in
    Ok (State T P Tt Pb').

(** [for i in xrange(7)], with its [break] *)
Fixpoint walk (layers : list nat) (h : ndarray) (st : state) : result state :=
  match layers with
  | [] => Ok st
  | i :: rest =>
      let s :=
        if (i =? 0)%nat then map (fun x => x >? NInf) h
        else map (fun x => x >? at_ Hb i) h in
      if negb (any s) then Ok st
      else st' <- layer i s h st ;; walk rest h st'
  end.

Record atm4 (A : Type) : Type := Atm4
  { out_T : A; out_a : A; out_P : A; out_rho : A }.

Definition output := retval atm4.

Definition atmosisa (h : ndarray) (mtype : string) (T0 P0 : f64)
  : result output :=
  h <- (if String.eqb mtype "geop" then Ok h
        else if String.eqb mtype "geom"
        then Ok (map (fun x => x * (Re / (Re + x))) h)
        else Raise (Exception msg_mode)) ;;
  let T := map (fun o => o * T0) (ones (size h)) in
  let P := map (fun o => o * P0) (ones (size h)) in
  st <- walk (seq 0 7) h (State T P T0 P0) ;;
  let snd_of t := sqrt (Fin 1.4 * R * t) in
  let rho_of p t := p / (R * t) in
  if (size h =? 1)%nat then
    let T := flat0 (sT st) in
    let P := flat0 (sP st) in
    Ok (Scalars (Atm4 T (snd_of T) P (rho_of P T)))
  else
    Ok (Arrays (Atm4 (sT st) (map snd_of (sT st)) (sP st)
                  (map2 rho_of (sP st) (sT st)))).

End Atmos.

(* ================================================================= *)
(** * The functions read one element at a time, and the notions of
      the specification *)

(** The array programs above work on whole arrays with masks.  The
    definitions below give, next to them, what one element goes through,
    and the words of the specification (its formulas, its error kinds, its
    domains); the theorems relate the two. *)

Module IsentropicSpec.

Import Isentropic.

(** The six input modes behind the strings the source accepts *)
Inductive mode : Type := Mach | Temp | Pres | Dens | Sub | Sup.

Definition mode_of (mtype : string) : option mode :=
  if in_list mtype ["mach"; "m"]%string then Some Mach
  else if in_list mtype ["temp"; "t"]%string then Some Temp
  else if in_list mtype ["pres"; "p"]%string then Some Pres
  else if in_list mtype ["dens"; "d"; "rho"]%string then Some Dens
  else if in_list mtype ["sub"; "sup"]%string then
    if String.eqb mtype "sub" then Some Sub else Some Sup
  else None.

(** The validation of [flow] in each mode, and its message *)
Definition rejects (m : mode) (flow : ndarray) : bool :=
  match m with
  | Mach => any (map (fun f => f <? Fin 0) flow)
  | Temp | Pres | Dens =>
      any (map (fun f => f <? Fin 0) flow) || any (map (fun f => f >? Fin 1) flow)
  | Sub | Sup => any (map (fun f => f <? Fin 1) flow)
  end.

Definition msg_of (m : mode) : string :=
  match m with
  | Mach => msg_mach
  | Temp => msg_temp
  | Pres => msg_pres
  | Dens => msg_dens
  | Sub | Sup => msg_area
  end.

(** The Mach number of one element *)
Definition mach_elem (m : mode) (gamma flow : f64) : f64 :=
  match m with
  | Mach => flow
  | Temp => if flow =? Fin 0 then PInf else mach_of_temp gamma flow
  | Pres => if flow =? Fin 0 then PInf else mach_of_pres gamma flow
  | Dens => if flow =? Fin 0 then PInf else mach_of_dens gamma flow
  | Sub =>
      if flow =? Fin 1 then Fin 1
      else Nat.iter 10 (newton_step gamma flow) (Fin 0.2)
  | Sup =>
      if flow =? Fin 1 then Fin 1
      else Nat.iter 10 (newton_step gamma flow) (Fin 1.8)
  end.

(** The area ratio of one element *)
Definition area_elem (gamma M : f64) : f64 :=
  if M =? Fin 0 then PInf
  else if isinf M then Fin 0
  else rel_area gamma M.

(** The whole function read element by element *)
Definition elementwise (gamma flow : ndarray) (mtype : string) : result output :=
  if any (map (fun g => g <=? Fin 1) gamma)
  then Raise (Exception msg_gamma)
  else if (1 <? size gamma)%nat && (1 <? size flow)%nat
          && negb (size gamma =? size flow)%nat
  then Raise (Exception msg_shape)
  else
    let n := if (size flow <? size gamma)%nat then size gamma else size flow in
    let flow := bcast n flow in
    let gamma := bcast n gamma in
    match mode_of mtype with
    | None => Raise (Exception msg_mode)
    | Some m =>
        if rejects m flow then Raise (Exception (msg_of m))
        else
          let M := map2 (mach_elem m) gamma flow in
          if (n =? 1)%nat then
            Ok (Scalars (Flow5 (flat0 M) (rel_T (flat0 gamma) (flat0 M))
                           (rel_P (flat0 gamma) (flat0 M))
                           (rel_rho (flat0 gamma) (flat0 M))
                           (area_elem (flat0 gamma) (flat0 M))))
          else
            Ok (Arrays (Flow5 M (map2 rel_T gamma M) (map2 rel_P gamma M)
                          (map2 rel_rho gamma M) (map2 area_elem gamma M)))
    end.

(** Every specific heat ratio is greater than 1 *)
Definition gamma_valid (gamma : ndarray) : Prop :=
  Forall (fun g0 => (Fin 1 <? g0) = true) gamma.

(** Two non-empty inputs, one of size 1 or both of one shape *)
Definition shapes_ok (gamma flow : ndarray) : Prop :=
  gamma <> [] /\ flow <> [] /\
  (size gamma = 1 \/ size flow = 1 \/ size gamma = size flow)%nat.

(** The common shape after broadcasting *)
Definition bshape (gamma flow : ndarray) : nat :=
  if (size flow <? size gamma)%nat then size gamma else size flow.

(** The Mach numbers of a result, as an array *)
Definition mach_array (out : output) : ndarray :=
  match out with
  | Scalars r => [out_M r]
  | Arrays r => out_M r
  end.

Definition area_array (out : output) : ndarray :=
  match out with
  | Scalars r => [out_area r]
  | Arrays r => out_area r
  end.

Local Open Scope R_scope.

(** The area ratio as the specification words it *)
Definition area_spec (gamma M : f64) : f64 :=
  let a := ((gamma + Fin 1) / Fin 2)%f64 in
  let b := ((gamma - Fin 1) / Fin 2)%f64 in
  let c := (a / (gamma - Fin 1))%f64 in
  let d := (Fin 1 + b * M ** Fin 2)%f64 in
  if (M =? Fin 0)%f64 then PInf
  else if isinf M then Fin 0
  else (a ** (- c) * d ** c / M)%f64.

(** The initial guess of the Newton-Raphson iteration *)
Definition initial_guess (mtype : string) : f64 :=
  if String.eqb mtype "sub" then Fin 0.2 else Fin 1.8.

(** The Mach-area residual and the Newton-Raphson update, as the
    specification words them *)
Definition residual (gamma flow M : f64) : f64 :=
  let a := ((gamma + Fin 1) / Fin 2)%f64 in
  let b := ((gamma - Fin 1) / Fin 2)%f64 in
  let c := (a / (gamma - Fin 1))%f64 in
  (- flow + a ** (- c) * (Fin 1 + b * M ** Fin 2) ** c / M)%f64.

Definition newton_raphson (gamma flow M : f64) : f64 :=
  (M - residual gamma flow M / newton_g gamma M)%f64.

(** The residual and the slope of the loop body on finite Mach numbers, as
    real functions *)
Definition residual_R (g0 A m : R) : R :=
  let a := (g0 + 1) / 2 in
  let b := (g0 - 1) / 2 in
  let c := a / (g0 - 1) in
  - A + Rpower a (- c) * Rpower (1 + b * (m * m)) c / m.

Definition slope_R (g0 m : R) : R :=
  let a := (g0 + 1) / 2 in
  let b := (g0 - 1) / 2 in
  let c := a / (g0 - 1) in
  Rpower a (- c) * Rpower (1 + b * (m * m)) (c - 1)
    * (b * (2 * c - 1) * (m * m) - 1) / (m * m).

(** Every area ratio is 1 or more *)
Definition area_valid (flow : ndarray) : Prop :=
  Forall (fun f => (f >=? Fin 1)%f64 = true) flow.

Definition d_R (g0 m : R) : R := 1 + (g0 - 1) / 2 * (m * m).

End IsentropicSpec.

Module ShockSpec.

Import Shock.

Local Open Scope R_scope.

Inductive mode : Type := Mach | Down | Pres | Dens.

Definition mode_of (mtype : string) : option mode :=
  if in_list mtype ["mach"; "m1"; "m"]%string then Some Mach
  else if in_list mtype ["down"; "mach2"; "m2"; "md"]%string then Some Down
  else if in_list mtype ["pres"; "p"]%string then Some Pres
  else if in_list mtype ["dens"; "d"; "rho"]%string then Some Dens
  else None.

(** The validation of [flow] in each mode, and its message *)
Definition rejects (m : mode) (gamma flow : ndarray) : bool :=
  match m with
  | Mach | Pres => any (map (fun f => f <? Fin 1) flow)
  | Down =>
      any (map2 ltb flow (map lowerbound gamma))
      || any (map (fun f => f >? Fin 1) flow)
  | Dens =>
      any (map (fun f => f <? Fin 1) flow)
      || any (map2 gtb flow (map upperbound gamma))
  end.

Definition msg_of (m : mode) : string :=
  match m with
  | Mach => msg_mach
  | Down => msg_down
  | Pres => msg_pres
  | Dens => msg_dens
  end.

(** The upstream Mach number of a call on one element; [u] is what
    [sp.empty] left in the Mach array *)
Definition mach_elem (u : f64) (m : mode) (gamma flow : f64) : f64 :=
  match m with
  | Mach => flow
  | Down =>
      if flow >? lowerbound gamma then mach_of_down gamma flow
      else if flow <=? lowerbound gamma then PInf else u
  | Pres => mach_of_pres gamma flow
  | Dens =>
      if flow <? upperbound gamma then mach_of_dens gamma flow
      else if flow >=? upperbound gamma then PInf else u
  end.

(** The square of the downstream Mach number *)
Definition Q_R (g0 K : R) : R := (1 + (g0 - 1) / 2 * K) / (g0 * K - (g0 - 1) / 2).

Definition rho_R (g0 K : R) : R := (g0 + 1) * K / (2 + (g0 - 1) * K).

End ShockSpec.

Module AtmosSpec.

Import Atmos.

(** The selection of layer [i]: [h > -inf] for the first layer, [h > Hb[i]]
    for the others *)
Definition selected (i : nat) (x : f64) : bool :=
  if (i =? 0)%nat then x >? NInf else x >? at_ Hb i.

(** The temperature and the pressure that layer [i] gives a sample at
    altitude [x] from the base conditions [(Tb, Pb)] of the layer *)
Definition layer_T (i : nat) (Tb x : f64) : f64 :=
  if at_ Lr i =? Fin 0 then Tb
  else Tb + at_ Lr i * (x - at_ Hb i).

Definition layer_P (i : nat) (Tb Pb x : f64) : f64 :=
  if at_ Lr i =? Fin 0
  then Pb * exp ((- g / (R * Tb)) * (x - at_ Hb i))
  else Pb * (layer_T i Tb x / Tb) ** (- g / (at_ Lr i * R)).

(** The base conditions of layer [i], from the sea-level ones *)
Fixpoint base (T0 P0 : f64) (i : nat) : f64 * f64 :=
  match i with
  | O => (T0, P0)
  | S k =>
      let (Tb, Pb) := base T0 P0 k in
      (layer_T k Tb (at_ Hb (k + 1)), layer_P k Tb Pb (at_ Hb (k + 1)))
  end.

(** The temperature and pressure of a sample at altitude [x] once the first
    [k] layers are done *)
Fixpoint sample (T0 P0 : f64) (k : nat) (x : f64) : f64 * f64 :=
  match k with
  | O => (T0, P0)
  | S i =>
      if selected i x
      then let (Tb, Pb) := base T0 P0 i in (layer_T i Tb x, layer_P i Tb Pb x)
      else sample T0 P0 i x
  end.

End AtmosSpec.

Module ErrorSpec.

(** The error kinds of the specification.  The source raises one class,
    [Exception], and tells the kinds apart by the message. *)
Inductive error_kind : Type :=
| DomainError
| NonRealInputError
| ShapeMismatchError
| InvalidModeError.

Definition domain_messages : list string :=
  [Isentropic.msg_gamma; Isentropic.msg_mach; Isentropic.msg_temp;
   Isentropic.msg_pres; Isentropic.msg_dens; Isentropic.msg_area;
   Shock.msg_mach; Shock.msg_down; Shock.msg_pres; Shock.msg_dens].

Definition kind_of_message (msg : string) : option error_kind :=
  if String.eqb msg Isentropic.msg_shape then Some ShapeMismatchError
  else if String.eqb msg Isentropic.msg_mode then Some InvalidModeError
  else if in_list msg domain_messages then Some DomainError
  else None.

(** The call raises an exception of kind [k] and returns no value *)
Definition raises {A} (r : result A) (k : error_kind) : Prop :=
  exists msg, r = Raise (Exception msg) /\ kind_of_message msg = Some k.

(** A flow value below or above the bounds of its mode *)
Definition isentropic_outside (m : IsentropicSpec.mode) (f : f64) : bool :=
  match m with
  | IsentropicSpec.Mach => f <? Fin 0
  | IsentropicSpec.Temp | IsentropicSpec.Pres | IsentropicSpec.Dens =>
      (f <? Fin 0) || (f >? Fin 1)
  | IsentropicSpec.Sub | IsentropicSpec.Sup => f <? Fin 1
  end.

Definition shock_outside (m : ShockSpec.mode) (gamma f : f64) : bool :=
  match m with
  | ShockSpec.Mach | ShockSpec.Pres => f <? Fin 1
  | ShockSpec.Down => (f <? Shock.lowerbound gamma) || (f >? Fin 1)
  | ShockSpec.Dens => (f <? Fin 1) || (f >? Shock.upperbound gamma)
  end.

End ErrorSpec.

Module RoundTripSpec.

Local Open Scope R_scope.


End RoundTripSpec.

Module AtmosProfileSpec.

Import Atmos.

Local Abbreviation real := Rdefinitions.R.

(** The offset of the temperature from its sea-level value, by geopotential
    altitude: the profile of the standard atmosphere, with the first layer
    continued below 0 m and the last one above 84.852 km *)
Definition isa_temperature_offset (x : real) : real :=
  (if Rle_dec x 11000 then -0.0065 * x
   else if Rle_dec x 20000 then -71.5
   else if Rle_dec x 32000 then -71.5 + 0.001 * (x - 20000)
   else if Rle_dec x 47000 then -59.5 + 0.0028 * (x - 32000)
   else if Rle_dec x 51000 then -17.5
   else if Rle_dec x 71000 then -17.5 - 0.0028 * (x - 51000)
   else -73.5 - 0.002 * (x - 71000))%R.

(** The altitudes the layers are walked with *)
Definition geopotential (mtype : string) (h : ndarray) : ndarray :=
  if String.eqb mtype "geop" then h
  else map (fun x => x * (Re / (Re + x))) h.

End AtmosProfileSpec.

Module ShockEntropySpec.

Local Open Scope R_scope.

(** The logarithm of [P / rho^gamma] across the shock, up to a constant, as
    a function of the square of the upstream Mach number *)
Definition entropy_R (g0 x : R) : R :=
  ln (2 * g0 * x + - (g0 - 1)) - g0 * ln (1 * x + 0)
  + g0 * ln ((g0 - 1) * x + 2).

Definition entropy_slope_R (g0 x : R) : R :=
  2 * g0 / (2 * g0 * x + - (g0 - 1)) - g0 * (1 / (1 * x + 0))
  + g0 * ((g0 - 1) / ((g0 - 1) * x + 2)).

End ShockEntropySpec.

(* ================================================================= *)
(** * Facts about the arithmetic *)

Section F64_facts.

Local Open Scope R_scope.

Lemma Rlt_b_true (a b : R) : a < b -> Rlt_b a b = true.
Proof. intros H; unfold Rlt_b; destruct (Rlt_dec a b); [reflexivity | contradiction]. Qed.

Lemma Rlt_b_false (a b : R) : b <= a -> Rlt_b a b = false.
Proof. intros H; unfold Rlt_b; destruct (Rlt_dec a b); [lra | reflexivity]. Qed.

Lemma Req_b_true (a b : R) : a = b -> Req_b a b = true.
Proof. intros H; unfold Req_b; destruct (Req_dec_T a b); [reflexivity | contradiction]. Qed.

Lemma Req_b_false (a b : R) : a <> b -> Req_b a b = false.
Proof. intros H; unfold Req_b; destruct (Req_dec_T a b); [contradiction | reflexivity]. Qed.

Lemma Rlt_b_spec (a b : R) : Rlt_b a b = true <-> a < b.
Proof. unfold Rlt_b; destruct (Rlt_dec a b); split; intros; (assumption || reflexivity || discriminate || contradiction). Qed.

Lemma Req_b_spec (a b : R) : Req_b a b = true <-> a = b.
Proof. unfold Req_b; destruct (Req_dec_T a b); split; intros; (assumption || reflexivity || discriminate || contradiction). Qed.

Lemma Rlt_b_irrefl (a : R) : Rlt_b a a = false.
Proof. apply Rlt_b_false; lra. Qed.

Lemma Req_b_refl (a : R) : Req_b a a = true.
Proof. apply Req_b_true; reflexivity. Qed.

End F64_facts.

(** Decide the real comparisons of the goal that linear arithmetic settles *)
Ltac rdecide :=
  repeat first
    [ rewrite Rlt_b_irrefl
    | rewrite Req_b_refl
    | match goal with
      | |- context [Rlt_b ?a ?b] =>
          first [ rewrite (@Rlt_b_true a b) by lra
                | rewrite (@Rlt_b_false a b) by lra ]
      | |- context [Req_b ?a ?b] =>
          first [ rewrite (@Req_b_true a b) by lra
                | rewrite (@Req_b_false a b) by lra ]
      end ].

(** Unfold the arithmetic on finite operands and decide what it compares *)
Ltac fsimpl :=
  repeat (progress (unfold F64.leb, F64.gtb, F64.geb, F64.neb, F64.sub;
                    cbn [F64.add F64.opp F64.mul F64.div F64.sqrt F64.exp
                         F64.ltb F64.eqb F64.isinf orb andb negb];
                    rdecide)).

Section F64_facts2.

Local Open Scope R_scope.

Lemma mul_one_l (x : f64) : (Fin 1 * x)%f64 = x.
Proof.
  destruct x; cbn; unfold signed_inf; rdecide; try reflexivity.
  f_equal; lra.
Qed.

Lemma pow_two (a : R) : (Fin a ** Fin 2)%f64 = Fin (a * a).
Proof.
  unfold pow. cbn [eqb]. rdecide.
  destruct (Req_dec_T a 1) as [->|H1].
  - rdecide. f_equal; lra.
  - rewrite (Req_b_false H1).
    assert (E2 : 2 = INR 2) by (simpl; lra).
    unfold pow_fin.
    destruct (Rlt_dec 0 a) as [Hp|Hp].
    + rewrite (Rlt_b_true Hp). f_equal. rewrite E2, Rpower_pow by assumption. simpl; lra.
    + rewrite Rlt_b_false by lra.
      destruct (Req_dec_T a 0) as [->|H0].
      * rdecide. f_equal; lra.
      * rewrite (Req_b_false H0).
        assert (Hi : Int_part 2 = 2%Z).
        { symmetry; apply Int_part_spec; simpl; lra. }
        unfold is_int. rewrite Hi. rdecide. cbn [Z.odd].
        f_equal. rewrite E2, Rpower_pow by lra. simpl; lra.
Qed.

Lemma Rpower_m1 (x : R) : 0 < x -> Rpower x (-1) = / x.
Proof.
  intros Hx. replace (-1) with (- (1)) by lra.
  rewrite Rpower_Ropp, Rpower_1 by assumption. reflexivity.
Qed.

Lemma pow_neg_one (a : R) : a <> 0 -> (Fin a ** Fin (-1))%f64 = Fin (/ a).
Proof.
  intros Ha. unfold pow. cbn [eqb]. rdecide.
  destruct (Req_dec_T a 1) as [->|H1].
  - rdecide. f_equal; lra.
  - rewrite (Req_b_false H1).
    unfold pow_fin.
    destruct (Rlt_dec 0 a) as [Hp|Hp].
    + rewrite (Rlt_b_true Hp). f_equal. apply Rpower_m1; assumption.
    + rewrite Rlt_b_false by lra.
      rewrite (Req_b_false Ha).
      assert (Hi : Int_part (-1) = (-1)%Z).
      { symmetry; apply Int_part_spec; simpl; lra. }
      unfold is_int. rewrite Hi. rdecide. cbn [Z.odd].
      f_equal. rewrite Rpower_m1 by lra.
      field; lra.
Qed.

Lemma pow_pos (a b : R) :
  0 < a -> a <> 1 -> b <> 0 -> (Fin a ** Fin b)%f64 = Fin (Rpower a b).
Proof.
  intros Ha H1 Hb. unfold pow, pow_fin. cbn [eqb].
  rewrite (Req_b_false Hb), (Req_b_false H1), (Rlt_b_true Ha). reflexivity.
Qed.

(** For a positive base the power is the real power, whatever the exponent *)
Lemma pow_pos_gen (a b : R) :
  0 < a -> (Fin a ** Fin b)%f64 = Fin (Rpower a b).
Proof.
  intros Ha. unfold pow, pow_fin. cbn [eqb].
  destruct (Req_dec_T b 0) as [->|Hb].
  - rdecide. rewrite Rpower_O by assumption. reflexivity.
  - rewrite (Req_b_false Hb).
    destruct (Req_dec_T a 1) as [->|H1].
    + rdecide. f_equal. unfold Rpower. rewrite ln_1, Rmult_0_r, exp_0. reflexivity.
    + rewrite (Req_b_false H1), (Rlt_b_true Ha). reflexivity.
Qed.

Lemma add_fin (a b : R) : (Fin a + Fin b)%f64 = Fin (a + b).
Proof. reflexivity. Qed.

Lemma sub_fin (a b : R) : (Fin a - Fin b)%f64 = Fin (a - b).
Proof. reflexivity. Qed.

Lemma mul_fin (a b : R) : (Fin a * Fin b)%f64 = Fin (a * b).
Proof. reflexivity. Qed.

Lemma opp_fin (a : R) : (- Fin a)%f64 = Fin (- a).
Proof. reflexivity. Qed.

Lemma div_fin (a b : R) : b <> 0 -> (Fin a / Fin b)%f64 = Fin (a / b).
Proof. intros H. cbn. now rewrite (Req_b_false H). Qed.

Lemma sqrt_fin (a : R) : 0 <= a -> sqrt (Fin a) = Fin (R_sqrt.sqrt a).
Proof. intros H. cbn. now rewrite Rlt_b_false. Qed.

Lemma pow_zero_exp (x : f64) (b : R) : b = 0 -> (x ** Fin b)%f64 = Fin 1.
Proof. intros ->. unfold pow. cbn [eqb]. now rewrite Req_b_refl. Qed.

Lemma pow_pinf_neg (b : R) : b < 0 -> (PInf ** Fin b)%f64 = Fin 0.
Proof. intros Hb. unfold pow. cbn [eqb]. rdecide. reflexivity. Qed.

Lemma pow_pinf_pos (b : R) : 0 < b -> (PInf ** Fin b)%f64 = PInf.
Proof. intros Hb. unfold pow. cbn [eqb]. rdecide. reflexivity. Qed.

Lemma pow_nan (b : R) : b <> 0 -> (NaN ** Fin b)%f64 = NaN.
Proof. intros Hb. unfold pow. cbn [eqb]. rewrite (Req_b_false Hb). reflexivity. Qed.

Lemma Rdiv_le_bound (a b c : R) : 0 < b -> a <= c * b -> a / b <= c.
Proof.
  intros Hb H. assert (0 < / b) by (now apply Rinv_0_lt_compat).
  unfold Rdiv. replace c with ((c * b) * / b) by (field; lra).
  apply Rmult_le_compat_r; lra.
Qed.

Lemma Rdiv_ge_bound (a b c : R) : 0 < b -> c * b <= a -> c <= a / b.
Proof.
  intros Hb H. assert (0 < / b) by (now apply Rinv_0_lt_compat).
  unfold Rdiv. replace c with ((c * b) * / b) by (field; lra).
  apply Rmult_le_compat_r; lra.
Qed.

Lemma Rdiv_lt_bound (a b c : R) : 0 < b -> a < c * b -> a / b < c.
Proof.
  intros Hb H. assert (0 < / b) by (now apply Rinv_0_lt_compat).
  unfold Rdiv. replace c with ((c * b) * / b) by (field; lra).
  apply Rmult_lt_compat_r; lra.
Qed.

Lemma Rdiv_gt_bound (a b c : R) : 0 < b -> c * b < a -> c < a / b.
Proof.
  intros Hb H. assert (0 < / b) by (now apply Rinv_0_lt_compat).
  unfold Rdiv. replace c with ((c * b) * / b) by (field; lra).
  apply Rmult_lt_compat_r; lra.
Qed.

Lemma Rpower_unit_interval (d e : R) : 1 <= d -> e <= 0 -> 0 < Rpower d e <= 1.
Proof.
  intros Hd He. split.
  - unfold Rpower. apply exp_pos.
  - rewrite <- (Rpower_O d) by lra. now apply Rle_Rpower.
Qed.

End F64_facts2.

(** Arithmetic on finite operands; the divisors must be seen to be non-zero *)
Ltac farith :=
  repeat (rewrite ?add_fin, ?sub_fin, ?mul_fin, ?opp_fin;
          try (rewrite div_fin by (solve [assumption | lra | nra]))).

(* ================================================================= *)
(** * Facts about arrays *)

Section Array_facts.

Lemma length_map2 {A B C} (f : A -> B -> C) xs ys :
  List.length xs = List.length ys -> List.length (map2 f xs ys) = List.length ys.
Proof.
  revert ys; induction xs as [|x xs IH]; intros [|y ys] H; simpl in *;
    try discriminate; auto.
Qed.

Lemma length_fill {A} (x : list A) mask v :
  List.length (fill x mask v) = List.length x.
Proof.
  revert mask; induction x as [|a x IH]; intros [|m mask]; simpl; auto.
Qed.

Lemma length_scatter {A} (x : list A) mask vals :
  List.length (scatter x mask vals) = List.length x.
Proof.
  revert mask vals; induction x as [|a x IH]; intros [|m mask] vals; simpl; auto.
  destruct m; [destruct vals|]; simpl; auto.
Qed.

Lemma length_empty junk n : List.length (empty junk n) = n.
Proof. unfold empty. now rewrite length_map, length_seq. Qed.

Lemma length_select_map {A B} (r : A -> bool) (ms : list A) (gs : list B) :
  List.length gs = List.length ms ->
  List.length (select (map r ms) gs) = count (map r ms).
Proof.
  unfold count.
  revert gs; induction ms as [|m ms IH]; intros [|g0 gs] H; simpl in *;
    try discriminate; auto.
  destruct (r m); simpl; auto.
Qed.

Lemma map2_ext {A B C} (f f' : A -> B -> C) xs ys :
  (forall x y, f x y = f' x y) -> map2 f xs ys = map2 f' xs ys.
Proof.
  intros E; revert ys; induction xs as [|x xs IH]; intros [|y ys]; simpl; auto.
  now rewrite E, IH.
Qed.

Lemma map2_map_r {A B C D} (f : A -> C -> D) (h : A -> B -> C) xs ys :
  map2 (fun x y => f x (h x y)) xs ys = map2 f xs (map2 h xs ys).
Proof.
  revert ys; induction xs as [|x xs IH]; intros [|y ys]; simpl; auto.
  now rewrite IH.
Qed.

Lemma nth_map2 {A B C} (f : A -> B -> C) xs ys i da db dc :
  List.length xs = List.length ys -> (i < List.length ys)%nat ->
  nth i (map2 f xs ys) dc = f (nth i xs da) (nth i ys db).
Proof.
  revert ys i; induction xs as [|x xs IH]; intros [|y ys] i H Hi; simpl in *;
    try discriminate; try lia.
  destruct i; auto. apply IH; lia.
Qed.

(** A masked assignment of a scalar, place by place *)
Lemma fill_map {A B} (p : B -> bool) (x : list A) (ms : list B) v :
  List.length x = List.length ms ->
  fill x (map p ms) v = map2 (fun a m => if p m then v else a) x ms.
Proof.
  revert ms; induction x as [|a x IH]; intros [|m ms] H; simpl in *;
    try discriminate; auto.
  f_equal. apply IH; lia.
Qed.

(** A masked assignment whose right-hand side is masked the same way never
    fails, and works place by place. *)
Lemma put_masked (r : f64 -> bool) (f : f64 -> f64 -> f64)
    (x gs ms : list f64) :
  List.length x = List.length ms -> List.length gs = List.length ms ->
  put x (map r ms) (map2 f (select (map r ms) gs) (select (map r ms) ms))
  = Ok (map3 (fun a g0 m => if r m then f g0 m else a) x gs ms).
Proof.
  intros Hx Hg. unfold put.
  rewrite length_map2, !length_select_map, Nat.eqb_refl;
    try reflexivity; try assumption.
  2:{ now rewrite !length_select_map. }
  f_equal.
  revert x gs Hx Hg; induction ms as [|m ms IH]; intros [|a x] [|g0 gs] Hx Hg;
    simpl in *; try discriminate; auto.
  destruct (r m); simpl; f_equal; apply IH; lia.
Qed.

Lemma map3_map2_l {A B C D E} (f : A -> C -> D -> E) (h : B -> D -> A)
    (x : list B) (gs : list C) (ms : list D) :
  List.length x = List.length ms ->
  map3 f (map2 h x ms) gs ms = map3 (fun a g0 m => f (h a m) g0 m) x gs ms.
Proof.
  revert gs ms; induction x as [|a x IH]; intros [|g0 gs] [|m ms] H;
    simpl in *; try discriminate; auto.
  f_equal. apply IH; lia.
Qed.

Lemma map3_const_l {A B C D} (f : A -> B -> C -> D) (f' : B -> C -> D)
    (x : list A) (gs : list B) (ms : list C) :
  List.length x = List.length ms ->
  (forall a g0 m, f a g0 m = f' g0 m) ->
  map3 f x gs ms = map2 f' gs ms.
Proof.
  intros H E; revert gs ms H; induction x as [|a x IH]; intros [|g0 gs] [|m ms] H;
    simpl in *; try discriminate; auto.
  rewrite E. f_equal. apply IH; lia.
Qed.

Lemma any_map_false {A} (p : A -> bool) (l : list A) :
  any (map p l) = false <-> Forall (fun x => p x = false) l.
Proof.
  unfold any. induction l as [|x l IH]; simpl.
  - split; auto.
  - rewrite orb_false_iff, IH. split.
    + intros [H1 H2]; constructor; assumption.
    + intros H; inversion H; subst; split; assumption.
Qed.

Lemma any_map_true {A} (p : A -> bool) (l : list A) :
  any (map p l) = true <-> Exists (fun x => p x = true) l.
Proof.
  unfold any. induction l as [|x l IH]; simpl.
  - split; [discriminate | intros H; inversion H].
  - rewrite orb_true_iff, IH. split.
    + intros [H|H]; [left | right]; assumption.
    + intros H; inversion H; subst; [left | right]; assumption.
Qed.

Lemma Fin_inj (a b : R) : Fin a = Fin b -> a = b.
Proof. intros H. injection H. auto. Qed.

Lemma Ok_inj {A} (a b : A) : Ok a = Ok b -> a = b.
Proof. intros H. injection H. auto. Qed.

Lemma Scalars_inj {A : Type -> Type} (a b : A f64) :
  Scalars a = Scalars b -> a = b.
Proof. intros H. injection H. auto. Qed.

Lemma Arrays_inj {A : Type -> Type} (a b : A ndarray) :
  Arrays a = Arrays b -> a = b.
Proof. intros H. injection H. auto. Qed.

Lemma bcast_scalar n (v : f64) : bcast n [v] = repeat v n.
Proof.
  unfold bcast, ones. cbn [size List.length Nat.eqb flat0 hd].
  induction n as [|n IH]; cbn [repeat map]; [reflexivity|].
  rewrite mul_one_l. f_equal. exact IH.
Qed.

Lemma bcast_array n (x : ndarray) : size x <> 1%nat -> bcast n x = x.
Proof.
  intros H. unfold bcast. now rewrite (proj2 (Nat.eqb_neq _ _) H).
Qed.

End Array_facts.

(* ================================================================= *)
(** * flowisentropic, element by element *)

Module IsentropicFacts.

Import Isentropic IsentropicSpec.

Lemma map3_map3_r {A B C} (F G : A -> B -> C -> C) gs fs ms :
  map3 F gs fs (map3 G gs fs ms)
  = map3 (fun g0 f m => F g0 f (G g0 f m)) gs fs ms.
Proof.
  revert fs ms; induction gs as [|g0 gs IH]; intros [|f fs] [|m ms]; simpl; auto.
  now rewrite IH.
Qed.

Lemma map3_ext {A B C D} (F G : A -> B -> C -> D) gs fs ms :
  (forall a b c, F a b c = G a b c) -> map3 F gs fs ms = map3 G gs fs ms.
Proof.
  intros E; revert fs ms; induction gs as [|g0 gs IH]; intros [|f fs] [|m ms];
    simpl; auto.
  now rewrite E, IH.
Qed.

Lemma map3_map_const {A B C D E} (F : A -> B -> C -> D) (c : C)
    gs fs (ms : list E) :
  List.length ms = List.length fs ->
  map3 F gs fs (map (fun _ => c) ms) = map2 (fun g0 f => F g0 f c) gs fs.
Proof.
  revert fs ms; induction gs as [|g0 gs IH]; intros [|f fs] [|m ms] H;
    simpl in *; try discriminate; auto.
  f_equal. apply IH; lia.
Qed.

Lemma map3_repeat_l {A B C D} (F : A -> B -> C -> D) (c : A) gs ms :
  map3 F (repeat c (List.length ms)) gs ms = map2 (F c) gs ms.
Proof.
  revert gs; induction ms as [|m ms IH]; intros [|g0 gs]; simpl; auto.
  now rewrite IH.
Qed.

Lemma map2_map2_l {A B C D} (h : C -> B -> D) (k : A -> B -> C) gs fs :
  map2 h (map2 k gs fs) fs = map2 (fun g0 f => h (k g0 f) f) gs fs.
Proof.
  revert fs; induction gs as [|g0 gs IH]; intros [|f fs]; simpl; auto.
  now rewrite IH.
Qed.

Lemma length_map3 {A B C D} (F : A -> B -> C -> D) gs fs ms :
  List.length gs = List.length ms -> List.length fs = List.length ms ->
  List.length (map3 F gs fs ms) = List.length ms.
Proof.
  revert fs ms; induction gs as [|g0 gs IH]; intros [|f fs] [|m ms] H1 H2;
    simpl in *; try discriminate; auto.
Qed.

Lemma map3_id {A B C} (gs : list A) (fs : list B) (ms : list C) :
  List.length gs = List.length ms -> List.length fs = List.length ms ->
  map3 (fun _ _ m => m) gs fs ms = ms.
Proof.
  revert fs ms; induction gs as [|g0 gs IH]; intros [|f fs] [|m ms] H1 H2;
    simpl in *; try discriminate; auto.
  f_equal. apply IH; lia.
Qed.

(** The loop on arrays runs the iteration of each element *)
Lemma newton_loop_spec n gamma flow M :
  List.length gamma = List.length M -> List.length flow = List.length M ->
  newton_loop n gamma flow M
  = map3 (fun g0 f m => Nat.iter n (newton_step g0 f) m) gamma flow M.
Proof.
  revert M; induction n as [|n IH]; intros M H1 H2.
  - simpl. now rewrite map3_id.
  - cbn [newton_loop]. rewrite IH by (now rewrite length_map3).
    rewrite map3_map3_r. apply map3_ext. intros a b c.
    now rewrite Nat.iter_succ_r.
Qed.

Lemma in_sub_sup (mtype : string) :
  in_list mtype ["sub"; "sup"]%string = true ->
  (String.eqb mtype "sub" = true /\ String.eqb mtype "sup" = false)
  \/ (String.eqb mtype "sub" = false /\ String.eqb mtype "sup" = true).
Proof.
  unfold in_list; cbn [existsb]. rewrite orb_false_r.
  destruct (String.eqb mtype "sub") eqn:E1.
  - apply String.eqb_eq in E1; subst. intros _. left. split; reflexivity.
  - cbn [orb]. intros ->. right. split; reflexivity.
Qed.

(** The closed-form modes assign every place of [M]: the places with
    [flow == 0] and the places with [flow != 0] *)
Lemma closed_form_spec (h : f64 -> f64 -> f64) (M0 gamma flow : ndarray) :
  List.length M0 = List.length flow -> List.length gamma = List.length flow ->
  put (fill M0 (map (fun f => f =? Fin 0) flow) PInf)
      (map (fun f => f !=? Fin 0) flow)
      (map2 h (select (map (fun f => f !=? Fin 0) flow) gamma)
              (select (map (fun f => f !=? Fin 0) flow) flow))
  = Ok (map2 (fun g0 f => if f =? Fin 0 then PInf else h g0 f) gamma flow).
Proof.
  intros H0 Hg.
  rewrite put_masked by (rewrite ?length_fill; assumption).
  rewrite fill_map, map3_map2_l by assumption.
  f_equal. apply map3_const_l; [assumption|].
  intros a g0 m. unfold neb. destruct (m =? Fin 0); reflexivity.
Qed.

Lemma solve_mach_spec (M0 gamma flow : ndarray) (mtype : string) :
  List.length M0 = List.length flow -> List.length gamma = List.length flow ->
  solve_mach M0 gamma flow mtype
  = match mode_of mtype with
    | None => Raise (Exception msg_mode)
    | Some m =>
        if rejects m flow then Raise (Exception (msg_of m))
        else Ok (map2 (mach_elem m) gamma flow)
    end.
Proof.
  intros H0 Hg. unfold solve_mach, mode_of.
  destruct (in_list mtype ["mach"; "m"]%string).
  { cbn [rejects msg_of mach_elem].
    destruct (any _); [reflexivity|]. f_equal.
    clear H0. revert gamma Hg. induction flow as [|f fs IH]; intros [|g0 gs] Hg;
      simpl in *; try discriminate; auto.
    f_equal. apply IH; lia. }
  destruct (in_list mtype ["temp"; "t"]%string).
  { cbn [rejects msg_of mach_elem].
    destruct (_ || _); [reflexivity|]. now apply closed_form_spec. }
  destruct (in_list mtype ["pres"; "p"]%string).
  { cbn [rejects msg_of mach_elem].
    destruct (_ || _); [reflexivity|]. now apply closed_form_spec. }
  destruct (in_list mtype ["dens"; "d"; "rho"]%string).
  { cbn [rejects msg_of mach_elem].
    destruct (_ || _); [reflexivity|]. now apply closed_form_spec. }
  destruct (in_list mtype ["sub"; "sup"]%string) eqn:Ea; [|reflexivity].
  destruct (in_sub_sup _ Ea) as [[E1 E2]|[E1 E2]]; rewrite E1, ?E2;
    cbn [rejects msg_of mach_elem];
    (destruct (any _); [reflexivity|]); f_equal;
    unfold _AETB_iternum;
    rewrite newton_loop_spec by (rewrite ?length_map; lia);
    rewrite map3_map_const by assumption;
    rewrite fill_map by (rewrite length_map2; lia);
    rewrite map2_map2_l; reflexivity.
Qed.

Lemma area_elem_scalar (gamma M : f64) :
  (if isinf M then Fin 0 else if M =? Fin 0 then PInf else rel_area gamma M)
  = area_elem gamma M.
Proof. unfold area_elem. destruct M; cbn [isinf eqb]; reflexivity. Qed.

Lemma relations_array_spec (n : nat) (gamma M : ndarray) :
  List.length gamma = List.length M -> n = List.length M ->
  relations_array n gamma M
  = Ok (Flow5 M (map2 rel_T gamma M) (map2 rel_P gamma M)
          (map2 rel_rho gamma M) (map2 area_elem gamma M)).
Proof.
  intros Hg ->. unfold relations_array, zeros.
  rewrite put_masked by (rewrite ?length_fill, ?repeat_length; auto).
  cbn [bind]. do 2 f_equal.
  rewrite fill_map, map3_map2_l by (now rewrite repeat_length).
  rewrite map3_repeat_l. apply map2_ext. intros g0 m.
  unfold area_elem. destruct m; cbn [isinf eqb negb andb]; try reflexivity.
  destruct (Req_b r 0); reflexivity.
Qed.

Lemma bcast_length (n : nat) (x : ndarray) :
  (size x = 1 \/ size x = n)%nat -> List.length (bcast n x) = n.
Proof.
  unfold bcast, size. intros [H|H].
  - rewrite H. cbn [Nat.eqb]. unfold ones. now rewrite length_map, repeat_length.
  - destruct (Nat.eqb_spec (List.length x) 1) as [E|E]; [|assumption].
    unfold ones. now rewrite length_map, repeat_length.
Qed.

(** The broadcast of two non-empty inputs that passed the shape test *)
Lemma broadcast_shapes (gamma flow : ndarray) :
  gamma <> [] -> flow <> [] ->
  (1 <? size gamma)%nat && (1 <? size flow)%nat
    && negb (size gamma =? size flow)%nat = false ->
  let n := if (size flow <? size gamma)%nat then size gamma else size flow in
  List.length (bcast n gamma) = n /\ List.length (bcast n flow) = n.
Proof.
  intros Hg Hf Hs n.
  assert (Lg : (1 <= size gamma)%nat) by (destruct gamma; [congruence | simpl; lia]).
  assert (Lf : (1 <= size flow)%nat) by (destruct flow; [congruence | simpl; lia]).
  subst n. split; apply bcast_length.
  - destruct (Nat.ltb_spec (size flow) (size gamma)) as [L|L]; [now right|].
    destruct (Nat.ltb_spec 1 (size gamma)) as [L1|L1]; [|left; lia].
    destruct (Nat.ltb_spec 1 (size flow)) as [L2|L2]; [|lia].
    cbn [andb] in Hs. apply negb_false_iff, Nat.eqb_eq in Hs. now right.
  - destruct (Nat.ltb_spec (size flow) (size gamma)) as [L|L]; [|now right].
    destruct (Nat.ltb_spec 1 (size gamma)) as [L1|L1]; [|lia].
    destruct (Nat.ltb_spec 1 (size flow)) as [L2|L2]; [|left; lia].
    cbn [andb] in Hs. apply negb_false_iff, Nat.eqb_eq in Hs. lia.
Qed.

(** The array program does, element by element, what [elementwise] says. *)
Theorem flowisentropic_elementwise junk (gamma flow : ndarray) (mtype : string) :
  gamma <> [] -> flow <> [] ->
  flowisentropic_from junk gamma flow mtype = elementwise gamma flow mtype.
Proof.
  intros Hg Hf. unfold flowisentropic_from, elementwise.
  destruct (any _); [reflexivity|].
  destruct (_ && _) eqn:Hs; [reflexivity|].
  destruct (broadcast_shapes Hg Hf Hs) as [Lg Lf].
  set (n := if (size flow <? size gamma)%nat then size gamma else size flow) in *.
  rewrite solve_mach_spec by (rewrite ?length_empty; congruence).
  destruct (mode_of mtype) as [m|]; [|reflexivity].
  destruct (rejects m (bcast n flow)); [reflexivity|].
  cbn [bind]. unfold size at 1.
  rewrite length_map2 by congruence. rewrite Lf.
  destruct (n =? 1)%nat.
  - unfold relations_scalar. now rewrite area_elem_scalar.
  - rewrite relations_array_spec; [reflexivity | | ].
    + rewrite length_map2; congruence.
    + rewrite length_map2; congruence.
Qed.

(** What [sp.empty] left in the Mach array never reaches the result. *)
Corollary flowisentropic_junk j1 j2 (gamma flow : ndarray) (mtype : string) :
  gamma <> [] -> flow <> [] ->
  flowisentropic_from j1 gamma flow mtype = flowisentropic_from j2 gamma flow mtype.
Proof. intros Hg Hf. now rewrite !flowisentropic_elementwise. Qed.

(** ** Calls that pass the validation *)

Lemma lt_not_le (x y : f64) : (x <? y) = true -> (y <=? x) = false.
Proof.
  destruct x, y; cbn; try discriminate; try reflexivity.
  intros H. apply Rlt_b_spec in H. unfold leb; cbn.
  rewrite Rlt_b_false, Req_b_false by lra. reflexivity.
Qed.

Lemma gamma_valid_accepts (gamma : ndarray) :
  gamma_valid gamma -> any (map (fun g0 => g0 <=? Fin 1) gamma) = false.
Proof.
  intros H. apply any_map_false. eapply Forall_impl; [|exact H].
  intros a Ha. now apply lt_not_le.
Qed.

Lemma shapes_ok_accepts (gamma flow : ndarray) :
  shapes_ok gamma flow ->
  (1 <? size gamma)%nat && (1 <? size flow)%nat
    && negb (size gamma =? size flow)%nat = false.
Proof.
  intros (_ & _ & [H|[H|H]]); rewrite H; cbn.
  - reflexivity.
  - now rewrite andb_false_r.
  - now rewrite Nat.eqb_refl, andb_false_r.
Qed.

(** A call that passes the validation returns the relations of each
    element: scalars when the common shape is 1, arrays otherwise. *)
Lemma flowisentropic_returns (gamma flow : ndarray) (mtype : string) (m : mode) :
  gamma_valid gamma -> shapes_ok gamma flow ->
  mode_of mtype = Some m ->
  rejects m (bcast (bshape gamma flow) flow) = false ->
  let n := bshape gamma flow in
  let gamma' := bcast n gamma in
  let M := map2 (mach_elem m) gamma' (bcast n flow) in
  List.length gamma' = n /\ List.length (bcast n flow) = n /\ List.length M = n /\
  flowisentropic gamma flow mtype
  = if (n =? 1)%nat then
      Ok (Scalars (Flow5 (flat0 M) (rel_T (flat0 gamma') (flat0 M))
                     (rel_P (flat0 gamma') (flat0 M))
                     (rel_rho (flat0 gamma') (flat0 M))
                     (area_elem (flat0 gamma') (flat0 M))))
    else
      Ok (Arrays (Flow5 M (map2 rel_T gamma' M) (map2 rel_P gamma' M)
                    (map2 rel_rho gamma' M) (map2 area_elem gamma' M))).
Proof.
  intros Hg Hs Hm Hr n gamma' M. subst M gamma' n. unfold bshape in *.
  pose proof (shapes_ok_accepts Hs) as Hs'.
  destruct Hs as (Hg0 & Hf0 & _).
  destruct (broadcast_shapes Hg0 Hf0 Hs') as [Lg Lf].
  repeat split; try assumption.
  - rewrite length_map2; congruence.
  - unfold flowisentropic. rewrite flowisentropic_elementwise by assumption.
    unfold elementwise. rewrite gamma_valid_accepts, Hs' by assumption.
    rewrite Hm, Hr. reflexivity.
Qed.

(** A call on two scalars *)
Lemma scalar_call (g0 f : f64) (mtype : string) (m : mode) :
  (g0 <=? Fin 1) = false -> mode_of mtype = Some m -> rejects m [f] = false ->
  flowisentropic [g0] [f] mtype
  = let M := mach_elem m g0 f in
    Ok (Scalars (Flow5 M (rel_T g0 M) (rel_P g0 M) (rel_rho g0 M)
                   (area_elem g0 M))).
Proof.
  intros Hg Hm Hr. unfold flowisentropic.
  rewrite flowisentropic_elementwise by discriminate.
  unfold elementwise.
  cbn [map any existsb size List.length Nat.ltb Nat.leb Nat.eqb andb negb orb].
  rewrite Hg. cbn [orb]. rewrite !bcast_scalar. cbn [repeat].
  rewrite Hm, Hr. reflexivity.
Qed.

(** ** Values of the gamma-ratios and of the relations *)

Local Open Scope R_scope.

Lemma Rdiv_neg_pos (a b : R) : a < 0 -> 0 < b -> a / b < 0.
Proof.
  intros Ha Hb. unfold Rdiv.
  assert (0 < / b) by (now apply Rinv_0_lt_compat). nra.
Qed.

Lemma gb_fin (g0 : R) : gb (Fin g0) = Fin ((g0 - 1) / 2).
Proof. unfold gb. fsimpl. f_equal; lra. Qed.

Lemma ga_fin (g0 : R) : ga (Fin g0) = Fin ((g0 + 1) / 2).
Proof. unfold ga. fsimpl. reflexivity. Qed.

Lemma gc_fin (g0 : R) : g0 <> 1 -> gc (Fin g0) = Fin ((g0 + 1) / 2 / (g0 - 1)).
Proof.
  intros H. unfold gc. rewrite ga_fin. fsimpl.
  try rewrite Req_b_false by lra. f_equal; f_equal; lra.
Qed.

Lemma rel_d_pinf (g0 : R) : 1 < g0 -> rel_d (Fin g0) PInf = PInf.
Proof.
  intros Hg. unfold rel_d. rewrite gb_fin, pow_pinf_pos by lra.
  cbn [mul]. unfold signed_inf. rdecide. reflexivity.
Qed.

(** At a zero temperature ratio the Mach number is infinite and every ratio
    returned, the area ratio too, is zero. *)
Lemma temp_zero (g0 : R) :
  1 < g0 ->
  flowisentropic [Fin g0] [Fin 0] "temp"
  = Ok (Scalars (Flow5 PInf (Fin 0) (Fin 0) (Fin 0) (Fin 0))).
Proof.
  intros Hg.
  rewrite (@scalar_call (Fin g0) (Fin 0) "temp" Temp).
  - cbn [mach_elem]. fsimpl. cbv zeta.
    unfold rel_T, rel_P, rel_rho, area_elem. rewrite rel_d_pinf by assumption.
    cbn [eqb isinf].
    rewrite pow_pinf_neg by lra.
    fsimpl.
    rewrite !pow_pinf_neg; [reflexivity | | ]; apply Rdiv_neg_pos; lra.
  - fsimpl. reflexivity.
  - reflexivity.
  - cbn [rejects map any existsb]. fsimpl. reflexivity.
Qed.

End IsentropicFacts.

(* ================================================================= *)
(** * flowisentropic: the properties of the specification *)

Module IsentropicClaims.

Import Isentropic IsentropicSpec IsentropicFacts.

Local Open Scope R_scope.

Lemma length_one {A} (l : list A) : List.length l = 1%nat -> exists x, l = [x].
Proof.
  destruct l as [|x [|y l]]; simpl; try discriminate. intros _. now exists x.
Qed.

Lemma Forall_bcast (P : f64 -> Prop) (n : nat) (x : ndarray) :
  Forall P x -> Forall P (bcast n x).
Proof.
  intros H. unfold bcast.
  destruct (Nat.eqb_spec (size x) 1) as [E|E]; [|assumption].
  destruct (length_one _ E) as [v ->].
  inversion H; subst. unfold ones.
  induction n as [|n IH]; cbn [repeat map]; constructor; [|exact IH].
  now rewrite mul_one_l.
Qed.

(** What the function returns once the Mach numbers [M] are resolved *)
Lemma returned_arrays (gamma flow : ndarray) (mtype : string) (out : output) :
  gamma <> [] -> flow <> [] ->
  flowisentropic gamma flow mtype = Ok out ->
  let n := bshape gamma flow in
  exists m,
    mode_of mtype = Some m /\
    List.length (bcast n gamma) = n /\ List.length (bcast n flow) = n /\
    mach_array out = map2 (mach_elem m) (bcast n gamma) (bcast n flow) /\
    area_array out = map2 area_elem (bcast n gamma) (mach_array out).
Proof.
  intros Hg Hf H n. subst n. unfold bshape.
  unfold flowisentropic in H. rewrite flowisentropic_elementwise in H by assumption.
  unfold elementwise in H.
  destruct (any _); [discriminate|].
  destruct (_ && _) eqn:Hs; [discriminate|].
  destruct (broadcast_shapes Hg Hf Hs) as [Lg Lf].
  set (n := if (size flow <? size gamma)%nat then size gamma else size flow) in *.
  destruct (mode_of mtype) as [m|]; [|discriminate].
  exists m. repeat split; try assumption.
  - destruct (rejects m _); [discriminate|].
    destruct (Nat.eqb_spec n 1) as [E|E]; inversion H; subst out; cbn [mach_array].
    + destruct (@length_one _ (bcast n gamma)) as [g0 Eg]; [congruence|].
      destruct (@length_one _ (bcast n flow)) as [f0 Ef]; [congruence|].
      rewrite Eg, Ef. reflexivity.
    + reflexivity.
  - destruct (rejects m _); [discriminate|].
    destruct (Nat.eqb_spec n 1) as [E|E]; inversion H; subst out;
      cbn [mach_array area_array out_M out_area].
    + destruct (@length_one _ (bcast n gamma)) as [g0 Eg]; [congruence|].
      destruct (@length_one _ (bcast n flow)) as [f0 Ef]; [congruence|].
      rewrite Eg, Ef. reflexivity.
    + reflexivity.
Qed.

(** C5: in the relations evaluated from the resolved Mach number, the area
    ratio of every element is [+inf] where the Mach number is 0, 0 where the
    Mach number is infinite, and [a^(-c) * d^c / M] with [d = 1 + b*M^2],
    [a = (gamma+1)/2], [b = (gamma-1)/2], [c = a/(gamma-1)] elsewhere. *)
Theorem C5_area_ratio (gamma flow : ndarray) (mtype : string) (out : output) :
  gamma <> [] -> flow <> [] ->
  flowisentropic gamma flow mtype = Ok out ->
  let gamma' := bcast (bshape gamma flow) gamma in
  List.length (mach_array out) = List.length gamma' /\
  area_array out = map2 area_spec gamma' (mach_array out).
Proof.
  intros Hg Hf H gamma'.
  destruct (returned_arrays _ Hg Hf H) as (m & _ & Lg & Lf & HM & HA).
  split.
  - rewrite HM, length_map2; subst gamma'; congruence.
  - exact HA.
Qed.

Lemma C5_area_ratio_witness :
  List.length (mach_array (Scalars (Flow5 PInf (Fin 0) (Fin 0) (Fin 0) (Fin 0))))
  = List.length (bcast (bshape [Fin 1.4] [Fin 0]) [Fin 1.4]) /\
  area_array (Scalars (Flow5 PInf (Fin 0) (Fin 0) (Fin 0) (Fin 0)))
  = map2 area_spec (bcast (bshape [Fin 1.4] [Fin 0]) [Fin 1.4])
      (mach_array (Scalars (Flow5 PInf (Fin 0) (Fin 0) (Fin 0) (Fin 0)))).
Proof.
  apply (@C5_area_ratio [Fin 1.4] [Fin 0] "temp").
  - discriminate.
  - discriminate.
  - apply temp_zero. lra.
Defined.

(** C4 (amended): for every gamma > 1 the call with temperature ratio 0 in
    mode [temp] returns the Mach number [+inf] and the area ratio 0, which is
    the value the source gives the area ratio at an infinite Mach number;
    the temperature, pressure and density ratios are 0 as well. *)
Theorem C4_temp_zero_limits (g0 : R) :
  1 < g0 ->
  flowisentropic [Fin g0] [Fin 0] "temp"
  = Ok (Scalars (Flow5 PInf (Fin 0) (Fin 0) (Fin 0) (Fin 0))).
Proof. intros Hg. now apply temp_zero. Qed.

Lemma C4_temp_zero_limits_witness :
  1 < 1.4 /\
  flowisentropic [Fin 1.4] [Fin 0] "temp"
  = Ok (Scalars (Flow5 PInf (Fin 0) (Fin 0) (Fin 0) (Fin 0))).
Proof. split; [lra | apply C4_temp_zero_limits; lra]. Defined.

(** C4 as stated fails: at gamma = 1.4 the area ratio returned with the
    infinite Mach number is not [+inf]. *)
Lemma C4_area_not_infinite :
  ~ (exists r, flowisentropic [Fin 1.4] [Fin 0] "temp" = Ok (Scalars r)
               /\ out_M r = PInf /\ out_area r = PInf).
Proof.
  intros (r & H & _ & Ha). rewrite temp_zero in H by lra.
  inversion H; subst r. discriminate Ha.
Qed.

(** A call that passes the validation returns, and its Mach numbers are those
    of [mach_elem] *)
Lemma flowisentropic_mach (gamma flow : ndarray) (mtype : string) (m : mode) :
  gamma_valid gamma -> shapes_ok gamma flow ->
  mode_of mtype = Some m ->
  rejects m (bcast (bshape gamma flow) flow) = false ->
  let n := bshape gamma flow in
  exists out,
    flowisentropic gamma flow mtype = Ok out /\
    List.length (bcast n gamma) = n /\ List.length (bcast n flow) = n /\
    mach_array out = map2 (mach_elem m) (bcast n gamma) (bcast n flow).
Proof.
  intros Hg Hs Hm Hr n.
  destruct (@flowisentropic_returns gamma flow mtype m Hg Hs Hm Hr)
    as (Lg & Lf & LM & E).
  fold n in Lg, Lf, LM, E.
  assert (Hout : exists out, flowisentropic gamma flow mtype = Ok out).
  { rewrite E. destruct (n =? 1)%nat; eexists; reflexivity. }
  destruct Hout as [out Hout]. exists out.
  destruct Hs as (Hg0 & Hf0 & _).
  destruct (returned_arrays _ Hg0 Hf0 Hout) as (m' & Hm' & _ & _ & HM & _).
  rewrite Hm in Hm'. inversion Hm'; subst m'.
  repeat split; assumption.
Qed.

Lemma area_flow_accepted (n : nat) (flow : ndarray) :
  Forall (fun f => (f <? Fin 1)%f64 = false) flow ->
  any (map (fun f => (f <? Fin 1)%f64) (bcast n flow)) = false.
Proof. intros H. apply any_map_false. now apply Forall_bcast. Qed.

(** ** The Newton-Raphson iteration *)

Lemma newton_f_fin (g0 A m : R) :
  1 < g0 -> m <> 0 ->
  newton_f (Fin g0) (Fin A) (Fin m) = Fin (residual_R g0 A m).
Proof.
  intros Hg Hm. unfold newton_f, residual_R.
  rewrite ga_fin, gb_fin, gc_fin by lra. cbv zeta.
  rewrite pow_two, !opp_fin, mul_fin, add_fin.
  assert (0 < 1 + (g0 - 1) / 2 * (m * m)) by nra.
  rewrite !pow_pos_gen by lra. farith. reflexivity.
Qed.

Lemma newton_g_fin (g0 m : R) :
  1 < g0 -> m <> 0 ->
  newton_g (Fin g0) (Fin m) = Fin (slope_R g0 m).
Proof.
  intros Hg Hm. unfold newton_g, slope_R.
  rewrite ga_fin, gb_fin, gc_fin by lra. cbv zeta.
  rewrite pow_two, !opp_fin, !mul_fin, !sub_fin, add_fin.
  assert (0 < 1 + (g0 - 1) / 2 * (m * m)) by nra.
  rewrite !pow_pos_gen by lra.
  assert (m * m <> 0) by nra.
  farith. reflexivity.
Qed.

(** The slope the loop divides by is the derivative of the residual. *)
Lemma slope_is_derivative (g0 A m : R) :
  1 < g0 -> m <> 0 ->
  derivable_pt_lim (residual_R g0 A) m (slope_R g0 m).
Proof.
  intros Hg Hm. unfold residual_R, slope_R. cbv zeta.
  set (a := (g0 + 1) / 2). set (b := (g0 - 1) / 2). set (c := a / (g0 - 1)).
  assert (Hb : 0 < b) by (unfold b; lra).
  assert (Hu : 0 < 1 + b * (m * m)) by nra.
  set (u := fun x : R => 1 + b * (x * x)).
  assert (Du : derivable_pt_lim u m (b * (2 * m))).
  { apply derivable_pt_lim_ext
      with (f := (fct_cte 1 + mult_real_fct b (id * id))%F).
    - intros z. reflexivity.
    - replace (b * (2 * m)) with (0 + b * (1 * id m + id m * 1))
        by (unfold id; lra).
      apply derivable_pt_lim_plus; [apply derivable_pt_lim_const|].
      apply derivable_pt_lim_scal.
      apply derivable_pt_lim_mult; apply derivable_pt_lim_id. }
  assert (Dp : derivable_pt_lim (comp (fun x => Rpower x c) u) m
                 (c * Rpower (u m) (c - 1) * (b * (2 * m)))).
  { apply derivable_pt_lim_comp; [exact Du|].
    apply derivable_pt_lim_power. exact Hu. }
  assert (Dn : derivable_pt_lim
                 (mult_real_fct (Rpower a (- c)) (comp (fun x => Rpower x c) u)) m
                 (Rpower a (- c) * (c * Rpower (u m) (c - 1) * (b * (2 * m))))).
  { apply derivable_pt_lim_scal. exact Dp. }
  pose proof (derivable_pt_lim_div _ id m _ 1 Dn (derivable_pt_lim_id m) Hm) as Dq.
  pose proof (derivable_pt_lim_plus _ _ m _ _
                (derivable_pt_lim_const (- A) m) Dq) as D.
  apply derivable_pt_lim_ext
    with (g := fun x => - A + Rpower a (- c) * Rpower (1 + b * (x * x)) c / x) in D;
    [|intros z; reflexivity].
  match goal with
  | |- derivable_pt_lim _ _ ?l =>
      replace l with
        (0 + (Rpower a (- c) * (c * Rpower (u m) (c - 1) * (b * (2 * m))) * id m
              - 1 * mult_real_fct (Rpower a (- c))
                      (comp (fun x => Rpower x c) u) m)
             / (id m)²); [exact D|]
  end.
  unfold mult_real_fct, comp, id, Rsqr, u.
  assert (E : Rpower (1 + b * (m * m)) c
              = Rpower (1 + b * (m * m)) (c - 1) * (1 + b * (m * m))).
  { replace c with ((c - 1) + 1) at 1 by lra.
    rewrite Rpower_plus, Rpower_1 by exact Hu. reflexivity. }
  rewrite E. field. exact Hm.
Qed.

Lemma ge_not_lt (x y : f64) : (x >=? y)%f64 = true -> (x <? y)%f64 = false.
Proof.
  unfold geb, leb. destruct x, y; cbn; try discriminate; try reflexivity.
  intros H. apply orb_true_iff in H. apply Rlt_b_false.
  destruct H as [H|H]; [apply Rlt_b_spec in H | apply Req_b_spec in H]; lra.
Qed.

Lemma area_valid_accepted (n : nat) (flow : ndarray) :
  area_valid flow ->
  any (map (fun f => (f <? Fin 1)%f64) (bcast n flow)) = false.
Proof.
  intros H. apply area_flow_accepted.
  eapply Forall_impl; [|exact H]. intros f. apply ge_not_lt.
Qed.

(** A call in mode [sub] or [sup] on valid inputs returns the iterates of
    [mach_elem] *)
Lemma area_modes_return (gamma flow : ndarray) (mtype : string) :
  gamma_valid gamma -> shapes_ok gamma flow -> area_valid flow ->
  mtype = "sub"%string \/ mtype = "sup"%string ->
  let n := bshape gamma flow in
  exists out,
    flowisentropic gamma flow mtype = Ok out /\
    List.length (mach_array out) = n /\
    forall i, (i < n)%nat ->
      nth i (mach_array out) NaN
      = let f := nth i (bcast n flow) NaN in
        if (f =? Fin 1)%f64 then Fin 1
        else Nat.iter 10 (newton_step (nth i (bcast n gamma) NaN) f)
               (initial_guess mtype).
Proof.
  intros Hg Hs Hf Hm n.
  assert (Hmode : exists m, mode_of mtype = Some m /\
            forall g0 f, mach_elem m g0 f
                         = if (f =? Fin 1)%f64 then Fin 1
                           else Nat.iter 10 (newton_step g0 f) (initial_guess mtype)).
  { destruct Hm; subst mtype; [exists Sub | exists Sup]; split; auto. }
  destruct Hmode as (m & Hmode & Hel).
  destruct (@flowisentropic_mach gamma flow mtype m Hg Hs Hmode)
    as (out & Hout & Lg & Lf & HM).
  { assert (Hr : rejects m = rejects Sub).
    { destruct Hm; subst mtype; inversion Hmode; reflexivity. }
    rewrite Hr. cbn [rejects]. now apply area_valid_accepted. }
  fold n in Lg, Lf, HM.
  exists out. split; [assumption|]. split.
  - rewrite HM, length_map2; congruence.
  - intros i Hi. rewrite HM.
    rewrite (@nth_map2 _ _ _ _ _ _ i NaN NaN NaN) by congruence.
    apply Hel.
Qed.

(** The scalar calls at the area ratio 1 *)
Lemma sonic_scalar (g0 : R) (mtype : string) :
  1 < g0 -> mtype = "sub"%string \/ mtype = "sup"%string ->
  exists r, flowisentropic [Fin g0] [Fin 1] mtype = Ok (Scalars r)
            /\ out_M r = Fin 1.
Proof.
  intros Hg [-> | ->].
  - eexists. split.
    + apply (@scalar_call (Fin g0) (Fin 1) "sub" Sub); [|reflexivity|].
      * fsimpl. reflexivity.
      * cbn [rejects map any existsb]. fsimpl. reflexivity.
    + cbn [out_M mach_elem]. fsimpl. reflexivity.
  - eexists. split.
    + apply (@scalar_call (Fin g0) (Fin 1) "sup" Sup); [|reflexivity|].
      * fsimpl. reflexivity.
      * cbn [rejects map any existsb]. fsimpl. reflexivity.
    + cbn [out_M mach_elem]. fsimpl. reflexivity.
Qed.

(** C3: for every gamma > 1 the calls with area ratio 1 in modes [sub] and
    [sup] return the Mach number 1 exactly; and in every call in these modes
    each element whose area ratio is 1 has the Mach number 1 exactly. *)
Theorem C3_sonic_point :
  (forall g0 : R, 1 < g0 ->
     exists r, flowisentropic [Fin g0] [Fin 1] "sub" = Ok (Scalars r)
               /\ out_M r = Fin 1) /\
  (forall g0 : R, 1 < g0 ->
     exists r, flowisentropic [Fin g0] [Fin 1] "sup" = Ok (Scalars r)
               /\ out_M r = Fin 1) /\
  (forall (gamma flow : ndarray) (mtype : string),
     gamma_valid gamma -> shapes_ok gamma flow -> area_valid flow ->
     mtype = "sub"%string \/ mtype = "sup"%string ->
     let n := bshape gamma flow in
     exists out,
       flowisentropic gamma flow mtype = Ok out /\
       List.length (mach_array out) = n /\
       forall i, (i < n)%nat -> nth i (bcast n flow) NaN = Fin 1 ->
                 nth i (mach_array out) NaN = Fin 1).
Proof.
  split; [|split].
  - intros g0 Hg. apply sonic_scalar; [assumption | now left].
  - intros g0 Hg. apply sonic_scalar; [assumption | now right].
  - intros gamma flow mtype Hg Hs Hf Hm n.
    destruct (@area_modes_return gamma flow mtype Hg Hs Hf Hm)
      as (out & Hout & Lm & Hel).
    fold n in Lm, Hel.
    exists out. split; [assumption|]. split; [assumption|].
    intros i Hi Hone. rewrite (Hel i Hi). cbv zeta. rewrite Hone.
    fsimpl. reflexivity.
Qed.

Lemma C3_sonic_point_witness :
  exists r, flowisentropic [Fin 1.4] [Fin 1] "sub" = Ok (Scalars r)
            /\ out_M r = Fin 1.
Proof. apply (proj1 C3_sonic_point 1.4). lra. Defined.

(** ** gamma = 3, where the Mach-area relation is rational *)

Lemma gamma3_ratios :
  ga (Fin 3) = Fin 2 /\ gb (Fin 3) = Fin 1 /\ gc (Fin 3) = Fin 1.
Proof.
  rewrite ga_fin, gb_fin, gc_fin by lra.
  repeat split; f_equal; lra.
Qed.

(** One Newton-Raphson step at gamma = 3 for the area ratio [A] *)
Lemma step_gamma3 (A m : R) :
  m <> 0 -> m * m <> 1 ->
  newton_step (Fin 3) (Fin A) (Fin m) = Fin (2 * m * (A * m - 1) / (m * m - 1)).
Proof.
  intros Hm H1.
  destruct gamma3_ratios as (Ea & Eb & Ec).
  unfold newton_step, newton_f, newton_g. rewrite Ea, Eb, Ec.
  cbv zeta. rewrite pow_two.
  assert (Hk : 0 < m * m) by nra.
  rewrite opp_fin. replace (- (1)) with (-1) by lra. rewrite pow_neg_one by lra.
  rewrite (@sub_fin 1 1), (@pow_zero_exp _ (1 - 1)) by lra.
  rewrite !mul_fin, add_fin.
  rewrite (@pow_pos_gen (1 + 1 * (m * m)) 1) by nra.
  rewrite Rpower_1 by nra.
  farith.
  replace (/ 2 * 1 * (1 * (2 * 1 - 1) * (m * m) - 1) / (m * m))
    with ((m * m - 1) / (2 * (m * m))) by (field; lra).
  assert (Hd : (m * m - 1) / (2 * (m * m)) <> 0).
  { unfold Rdiv. apply Rmult_integral_contrapositive_currified; [lra|].
    apply Rinv_neq_0_compat. lra. }
  farith. f_equal. field. repeat split; lra.
Qed.

(** At the area ratio 1 the iterates from 0.2 approach 1 and never reach it. *)
Lemma sonic_iterates (n : nat) :
  Nat.iter n (newton_step (Fin 3) (Fin 1)) (Fin 0.2) = Fin (2 ^ n / (2 ^ n + 4)).
Proof.
  induction n as [|n IH].
  - simpl. f_equal. lra.
  - rewrite Nat.iter_succ, IH.
    assert (Hp : 0 < 2 ^ n) by (apply pow_lt; lra).
    set (p := 2 ^ n) in *.
    assert (Hm : 0 < p / (p + 4) < 1).
    { split.
      - apply Rdiv_lt_0_compat; lra.
      - apply Rmult_lt_reg_r with (p + 4); [lra|].
        unfold Rdiv. rewrite Rmult_assoc, Rinv_l by lra. lra. }
    rewrite step_gamma3 by nra.
    f_equal. replace (2 ^ S n) with (2 * p) by (subst p; simpl; lra).
    field. repeat split; lra.
Qed.

(** C2 (amended): in modes [sub] and [sup], for gamma > 1 and area ratios of
    1 or more, the Mach number returned for every element whose area ratio
    is not 1 is the result of exactly 10 Newton-Raphson updates
    [M <- M - f(M)/g(M)] of the residual
    [f(M) = -flow + a^(-c) (1+b M^2)^c / M], from 0.2 in mode [sub] and from
    1.8 in mode [sup], whatever the residuals are; and on finite non-zero
    Mach numbers [g] is the derivative of [f].  (An element whose area ratio
    is 1 gets the Mach number 1 instead, see C3.) *)
Theorem C2_newton_iterations :
  (forall (gamma flow : ndarray) (mtype : string),
     gamma_valid gamma -> shapes_ok gamma flow -> area_valid flow ->
     mtype = "sub"%string \/ mtype = "sup"%string ->
     let n := bshape gamma flow in
     exists out,
       flowisentropic gamma flow mtype = Ok out /\
       List.length (mach_array out) = n /\
       forall i, (i < n)%nat ->
         (nth i (bcast n flow) NaN =? Fin 1)%f64 = false ->
         nth i (mach_array out) NaN
         = Nat.iter 10
             (newton_raphson (nth i (bcast n gamma) NaN) (nth i (bcast n flow) NaN))
             (initial_guess mtype)) /\
  (forall g0 A m : R, 1 < g0 -> m <> 0 ->
     residual (Fin g0) (Fin A) (Fin m) = Fin (residual_R g0 A m) /\
     newton_g (Fin g0) (Fin m) = Fin (slope_R g0 m) /\
     derivable_pt_lim (residual_R g0 A) m (slope_R g0 m)).
Proof.
  split.
  - intros gamma flow mtype Hg Hs Hf Hm n.
    destruct (@area_modes_return gamma flow mtype Hg Hs Hf Hm)
      as (out & Hout & Lm & Hel).
    fold n in Lm, Hel.
    exists out. split; [assumption|]. split; [assumption|].
    intros i Hi Hne. rewrite (Hel i Hi). cbv zeta. rewrite Hne. reflexivity.
  - intros g0 A m Hg Hm. split; [|split].
    + now apply newton_f_fin.
    + now apply newton_g_fin.
    + now apply slope_is_derivative.
Qed.

Lemma C2_newton_iterations_witness :
  exists out,
    flowisentropic [Fin 1.4] [Fin 2] "sub" = Ok out /\
    List.length (mach_array out) = bshape [Fin 1.4] [Fin 2] /\
    forall i, (i < bshape [Fin 1.4] [Fin 2])%nat ->
      (nth i (bcast (bshape [Fin 1.4] [Fin 2]) [Fin 2]) NaN =? Fin 1)%f64 = false ->
      nth i (mach_array out) NaN
      = Nat.iter 10
          (newton_raphson (nth i (bcast (bshape [Fin 1.4] [Fin 2]) [Fin 1.4]) NaN)
             (nth i (bcast (bshape [Fin 1.4] [Fin 2]) [Fin 2]) NaN))
          (initial_guess "sub").
Proof.
  apply (proj1 C2_newton_iterations [Fin 1.4] [Fin 2] "sub"%string).
  - constructor; [fsimpl; reflexivity | constructor].
  - split; [discriminate | split; [discriminate | left; reflexivity]].
  - constructor; [fsimpl; reflexivity | constructor].
  - left; reflexivity.
Defined.

(** C2 as stated fails at the area ratio 1: at gamma = 3 in mode [sub] the
    Mach number returned is not the tenth Newton-Raphson iterate from 0.2. *)
Lemma C2_not_iterate_at_one :
  ~ (exists r, flowisentropic [Fin 3] [Fin 1] "sub" = Ok (Scalars r)
               /\ out_M r = Nat.iter 10 (newton_raphson (Fin 3) (Fin 1)) (Fin 0.2)).
Proof.
  intros (r & H & HM).
  rewrite (@scalar_call (Fin 3) (Fin 1) "sub" Sub) in H.
  - cbv zeta in H. apply Ok_inj, Scalars_inj in H. subst r.
    cbn [out_M mach_elem] in HM.
    change (newton_raphson (Fin 3) (Fin 1)) with (newton_step (Fin 3) (Fin 1)) in HM.
    rewrite sonic_iterates in HM. revert HM. fsimpl.
    intros HM. inversion HM as [E]. simpl in E. lra.
  - fsimpl. reflexivity.
  - reflexivity.
  - cbn [rejects map any existsb]. fsimpl. reflexivity.
Qed.

(** ** The relations at a finite Mach number *)

Lemma d_R_ge_1 (g0 m : R) : 1 < g0 -> 1 <= d_R g0 m.
Proof. intros Hg. unfold d_R. nra. Qed.

Lemma rel_d_fin (g0 m : R) : rel_d (Fin g0) (Fin m) = Fin (d_R g0 m).
Proof. unfold rel_d, d_R. rewrite gb_fin, pow_two. reflexivity. Qed.

Lemma rel_T_fin (g0 m : R) :
  1 < g0 -> rel_T (Fin g0) (Fin m) = Fin (/ d_R g0 m).
Proof.
  intros Hg. pose proof (d_R_ge_1 m Hg).
  unfold rel_T. rewrite rel_d_fin, pow_neg_one by lra. reflexivity.
Qed.

Lemma rel_P_fin (g0 m : R) :
  1 < g0 -> rel_P (Fin g0) (Fin m) = Fin (Rpower (d_R g0 m) (- g0 / (g0 - 1))).
Proof.
  intros Hg. pose proof (d_R_ge_1 m Hg).
  unfold rel_P. rewrite rel_d_fin. farith. now rewrite pow_pos_gen by lra.
Qed.

Lemma rel_rho_fin (g0 m : R) :
  1 < g0 -> rel_rho (Fin g0) (Fin m) = Fin (Rpower (d_R g0 m) (-1 / (g0 - 1))).
Proof.
  intros Hg. pose proof (d_R_ge_1 m Hg).
  unfold rel_rho. rewrite rel_d_fin. farith. now rewrite pow_pos_gen by lra.
Qed.






(** At Mach 1 the area ratio is 1. *)
Lemma sonic_area (g0 : R) : 1 < g0 -> area_elem (Fin g0) (Fin 1) = Fin 1.
Proof.
  intros Hg. unfold area_elem. cbn [eqb isinf]. rewrite Req_b_false by lra.
  unfold rel_area. rewrite rel_d_fin, ga_fin, gc_fin by lra. rewrite opp_fin.
  assert (Ha : 0 < (g0 + 1) / 2) by lra.
  assert (Hd : d_R g0 1 = (g0 + 1) / 2) by (unfold d_R; lra).
  rewrite Hd, !pow_pos_gen by lra. farith. f_equal.
  rewrite Rpower_Ropp. field.
  unfold Rpower. apply Rgt_not_eq, exp_pos.
Qed.

(** ** The area modes away from the sonic point: gamma = 3, M = 0.01 *)

Lemma forward_area_gamma3 : area_elem (Fin 3) (Fin 0.01) = Fin 50.005.
Proof.
  destruct gamma3_ratios as (Ea & Eb & Ec).
  unfold area_elem. cbn [eqb isinf]. rewrite Req_b_false by lra.
  unfold rel_area, rel_d. rewrite Ea, Eb, Ec, pow_two, opp_fin. farith.
  replace (- (1)) with (-1) by lra. rewrite pow_neg_one by lra.
  rewrite pow_pos_gen by lra. rewrite Rpower_1 by lra. farith.
  f_equal. lra.
Qed.

(** Outside [-1, 1] a Newton-Raphson step for an area ratio of 1 or more
    lands above 1: the iteration is then on the supersonic branch. *)
Lemma step_gamma3_outside (A m : R) :
  1 <= A -> m < -1 \/ 1 < m ->
  exists m', newton_step (Fin 3) (Fin A) (Fin m) = Fin m' /\ 1 < m'.
Proof.
  intros HA Hm.
  assert (Hm2 : 0 < m * m - 1) by (destruct Hm; nra).
  exists (2 * m * (A * m - 1) / (m * m - 1)). split.
  - apply step_gamma3; destruct Hm; nra.
  - apply Rdiv_gt_bound; [assumption|].
    destruct Hm; nra.
Qed.

Lemma iterates_gamma3_outside (A : R) (n : nat) (m : R) :
  1 <= A -> m < -1 \/ 1 < m ->
  exists m', Nat.iter n (newton_step (Fin 3) (Fin A)) (Fin m) = Fin m'
             /\ (m' < -1 \/ 1 < m').
Proof.
  intros HA. revert m. induction n as [|n IH]; intros m Hm.
  - exists m. split; [reflexivity | assumption].
  - rewrite Nat.iter_succ_r.
    destruct (step_gamma3_outside HA Hm) as (m1 & E1 & H1).
    rewrite E1. apply IH. now right.
Qed.

(** From 0.2 the iteration for the area ratio of Mach 0.01 leaves the
    subsonic branch at its first step. *)
Lemma sub_mode_leaves_branch :
  exists m', Nat.iter 10 (newton_step (Fin 3) (Fin 50.005)) (Fin 0.2) = Fin m'
             /\ (m' < -1 \/ 1 < m').
Proof.
  rewrite Nat.iter_succ_r. rewrite step_gamma3 by lra.
  apply iterates_gamma3_outside; [lra|].
  left.
  match goal with
  | |- ?a / ?b < _ => replace (a / b) with ((- a) / (- b)) by (field; lra)
  end.
  apply Rdiv_lt_bound; lra.
Qed.

End IsentropicClaims.

(* ================================================================= *)
(** * flownormalshock on scalars, and on the bounds *)

Module ShockFacts.

Import Shock ShockSpec.

Local Open Scope R_scope.

Lemma put_single {A} (a v : A) (m : bool) :
  put [a] [m] [v] = Ok [if m then v else a].
Proof. destruct m; reflexivity. Qed.

Lemma solve_mach_single (u g0 f : f64) (mtype : string) :
  solve_mach [u] [g0] [f] mtype
  = match mode_of mtype with
    | None => Raise (Exception msg_mode)
    | Some m =>
        if rejects m [g0] [f] then Raise (Exception (msg_of m))
        else Ok [mach_elem u m g0 f]
    end.
Proof.
  unfold solve_mach, mode_of.
  destruct (in_list mtype ["mach"; "m1"; "m"]%string); [reflexivity|].
  destruct (in_list mtype ["down"; "mach2"; "m2"; "md"]%string).
  { cbn [rejects msg_of mach_elem map map2 fill].
    destruct (_ || _); [reflexivity|]. rewrite put_single.
    unfold gtb. destruct (lowerbound g0 <? f); reflexivity. }
  destruct (in_list mtype ["pres"; "p"]%string); [reflexivity|].
  destruct (in_list mtype ["dens"; "d"; "rho"]%string); [|reflexivity].
  cbn [rejects msg_of mach_elem map map2 fill].
  destruct (_ || _); [reflexivity|]. rewrite put_single.
  destruct (f <? upperbound g0); reflexivity.
Qed.

(** A call on two scalars *)
Lemma shock_scalar_call junk (g0 f : f64) (mtype : string) (m : mode) :
  (g0 <=? Fin 1) = false -> mode_of mtype = Some m ->
  rejects m [g0] [f] = false ->
  flownormalshock junk [g0] [f] mtype
  = let M := mach_elem (junk 0%nat) m g0 f in
    Ok (Scalars (Shock7 M (rel_M2 g0 M) (rel_T g0 M) (rel_P g0 M)
                   (rel_rho g0 M) (rel_P0 g0 M) (rel_P1 g0 M))).
Proof.
  intros Hg Hm Hr. unfold flownormalshock.
  cbn [map any existsb size List.length Nat.ltb Nat.leb Nat.eqb andb negb orb].
  rewrite Hg. cbn [orb]. rewrite !bcast_scalar. cbn [repeat empty seq map].
  rewrite solve_mach_single, Hm, Hr. reflexivity.
Qed.

Lemma shock_ga_fin (g0 : R) : ga (Fin g0) = Fin ((g0 + 1) / 2).
Proof. unfold ga. farith. reflexivity. Qed.

Lemma shock_gb_fin (g0 : R) : gb (Fin g0) = Fin ((g0 - 1) / 2).
Proof. unfold gb. farith. reflexivity. Qed.

Lemma shock_gc_fin (g0 : R) : g0 <> 1 -> gc (Fin g0) = Fin (g0 / (g0 - 1)).
Proof. intros H. unfold gc. farith. reflexivity. Qed.

Lemma lowerbound_fin (g0 : R) :
  1 < g0 -> lowerbound (Fin g0) = Fin (R_sqrt.sqrt ((g0 - 1) / (2 * g0))).
Proof.
  intros Hg. unfold lowerbound. farith. apply sqrt_fin.
  apply Rlt_le, Rdiv_lt_0_compat; lra.
Qed.

Lemma lowerbound_le_1 (g0 : R) : 1 < g0 -> R_sqrt.sqrt ((g0 - 1) / (2 * g0)) <= 1.
Proof.
  intros Hg. apply Rle_trans with (R_sqrt.sqrt 1); [|rewrite sqrt_1; lra].
  apply sqrt_le_1_alt.
  apply Rmult_le_reg_r with (2 * g0); [lra|].
  unfold Rdiv. rewrite Rmult_assoc, Rinv_l by lra. lra.
Qed.

Lemma upperbound_fin (g0 : R) :
  1 < g0 -> upperbound (Fin g0) = Fin ((g0 + 1) / (g0 - 1)).
Proof. intros Hg. unfold upperbound. farith. reflexivity. Qed.

Lemma upperbound_ge_1 (g0 : R) : 1 < g0 -> 1 <= (g0 + 1) / (g0 - 1).
Proof.
  intros Hg. apply Rmult_le_reg_r with (g0 - 1); [lra|].
  unfold Rdiv. rewrite Rmult_assoc, Rinv_l by lra. lra.
Qed.

(** The relations at an infinite upstream Mach number *)
Lemma relations_pinf (g0 : R) :
  1 < g0 ->
  rel_M2 (Fin g0) PInf = NaN /\ rel_T (Fin g0) PInf = NaN /\
  rel_P (Fin g0) PInf = PInf /\ rel_rho (Fin g0) PInf = NaN /\
  rel_P0 (Fin g0) PInf = NaN /\ rel_P1 (Fin g0) PInf = NaN.
Proof.
  intros Hg.
  assert (Hc : g0 / (g0 - 1) <> 0).
  { unfold Rdiv. apply Rmult_integral_contrapositive_currified; [lra|].
    apply Rinv_neq_0_compat; lra. }
  assert (Erho : rel_rho (Fin g0) PInf = NaN).
  { unfold rel_rho. rewrite pow_pinf_pos by lra. farith.
    cbn [mul]. unfold signed_inf. rdecide. reflexivity. }
  assert (EP : rel_P (Fin g0) PInf = PInf).
  { unfold rel_P. rewrite pow_pinf_pos, shock_ga_fin by lra.
    cbn [sub add opp mul]. unfold signed_inf. rdecide.
    cbn [div]. rdecide. reflexivity. }
  assert (ET : rel_T (Fin g0) PInf = NaN).
  { unfold rel_T. rewrite EP, Erho. reflexivity. }
  repeat split; try assumption.
  - unfold rel_M2. rewrite pow_pinf_pos, shock_gb_fin by lra.
    cbn [mul]. unfold signed_inf. rdecide. reflexivity.
  - unfold rel_P0. rewrite EP, ET, shock_gc_fin, opp_fin, pow_nan by lra. reflexivity.
  - unfold rel_P1. rewrite pow_pinf_pos, shock_ga_fin, shock_gb_fin, shock_gc_fin by lra.
    rewrite pow_two. cbn [mul sub add opp]. unfold signed_inf.
    assert (0 < (g0 + 1) / 2 * ((g0 + 1) / 2)) by nra.
    rdecide. cbn [div]. rewrite pow_nan by exact Hc. reflexivity.
Qed.

(** A scalar input on the bound that maps to an infinite upstream Mach
    number: the relations are evaluated at [+inf] as they stand. *)
Lemma on_bound_scalar junk (g0 : R) :
  1 < g0 ->
  flownormalshock junk [Fin g0] [lowerbound (Fin g0)] "down"
  = Ok (Scalars (Shock7 PInf NaN NaN PInf NaN NaN NaN)) /\
  flownormalshock junk [Fin g0] [upperbound (Fin g0)] "dens"
  = Ok (Scalars (Shock7 PInf NaN NaN PInf NaN NaN NaN)).
Proof.
  intros Hg.
  destruct (@relations_pinf g0 Hg) as (E1 & E2 & E3 & E4 & E5 & E6).
  pose proof (@lowerbound_le_1 g0 Hg) as Hl.
  pose proof (@upperbound_ge_1 g0 Hg) as Hu.
  split.
  - rewrite (@shock_scalar_call junk (Fin g0) (lowerbound (Fin g0)) "down" Down).
    + cbn [mach_elem]. rewrite lowerbound_fin by assumption. fsimpl. cbv zeta.
      now rewrite E1, E2, E3, E4, E5, E6.
    + fsimpl. reflexivity.
    + reflexivity.
    + cbn [rejects map map2 any existsb]. rewrite lowerbound_fin by assumption.
      fsimpl. reflexivity.
  - rewrite (@shock_scalar_call junk (Fin g0) (upperbound (Fin g0)) "dens" Dens).
    + cbn [mach_elem]. rewrite upperbound_fin by assumption. fsimpl. cbv zeta.
      now rewrite E1, E2, E3, E4, E5, E6.
    + fsimpl. reflexivity.
    + reflexivity.
    + cbn [rejects map map2 any existsb]. rewrite upperbound_fin by assumption.
      fsimpl. reflexivity.
Qed.

Lemma lowerbound_2 : lowerbound (Fin 2) = Fin 0.5.
Proof.
  rewrite lowerbound_fin by lra. f_equal.
  replace ((2 - 1) / (2 * 2)) with (0.5 * 0.5) by lra.
  apply sqrt_square. lra.
Qed.

(** An array with an element on the bound: numpy refuses the second masked
    assignment of mode [down], whose right-hand side is the whole array. *)
Lemma on_bound_array junk :
  flownormalshock junk [Fin 2] [Fin 0.5; Fin 0.8] "down"
  = Raise (ValueError msg_put).
Proof.
  unfold flownormalshock.
  cbn [map any existsb size List.length Nat.ltb Nat.leb Nat.eqb andb negb orb].
  fsimpl. rewrite bcast_scalar, bcast_array by (cbn; lia).
  cbn [repeat empty seq map].
  unfold solve_mach.
  change (in_list "down" ["mach"; "m1"; "m"]%string) with false.
  change (in_list "down" ["down"; "mach2"; "m2"; "md"]%string) with true.
  cbn [map map2 any existsb]. rewrite lowerbound_2. fsimpl.
  cbn [fill put count filter List.length Nat.eqb bind]. reflexivity.
Qed.

Lemma Q_R_bounds (g0 K : R) :
  1 < g0 -> 1 <= K ->
  0 < g0 * K - (g0 - 1) / 2 /\ (g0 - 1) / (2 * g0) < Q_R g0 K <= 1.
Proof.
  intros Hg HK.
  assert (Hd : 0 < g0 * K - (g0 - 1) / 2) by nra.
  split; [exact Hd|]. unfold Q_R. split.
  - apply Rdiv_gt_bound; [exact Hd|].
    apply Rmult_lt_reg_r with (2 * g0); [lra|].
    replace ((g0 - 1) / (2 * g0) * (g0 * K - (g0 - 1) / 2) * (2 * g0))
      with ((g0 - 1) * (g0 * K - (g0 - 1) / 2)) by (field; lra).
    nra.
  - apply Rdiv_le_bound; [exact Hd|]. nra.
Qed.


Lemma rel_M2_fin (g0 m : R) :
  1 < g0 -> 1 <= m ->
  rel_M2 (Fin g0) (Fin m) = Fin (R_sqrt.sqrt (Q_R g0 (m * m))).
Proof.
  intros Hg Hm. assert (HK : 1 <= m * m) by nra.
  destruct (Q_R_bounds Hg HK) as (Hd & Hl & Hu).
  unfold rel_M2. rewrite shock_gb_fin, pow_two. farith.
  rewrite sqrt_fin; [reflexivity|].
  fold (Q_R g0 (m * m)). assert (0 < (g0 - 1) / (2 * g0)) by (apply Rdiv_lt_0_compat; lra).
  lra.
Qed.


Lemma shock_rel_P_fin (g0 m : R) :
  1 < g0 ->
  rel_P (Fin g0) (Fin m) = Fin (1 + (m * m - 1) * g0 / ((g0 + 1) / 2)).
Proof.
  intros Hg. unfold rel_P. rewrite shock_ga_fin, pow_two. farith. reflexivity.
Qed.


Lemma rho_R_bounds (g0 K : R) :
  1 < g0 -> 1 <= K ->
  0 < 2 + (g0 - 1) * K /\ 1 <= rho_R g0 K < (g0 + 1) / (g0 - 1).
Proof.
  intros Hg HK. assert (Hd : 0 < 2 + (g0 - 1) * K) by nra.
  split; [exact Hd|]. unfold rho_R. split.
  - apply Rdiv_ge_bound; nra.
  - apply Rdiv_lt_bound; [exact Hd|].
    apply Rmult_lt_reg_r with (g0 - 1); [lra|].
    replace ((g0 + 1) / (g0 - 1) * (2 + (g0 - 1) * K) * (g0 - 1))
      with ((g0 + 1) * (2 + (g0 - 1) * K)) by (field; lra).
    nra.
Qed.

Lemma shock_rel_rho_fin (g0 m : R) :
  1 < g0 -> 1 <= m -> rel_rho (Fin g0) (Fin m) = Fin (rho_R g0 (m * m)).
Proof.
  intros Hg Hm. assert (HK : 1 <= m * m) by nra.
  destruct (rho_R_bounds Hg HK) as (Hd & _).
  unfold rel_rho. rewrite pow_two. farith. reflexivity.
Qed.


End ShockFacts.

(* ================================================================= *)
(** * atmosisa, sample by sample *)

Module AtmosFacts.

Import Atmos AtmosSpec.

(** [R] is the gas constant here; the type of the real numbers is [real]. *)
Local Abbreviation real := Rdefinitions.R.

Lemma nth_map3 {A B C D} (F : A -> B -> C -> D) xs ys zs i da db dc dd :
  List.length xs = List.length zs -> List.length ys = List.length zs ->
  (i < List.length zs)%nat ->
  nth i (map3 F xs ys zs) dd = F (nth i xs da) (nth i ys db) (nth i zs dc).
Proof.
  revert ys zs i; induction xs as [|x xs IH]; intros [|y ys] [|z zs] i H1 H2 Hi;
    simpl in *; try discriminate; try lia.
  destruct i; auto. apply IH; lia.
Qed.

(** A masked assignment whose right-hand side is computed from an array
    masked the same way never fails, and works place by place. *)
Lemma put_select (r : f64 -> bool) (f : f64 -> f64) (x ys ms : list f64) :
  List.length x = List.length ms -> List.length ys = List.length ms ->
  put x (map r ms) (map f (select (map r ms) ys))
  = Ok (map3 (fun a y m => if r m then f y else a) x ys ms).
Proof.
  intros Hx Hy. unfold put.
  rewrite length_map, length_select_map, Nat.eqb_refl by assumption.
  f_equal.
  revert x ys Hx Hy; induction ms as [|m ms IH]; intros [|a x] [|y ys] Hx Hy;
    simpl in *; try discriminate; auto.
  destruct (r m); simpl; f_equal; apply IH; lia.
Qed.

Lemma fill_map3 (r : f64 -> bool) (v : f64) (x ys ms : list f64) :
  List.length x = List.length ms -> List.length ys = List.length ms ->
  fill x (map r ms) v = map3 (fun a (_ : f64) m => if r m then v else a) x ys ms.
Proof.
  revert ys ms; induction x as [|a x IH]; intros [|y ys] [|m ms] Hx Hy;
    simpl in *; try discriminate; auto.
  f_equal. apply IH; lia.
Qed.

(** What the body of the loop does to each sample and to the base
    conditions *)
Lemma layer_spec (i : nat) (r : f64 -> bool) (h : ndarray) (st : state) :
  List.length (sT st) = List.length h -> List.length (sP st) = List.length h ->
  exists st',
    layer i (map r h) h st = Ok st' /\
    List.length (sT st') = List.length h /\
    List.length (sP st') = List.length h /\
    Tb st' = layer_T i (Tb st) (at_ Hb (i + 1)) /\
    Pb st' = layer_P i (Tb st) (Pb st) (at_ Hb (i + 1)) /\
    forall j, (j < List.length h)%nat ->
      nth j (sT st') NaN
      = (if r (nth j h NaN) then layer_T i (Tb st) (nth j h NaN)
         else nth j (sT st) NaN) /\
      nth j (sP st') NaN
      = (if r (nth j h NaN) then layer_P i (Tb st) (Pb st) (nth j h NaN)
         else nth j (sP st) NaN).
Proof.
  intros HT HP. unfold layer, layer_P, layer_T.
  destruct (at_ Lr i =? Fin 0).
  - rewrite put_select by auto. cbn [bind].
    eexists. split; [reflexivity|]. cbn [sT sP Tb Pb].
    rewrite length_fill, IsentropicFacts.length_map3 by auto.
    do 4 (split; [auto|]).
    intros j Hj.
    split.
    + rewrite (@fill_map3 r (Tb st) (sT st) h h) by auto.
      rewrite (@nth_map3 _ _ _ _ _ _ _ _ j NaN NaN NaN NaN) by auto.
      reflexivity.
    + rewrite (@nth_map3 _ _ _ _ _ _ _ _ j NaN NaN NaN NaN) by auto.
      reflexivity.
  - rewrite put_select by auto. cbn [bind].
    rewrite put_select by (rewrite ?IsentropicFacts.length_map3; auto). cbn [bind].
    eexists. split; [reflexivity|]. cbn [sT sP Tb Pb].
    rewrite !IsentropicFacts.length_map3
      by (rewrite ?IsentropicFacts.length_map3; auto).
    do 4 (split; [auto|]). intros j Hj. split.
    + rewrite (@nth_map3 _ _ _ _ _ _ _ _ j NaN NaN NaN NaN) by auto.
      reflexivity.
    + rewrite (@nth_map3 _ _ _ _ _ _ _ _ j NaN NaN NaN NaN)
        by (rewrite ?IsentropicFacts.length_map3; auto).
      rewrite (@nth_map3 _ _ _ _ _ _ _ _ j NaN NaN NaN NaN) by auto.
      destruct (r (nth j h NaN)); reflexivity.
Qed.

Local Open Scope R_scope.

Lemma Hb_values :
  at_ Hb 0 = Fin (0 * 1000) /\ at_ Hb 1 = Fin (11 * 1000) /\
  at_ Hb 2 = Fin (20 * 1000) /\ at_ Hb 3 = Fin (32 * 1000) /\
  at_ Hb 4 = Fin (47 * 1000) /\ at_ Hb 5 = Fin (51 * 1000) /\
  at_ Hb 6 = Fin (71 * 1000) /\ at_ Hb 7 = Fin (84.852 * 1000).
Proof. repeat split. Qed.

Lemma Lr_values :
  at_ Lr 0 = Fin (-6.5 * 0.001) /\ at_ Lr 1 = Fin (0 * 0.001) /\
  at_ Lr 2 = Fin (1 * 0.001) /\ at_ Lr 3 = Fin (2.8 * 0.001) /\
  at_ Lr 4 = Fin (0 * 0.001) /\ at_ Lr 5 = Fin (-2.8 * 0.001) /\
  at_ Lr 6 = Fin (-2.0 * 0.001).
Proof. repeat split. Qed.

Lemma gtb_fin_trans (x : f64) (a b : real) :
  a <= b -> (x >? Fin b)%f64 = true -> (x >? Fin a)%f64 = true.
Proof.
  intros Hab. unfold gtb. destruct x; cbn; try discriminate; try reflexivity.
  intros H. apply Rlt_b_spec in H. apply Rlt_b_true. lra.
Qed.

Lemma gtb_fin_ninf (x : f64) (b : real) :
  (x >? Fin b)%f64 = true -> (x >? NInf)%f64 = true.
Proof. unfold gtb. destruct x; cbn; try discriminate; reflexivity. Qed.

(** The base altitudes increase, so the selections are nested. *)
Lemma selected_mono (i : nat) (x : f64) :
  (i < 6)%nat -> selected (S i) x = true -> selected i x = true.
Proof.
  destruct Hb_values as (H0 & H1 & H2 & H3 & H4 & H5 & H6 & H7).
  intros Hi. unfold selected.
  do 6 (destruct i as [|i];
        [cbn [Nat.eqb]; rewrite ?H1, ?H2, ?H3, ?H4, ?H5, ?H6;
         first [apply gtb_fin_ninf | apply gtb_fin_trans; lra] |]).
  lia.
Qed.

Lemma not_selected_later (k m : nat) (x : f64) :
  (k + m <= 7)%nat -> selected k x = false ->
  forall T0 P0, sample T0 P0 (k + m) x = sample T0 P0 k x.
Proof.
  intros Hk Hs T0 P0. induction m as [|m IH].
  - now rewrite Nat.add_0_r.
  - rewrite Nat.add_succ_r. cbn [sample].
    assert (Hn : selected (k + m) x = false).
    { clear IH. induction m as [|m IHm].
      - now rewrite Nat.add_0_r.
      - destruct (selected (k + S m) x) eqn:E; [|reflexivity].
        rewrite Nat.add_succ_r in E. apply selected_mono in E; [|lia].
        rewrite IHm in E by lia. discriminate. }
    rewrite Hn. apply IH. lia.
Qed.

Lemma selection_mask (i : nat) (h : ndarray) :
  (if (i =? 0)%nat then map (fun x => (x >? NInf)%f64) h
   else map (fun x => (x >? at_ Hb i)%f64) h)
  = map (selected i) h.
Proof. unfold selected. destruct (i =? 0)%nat; reflexivity. Qed.

(** The loop, sample by sample: the [break] loses nothing. *)
Lemma walk_spec (T0 P0 : f64) (h : ndarray) (m k : nat) (st : state) :
  (k + m <= 7)%nat ->
  List.length (sT st) = List.length h -> List.length (sP st) = List.length h ->
  (Tb st, Pb st) = base T0 P0 k ->
  (forall j, (j < List.length h)%nat ->
     (nth j (sT st) NaN, nth j (sP st) NaN) = sample T0 P0 k (nth j h NaN)) ->
  exists st',
    walk (seq k m) h st = Ok st' /\
    List.length (sT st') = List.length h /\
    List.length (sP st') = List.length h /\
    forall j, (j < List.length h)%nat ->
      (nth j (sT st') NaN, nth j (sP st') NaN)
      = sample T0 P0 (k + m) (nth j h NaN).
Proof.
  revert k st. induction m as [|m IH]; intros k st Hk HT HP Hb Hs.
  - exists st. rewrite Nat.add_0_r. repeat split; assumption.
  - cbn [seq walk]. rewrite selection_mask.
    destruct (any (map (selected k) h)) eqn:Ea; cbn [negb].
    + destruct (@layer_spec k (selected k) h st HT HP)
        as (st1 & E1 & HT1 & HP1 & HTb & HPb & Hel).
      rewrite E1. cbn [bind].
      destruct (IH (S k) st1) as (st' & E' & HT' & HP' & Hel'); try assumption.
      * lia.
      * rewrite HTb, HPb. cbn [base]. rewrite <- Hb. reflexivity.
      * intros j Hj. destruct (Hel j Hj) as [ET EP]. rewrite ET, EP.
        cbn [sample]. rewrite <- Hb.
        destruct (selected k (nth j h NaN)); [reflexivity|]. now apply Hs.
      * exists st'. rewrite Nat.add_succ_r. repeat split; assumption.
    + exists st. repeat split; try assumption.
      intros j Hj. rewrite not_selected_later; [now apply Hs | lia |].
      apply any_map_false in Ea. rewrite Forall_forall in Ea.
      apply Ea. apply nth_In. assumption.
Qed.

Lemma nth_ones_times (n j : nat) (v : f64) :
  (j < n)%nat -> nth j (map (fun o => (o * v)%f64) (ones n)) NaN = v.
Proof.
  unfold ones. revert j; induction n as [|n IH]; intros j Hj; [lia|].
  cbn [repeat map]. destruct j as [|j]; cbn [nth].
  - apply mul_one_l.
  - apply IH. lia.
Qed.

(** The layer loop of [atmosisa] on the geopotential altitudes [h] *)
Lemma walk_from_sea_level (T0 P0 : f64) (h : ndarray) :
  exists st,
    walk (seq 0 7) h
      (State (map (fun o => (o * T0)%f64) (ones (size h)))
             (map (fun o => (o * P0)%f64) (ones (size h))) T0 P0) = Ok st /\
    List.length (sT st) = List.length h /\
    List.length (sP st) = List.length h /\
    forall j, (j < List.length h)%nat ->
      (nth j (sT st) NaN, nth j (sP st) NaN) = sample T0 P0 7 (nth j h NaN).
Proof.
  apply (@walk_spec T0 P0 h 7 0).
  - lia.
  - cbn [sT]. unfold ones, size. now rewrite length_map, repeat_length.
  - cbn [sP]. unfold ones, size. now rewrite length_map, repeat_length.
  - reflexivity.
  - intros j Hj. cbn [sT sP sample]. unfold size.
    now rewrite !nth_ones_times by assumption.
Qed.

(** A call on one altitude *)
Lemma atmos_scalar_call (x T0 P0 : f64) (mtype : string) :
  atmosisa [x] mtype T0 P0
  = if String.eqb mtype "geop" then
      let (T, P) := sample T0 P0 7 x in
      Ok (Scalars (Atm4 T (sqrt (Fin 1.4 * R * T)) P (P / (R * T))))%f64
    else if String.eqb mtype "geom" then
      let (T, P) := sample T0 P0 7 (x * (Re / (Re + x)))%f64 in
      Ok (Scalars (Atm4 T (sqrt (Fin 1.4 * R * T)) P (P / (R * T))))%f64
    else Raise (Exception msg_mode).
Proof.
  assert (H : forall y : f64,
    (st <- walk (seq 0 7) [y]
             (State (map (fun o => (o * T0)%f64) (ones (size [y])))
                    (map (fun o => (o * P0)%f64) (ones (size [y]))) T0 P0) ;;
     (if (size [y] =? 1)%nat
      then Ok (Scalars (Atm4 (flat0 (sT st)) (sqrt (Fin 1.4 * R * flat0 (sT st)))
                          (flat0 (sP st)) (flat0 (sP st) / (R * flat0 (sT st)))))
      else Ok (Arrays (Atm4 (sT st) (map (fun t => sqrt (Fin 1.4 * R * t)) (sT st))
                         (sP st) (map2 (fun p t => p / (R * t)) (sP st) (sT st)))))%f64)
    = let (T, P) := sample T0 P0 7 y in
      Ok (Scalars (Atm4 T (sqrt (Fin 1.4 * R * T)) P (P / (R * T))))%f64).
  { intros y.
    destruct (walk_from_sea_level T0 P0 [y]) as (st & E & HT & HP & Hel).
    rewrite E. cbn [bind size List.length Nat.eqb].
    specialize (Hel 0%nat (Nat.lt_0_1)). cbn [nth] in Hel.
    destruct (sT st) as [|t [|? ?]]; try discriminate.
    destruct (sP st) as [|p [|? ?]]; try discriminate.
    cbn [nth flat0 hd] in *. rewrite <- Hel. reflexivity. }
  unfold atmosisa.
  destruct (String.eqb mtype "geop"); [apply H|].
  destruct (String.eqb mtype "geom"); [apply H | reflexivity].
Qed.

(** ** Layer formulas on finite values *)

Lemma mul_one_r (x : f64) : (x * Fin 1)%f64 = x.
Proof.
  destruct x; cbn; unfold signed_inf; rdecide; try reflexivity.
  f_equal; lra.
Qed.

Lemma pow_one_base (y : f64) : (Fin 1 ** y)%f64 = Fin 1.
Proof.
  unfold pow. destruct (y =? Fin 0)%f64; [reflexivity|].
  cbn [eqb]. now rewrite Req_b_refl.
Qed.

Lemma layer_T_iso (i : nat) (Tb x : f64) :
  at_ Lr i = Fin (0 * 0.001) -> layer_T i Tb x = Tb.
Proof. intros E. unfold layer_T. rewrite E. fsimpl. reflexivity. Qed.

Lemma layer_T_lapse (i : nat) (l hb tb x : real) :
  at_ Lr i = Fin l -> l <> 0 -> at_ Hb i = Fin hb ->
  layer_T i (Fin tb) (Fin x) = Fin (tb + l * (x - hb)).
Proof.
  intros El Hl Eh. unfold layer_T. rewrite El, Eh. cbn [eqb].
  rewrite (Req_b_false Hl). reflexivity.
Qed.

(** The base temperatures of the seven layers *)
Lemma base_T (t0 : real) (P0 : f64) :
  fst (base (Fin t0) P0 0) = Fin t0 /\
  fst (base (Fin t0) P0 1) = Fin (t0 - 71.5) /\
  fst (base (Fin t0) P0 2) = Fin (t0 - 71.5) /\
  fst (base (Fin t0) P0 3) = Fin (t0 - 59.5) /\
  fst (base (Fin t0) P0 4) = Fin (t0 - 17.5) /\
  fst (base (Fin t0) P0 5) = Fin (t0 - 17.5) /\
  fst (base (Fin t0) P0 6) = Fin (t0 - 73.5).
Proof.
  destruct Hb_values as (H0 & H1 & H2 & H3 & H4 & H5 & H6 & H7).
  destruct Lr_values as (L0 & L1 & L2 & L3 & L4 & L5 & L6).
  assert (S : forall k, fst (base (Fin t0) P0 (S k))
                        = layer_T k (fst (base (Fin t0) P0 k)) (at_ Hb (k + 1))).
  { intros k. cbn [base]. destruct (base (Fin t0) P0 k). reflexivity. }
  assert (E0 : fst (base (Fin t0) P0 0) = Fin t0) by reflexivity.
  assert (E1 : fst (base (Fin t0) P0 1) = Fin (t0 - 71.5)).
  { rewrite S, E0. cbn [Nat.add]. rewrite H1.
    rewrite (@layer_T_lapse _ _ _ _ _ L0 ltac:(lra) H0). f_equal; lra. }
  assert (E2 : fst (base (Fin t0) P0 2) = Fin (t0 - 71.5)).
  { rewrite S, E1. now apply layer_T_iso. }
  assert (E3 : fst (base (Fin t0) P0 3) = Fin (t0 - 59.5)).
  { rewrite S, E2. cbn [Nat.add]. rewrite H3.
    rewrite (@layer_T_lapse _ _ _ _ _ L2 ltac:(lra) H2). f_equal; lra. }
  assert (E4 : fst (base (Fin t0) P0 4) = Fin (t0 - 17.5)).
  { rewrite S, E3. cbn [Nat.add]. rewrite H4.
    rewrite (@layer_T_lapse _ _ _ _ _ L3 ltac:(lra) H3). f_equal; lra. }
  assert (E5 : fst (base (Fin t0) P0 5) = Fin (t0 - 17.5)).
  { rewrite S, E4. now apply layer_T_iso. }
  assert (E6 : fst (base (Fin t0) P0 6) = Fin (t0 - 73.5)).
  { rewrite S, E5. cbn [Nat.add]. rewrite H6.
    rewrite (@layer_T_lapse _ _ _ _ _ L5 ltac:(lra) H5). f_equal; lra. }
  repeat split; assumption.
Qed.

End AtmosFacts.

(* ================================================================= *)
(** * atmosisa: the properties of the specification *)

Module AtmosClaims.

Import Atmos AtmosSpec AtmosFacts.

Local Abbreviation real := Rdefinitions.R.

Local Open Scope R_scope.

Lemma selected_above (x : real) (i : nat) :
  71 * 1000 < x -> (i <= 6)%nat -> selected i (Fin x) = true.
Proof.
  destruct Hb_values as (H0 & H1 & H2 & H3 & H4 & H5 & H6 & H7).
  intros Hx Hi. unfold selected.
  do 7 (destruct i as [|i];
        [cbn [Nat.eqb]; rewrite ?H1, ?H2, ?H3, ?H4, ?H5, ?H6; fsimpl; reflexivity |]).
  lia.
Qed.

(** Above 71 km the last layer of the table applies, at any altitude. *)
Lemma above_mesosphere_base (x t0 : real) (P0 : f64) :
  71 * 1000 < x ->
  atmosisa [Fin x] "geop" (Fin t0) P0
  = let T := Fin (t0 - 73.5 + -2.0 * 0.001 * (x - 71 * 1000)) in
    let P := layer_P 6 (Fin (t0 - 73.5)) (snd (base (Fin t0) P0 6)) (Fin x) in
    Ok (Scalars (Atm4 T (sqrt (Fin 1.4 * R * T)) P (P / (R * T))))%f64.
Proof.
  intros Hx.
  destruct Hb_values as (H0 & H1 & H2 & H3 & H4 & H5 & H6 & H7).
  destruct Lr_values as (L0 & L1 & L2 & L3 & L4 & L5 & L6).
  destruct (base_T t0 P0) as (_ & _ & _ & _ & _ & _ & E6).
  rewrite atmos_scalar_call. cbn [String.eqb Ascii.eqb Bool.eqb].
  cbn [sample]. rewrite selected_above by (assumption || lia).
  destruct (base (Fin t0) P0 6) as [Tb6 Pb6]. cbn [fst snd] in *. subst Tb6.
  rewrite (@layer_T_lapse 6 _ _ _ _ L6 ltac:(lra) H6). reflexivity.
Qed.

(** C7 (amended): for every geopotential altitude strictly above the last
    tabulated base altitude of 84.852 km the layer that starts at 71 km is
    continued with its lapse rate of -2.0 K/km: the temperature returned is
    [Tb + Lr * (h - 71000)] with the base temperature [Tb = T0 - 73.5] of
    that layer, so it goes on decreasing with the altitude, and the pressure
    is the polytropic one of that layer from its base conditions. *)
Theorem C7_above_last_layer (x t0 : real) (P0 : f64) :
  84.852 * 1000 < x ->
  exists r,
    atmosisa [Fin x] "geop" (Fin t0) P0 = Ok (Scalars r) /\
    out_T r = Fin (t0 - 73.5 + -2.0 * 0.001 * (x - 71 * 1000)) /\
    out_P r = layer_P 6 (Fin (t0 - 73.5)) (snd (base (Fin t0) P0 6)) (Fin x).
Proof.
  intros Hx.
  assert (E := @above_mesosphere_base x t0 P0 ltac:(lra)).
  eexists. split; [exact E|]. split; reflexivity.
Qed.

Lemma C7_above_last_layer_witness :
  exists r,
    atmosisa [Fin 90000] "geop" (Fin 288.15) (Fin 101325) = Ok (Scalars r) /\
    out_T r = Fin (288.15 - 73.5 + -2.0 * 0.001 * (90000 - 71 * 1000)) /\
    out_P r = layer_P 6 (Fin (288.15 - 73.5))
                (snd (base (Fin 288.15) (Fin 101325) 6)) (Fin 90000).
Proof. apply C7_above_last_layer. lra. Defined.

(** C7 as stated fails: with the default sea-level conditions the
    temperatures returned at 85 km and at 86 km differ. *)
Lemma C7_temperature_not_constant :
  ~ (exists r1 r2,
       atmosisa [Fin 85000] "geop" (Fin 288.15) (Fin 101325) = Ok (Scalars r1) /\
       atmosisa [Fin 86000] "geop" (Fin 288.15) (Fin 101325) = Ok (Scalars r2) /\
       out_T r1 = out_T r2).
Proof.
  intros (r1 & r2 & E1 & E2 & E).
  assert (F1 := @above_mesosphere_base 85000 288.15 (Fin 101325) ltac:(lra)).
  assert (F2 := @above_mesosphere_base 86000 288.15 (Fin 101325) ltac:(lra)).
  rewrite F1 in E1. rewrite F2 in E2. cbv zeta in E1, E2.
  apply Ok_inj, Scalars_inj in E1. apply Ok_inj, Scalars_inj in E2.
  subst r1 r2. cbn [out_T] in E.
  assert (H : 288.15 - 73.5 + -2.0 * 0.001 * (85000 - 71 * 1000)
              = 288.15 - 73.5 + -2.0 * 0.001 * (86000 - 71 * 1000)).
  { congruence. }
  lra.
Qed.

Lemma exp_fin_zero (y : real) : y = 0 -> F64.exp (Fin y) = Fin 1.
Proof. intros ->. cbn. now rewrite exp_0. Qed.

Lemma pow_zero_base (a k : real) : a = 0 -> 0 < k -> (Fin a ** Fin k)%f64 = Fin 0.
Proof.
  intros -> Hk. unfold pow, pow_fin. cbn [eqb].
  rewrite (@Req_b_false k 0), (@Req_b_false 0 1) by lra.
  rdecide. reflexivity.
Qed.

Lemma div_zero_neg (a b : real) : b = 0 -> a < 0 -> (Fin a / Fin b)%f64 = NInf.
Proof.
  intros -> Ha. cbn. rdecide. unfold signed_inf. rdecide. reflexivity.
Qed.

Lemma div_zero_pos (a b : real) : b = 0 -> 0 < a -> (Fin a / Fin b)%f64 = PInf.
Proof.
  intros -> Ha. cbn. rdecide. unfold signed_inf. rdecide. reflexivity.
Qed.

Lemma Rdiv_neg_neg (a b : real) : a < 0 -> b < 0 -> 0 < a / b.
Proof.
  intros Ha Hb. replace (a / b) with ((- a) / (- b)) by (field; lra).
  apply Rdiv_lt_0_compat; lra.
Qed.

Lemma selected_ninf (i : nat) : (i <= 6)%nat -> selected i NInf = false.
Proof.
  destruct Hb_values as (H0 & H1 & H2 & H3 & H4 & H5 & H6 & H7).
  intros Hi. unfold selected.
  do 7 (destruct i as [|i];
        [cbn [Nat.eqb]; rewrite ?H1, ?H2, ?H3, ?H4, ?H5, ?H6; reflexivity |]).
  lia.
Qed.

Lemma minus_earth_radius_geopotential :
  (Fin (-6356766.0) * (Re / (Re + Fin (-6356766.0))))%f64 = NInf.
Proof.
  unfold Re. rewrite add_fin, div_zero_pos by lra.
  cbn [mul]. unfold signed_inf. rdecide. reflexivity.
Qed.

(** At the geometric altitude [-Re] no layer selects the sample. *)
Lemma minus_earth_radius (T0 P0 : f64) :
  atmosisa [Fin (-6356766.0)] "geom" T0 P0
  = Ok (Scalars (Atm4 T0 (sqrt (Fin 1.4 * R * T0)) P0 (P0 / (R * T0))))%f64.
Proof.
  rewrite atmos_scalar_call. cbn [String.eqb Ascii.eqb Bool.eqb].
  rewrite minus_earth_radius_geopotential.
  cbn [sample]. rewrite !selected_ninf by lia. reflexivity.
Qed.

(** C10 (amended): the conversion [h * Re/(Re + h)] divides without a
    guard; at the geometric altitude [-Re = -6356766.0] m the denominator is
    zero, no validation rejects the altitude, the geopotential altitude is
    [-inf], no layer selects the sample and the call returns the sea-level
    conditions it started from, [T0] and [P0] with their speed of sound and
    density, without raising an error. *)
Theorem C10_minus_earth_radius :
  (Re + Fin (-6356766.0) =? Fin 0)%f64 = true /\
  (Fin (-6356766.0) * (Re / (Re + Fin (-6356766.0))))%f64 = NInf /\
  forall T0 P0 : f64,
    atmosisa [Fin (-6356766.0)] "geom" T0 P0
    = Ok (Scalars (Atm4 T0 (sqrt (Fin 1.4 * R * T0)) P0 (P0 / (R * T0))))%f64.
Proof.
  split; [|split].
  - unfold Re. rewrite add_fin. cbn [eqb]. apply Req_b_true. lra.
  - exact minus_earth_radius_geopotential.
  - exact minus_earth_radius.
Qed.

(** C10 as stated fails: with the default sea-level conditions every value
    returned at the geometric altitude [-Re] is finite. *)
Lemma C10_returns_finite_values :
  ~ (exists r,
       atmosisa [Fin (-6356766.0)] "geom" (Fin 288.15) (Fin 101325.0)
       = Ok (Scalars r) /\
       is_finite (out_T r) && is_finite (out_a r)
       && is_finite (out_P r) && is_finite (out_rho r) = false).
Proof.
  intros (r & E & H). rewrite minus_earth_radius in E.
  apply Ok_inj, Scalars_inj in E. subst r. cbn [out_T out_a out_P out_rho] in H.
  unfold R in H. rewrite !mul_fin in H.
  rewrite sqrt_fin, div_fin in H by lra.
  discriminate H.
Qed.

(** ** Continuity at the layer boundaries *)

Lemma base_succ (T0 P0 : f64) (k : nat) :
  base T0 P0 (S k)
  = (layer_T k (fst (base T0 P0 k)) (at_ Hb (k + 1)),
     layer_P k (fst (base T0 P0 k)) (snd (base T0 P0 k)) (at_ Hb (k + 1))).
Proof. cbn [base]. destruct (base T0 P0 k). reflexivity. Qed.

(** A layer evaluated at its own base altitude returns its base conditions,
    when the base temperature is finite and not zero. *)
Lemma layer_at_base (i : nat) (t : real) (Pb : f64) :
  (1 <= i <= 6)%nat -> t <> 0 ->
  layer_T i (Fin t) (at_ Hb i) = Fin t /\
  layer_P i (Fin t) Pb (at_ Hb i) = Pb.
Proof.
  destruct Hb_values as (H0 & H1 & H2 & H3 & H4 & H5 & H6 & H7).
  destruct Lr_values as (L0 & L1 & L2 & L3 & L4 & L5 & L6).
  intros Hi Ht.
  assert (Hiso : forall hb : real, at_ Lr i = Fin (0 * 0.001) -> at_ Hb i = Fin hb ->
            layer_T i (Fin t) (at_ Hb i) = Fin t /\
            layer_P i (Fin t) Pb (at_ Hb i) = Pb).
  { intros hb El Eh. split; [now apply layer_T_iso|].
    unfold layer_P. rewrite El, Eh. cbn [eqb]. rewrite Req_b_true by lra.
    unfold R, g. farith.
    rewrite exp_fin_zero by (field; lra). apply mul_one_r. }
  assert (Hlapse : forall l hb : real, at_ Lr i = Fin l -> l <> 0 -> at_ Hb i = Fin hb ->
            layer_T i (Fin t) (at_ Hb i) = Fin t /\
            layer_P i (Fin t) Pb (at_ Hb i) = Pb).
  { intros l hb El Hl Eh.
    assert (ET : layer_T i (Fin t) (at_ Hb i) = Fin t).
    { rewrite Eh, (@layer_T_lapse i l hb t hb El Hl Eh). f_equal; lra. }
    split; [exact ET|].
    unfold layer_P. rewrite ET, El. cbn [eqb]. rewrite (Req_b_false Hl).
    rewrite div_fin by assumption.
    replace (t / t) with 1 by (field; assumption).
    rewrite pow_one_base. apply mul_one_r. }
  destruct i as [|[|[|[|[|[|[|i]]]]]]]; try lia.
  - now apply (Hiso _ L1 H1).
  - apply (Hlapse _ _ L2 ltac:(lra) H2).
  - apply (Hlapse _ _ L3 ltac:(lra) H3).
  - now apply (Hiso _ L4 H4).
  - apply (Hlapse _ _ L5 ltac:(lra) H5).
  - apply (Hlapse _ _ L6 ltac:(lra) H6).
Qed.

Lemma base_T_finite (t0 : real) (P0 : f64) (i : nat) :
  (i <= 6)%nat -> exists t, fst (base (Fin t0) P0 i) = Fin t.
Proof.
  destruct (base_T t0 P0) as (E0 & E1 & E2 & E3 & E4 & E5 & E6).
  intros Hi.
  destruct i as [|[|[|[|[|[|[|i]]]]]]]; try lia; eexists; eassumption.
Qed.

(** The two halves of the continuity of the layers *)
Lemma continuity (t0 : real) (P0 : f64) (i : nat) :
  (i < 6)%nat ->
  fst (base (Fin t0) P0 (S i)) <> Fin 0 ->
  let below := base (Fin t0) P0 i in
  let above := base (Fin t0) P0 (S i) in
  layer_T (S i) (fst above) (at_ Hb (S i))
  = layer_T i (fst below) (at_ Hb (S i)) /\
  layer_P (S i) (fst above) (snd above) (at_ Hb (S i))
  = layer_P i (fst below) (snd below) (at_ Hb (S i)).
Proof.
  intros Hi Hnz below above.
  destruct (@base_T_finite t0 P0 (S i)) as [t Et]; [lia|].
  fold above in Et, Hnz.
  assert (Ht : t <> 0) by (intros ->; apply Hnz; exact Et).
  destruct (@layer_at_base (S i) t (snd above)) as [ET EP]; [lia | exact Ht |].
  assert (Eab : above = (layer_T i (fst below) (at_ Hb (S i)),
                         layer_P i (fst below) (snd below) (at_ Hb (S i)))).
  { unfold above, below. rewrite base_succ. now rewrite Nat.add_1_r. }
  rewrite Et, ET, EP. rewrite <- Et. rewrite Eab. split; reflexivity.
Qed.

Lemma layer_P_iso (i : nat) (hb tb pb x : real) :
  at_ Lr i = Fin (0 * 0.001) -> at_ Hb i = Fin hb -> tb <> 0 ->
  exists p, layer_P i (Fin tb) (Fin pb) (Fin x) = Fin p.
Proof.
  intros El Eh Ht. unfold layer_P. rewrite El, Eh. cbn [eqb].
  rewrite Req_b_true by lra. unfold R, g. farith. cbn [exp mul].
  eexists. reflexivity.
Qed.

Lemma layer_P_lapse (i : nat) (l hb tb pb x : real) :
  at_ Lr i = Fin l -> l <> 0 -> at_ Hb i = Fin hb ->
  0 < tb -> 0 < tb + l * (x - hb) ->
  exists p, layer_P i (Fin tb) (Fin pb) (Fin x) = Fin p.
Proof.
  intros El Hl Eh Ht Ht'. unfold layer_P.
  rewrite (@layer_T_lapse i l hb tb x El Hl Eh), El. cbn [eqb].
  rewrite (Req_b_false Hl). unfold R, g.
  assert (l * 287.053 <> 0) by nra.
  farith. rewrite pow_pos_gen by (apply Rdiv_lt_0_compat; lra). farith.
  eexists. reflexivity.
Qed.

(** With a sea-level temperature above 73.5 K every base temperature is
    positive and every base pressure is finite. *)
Lemma base_finite (t0 p0 : real) (i : nat) :
  73.5 < t0 -> (i <= 6)%nat ->
  exists t p, base (Fin t0) (Fin p0) i = (Fin t, Fin p) /\ 0 < t.
Proof.
  intros Ht0.
  destruct Hb_values as (H0 & H1 & H2 & H3 & H4 & H5 & H6 & H7).
  destruct Lr_values as (L0 & L1 & L2 & L3 & L4 & L5 & L6).
  destruct (base_T t0 (Fin p0)) as (E0 & E1 & E2 & E3 & E4 & E5 & E6).
  assert (Hstep : forall k t' p,
            fst (base (Fin t0) (Fin p0) (S k)) = Fin t' ->
            layer_P k (fst (base (Fin t0) (Fin p0) k))
              (snd (base (Fin t0) (Fin p0) k)) (at_ Hb (k + 1)) = Fin p ->
            base (Fin t0) (Fin p0) (S k) = (Fin t', Fin p)).
  { intros k t' p Et Ep. rewrite base_succ in *. cbn [fst] in Et.
    now rewrite Et, Ep. }
  assert (B0 : exists p, base (Fin t0) (Fin p0) 0 = (Fin t0, Fin p)).
  { exists p0. reflexivity. }
  assert (B1 : exists p, base (Fin t0) (Fin p0) 1 = (Fin (t0 - 71.5), Fin p)).
  { destruct B0 as [p B]. 
    destruct (@layer_P_lapse 0 _ _ t0 p (11 * 1000) L0 ltac:(lra) H0) as [p' Ep];
      try lra.
    exists p'. apply Hstep; [exact E1|]. rewrite B. cbn [fst snd Nat.add].
    now rewrite H1. }
  assert (B2 : exists p, base (Fin t0) (Fin p0) 2 = (Fin (t0 - 71.5), Fin p)).
  { destruct B1 as [p B].
    destruct (@layer_P_iso 1 _ (t0 - 71.5) p (20 * 1000) L1 H1) as [p' Ep];
      try lra.
    exists p'. apply Hstep; [exact E2|]. rewrite B. cbn [fst snd Nat.add].
    now rewrite H2. }
  assert (B3 : exists p, base (Fin t0) (Fin p0) 3 = (Fin (t0 - 59.5), Fin p)).
  { destruct B2 as [p B].
    destruct (@layer_P_lapse 2 _ _ (t0 - 71.5) p (32 * 1000) L2 ltac:(lra) H2)
      as [p' Ep]; try lra.
    exists p'. apply Hstep; [exact E3|]. rewrite B. cbn [fst snd Nat.add].
    now rewrite H3. }
  assert (B4 : exists p, base (Fin t0) (Fin p0) 4 = (Fin (t0 - 17.5), Fin p)).
  { destruct B3 as [p B].
    destruct (@layer_P_lapse 3 _ _ (t0 - 59.5) p (47 * 1000) L3 ltac:(lra) H3)
      as [p' Ep]; try lra.
    exists p'. apply Hstep; [exact E4|]. rewrite B. cbn [fst snd Nat.add].
    now rewrite H4. }
  assert (B5 : exists p, base (Fin t0) (Fin p0) 5 = (Fin (t0 - 17.5), Fin p)).
  { destruct B4 as [p B].
    destruct (@layer_P_iso 4 _ (t0 - 17.5) p (51 * 1000) L4 H4) as [p' Ep];
      try lra.
    exists p'. apply Hstep; [exact E5|]. rewrite B. cbn [fst snd Nat.add].
    now rewrite H5. }
  assert (B6 : exists p, base (Fin t0) (Fin p0) 6 = (Fin (t0 - 73.5), Fin p)).
  { destruct B5 as [p B].
    destruct (@layer_P_lapse 5 _ _ (t0 - 17.5) p (71 * 1000) L5 ltac:(lra) H5)
      as [p' Ep]; try lra.
    exists p'. apply Hstep; [exact E6|]. rewrite B. cbn [fst snd Nat.add].
    now rewrite H6. }
  intros Hi.
  destruct i as [|[|[|[|[|[|[|i]]]]]]]; try lia;
    [destruct B0 as [p B] | destruct B1 as [p B] | destruct B2 as [p B]
     | destruct B3 as [p B] | destruct B4 as [p B] | destruct B5 as [p B]
     | destruct B6 as [p B]];
    eexists; exists p; (split; [exact B | lra]).
Qed.

(** With a sea-level temperature above 73.5 K the values on the two sides of
    a layer boundary are the same real numbers. *)
Lemma continuity_finite (t0 p0 : real) (i : nat) :
  73.5 < t0 -> (i < 6)%nat ->
  let below := base (Fin t0) (Fin p0) i in
  let above := base (Fin t0) (Fin p0) (S i) in
  exists t p,
    layer_T i (fst below) (at_ Hb (S i)) = Fin t /\
    layer_T (S i) (fst above) (at_ Hb (S i)) = Fin t /\
    layer_P i (fst below) (snd below) (at_ Hb (S i)) = Fin p /\
    layer_P (S i) (fst above) (snd above) (at_ Hb (S i)) = Fin p.
Proof.
  intros Ht0 Hi below above.
  destruct (@base_finite t0 p0 (S i) Ht0) as (t & p & B & Ht); [lia|].
  fold above in B.
  destruct (@continuity t0 (Fin p0) i Hi) as [ET EP].
  { fold above. rewrite B. cbn [fst]. intros E. apply Fin_inj in E. lra. }
  fold below above in ET, EP.
  assert (Eab : above = (layer_T i (fst below) (at_ Hb (S i)),
                         layer_P i (fst below) (snd below) (at_ Hb (S i)))).
  { unfold above, below. rewrite base_succ. now rewrite Nat.add_1_r. }
  rewrite B in Eab. injection Eab as E1 E2.
  exists t, p. rewrite ET, EP, <- E1, <- E2. repeat split; reflexivity.
Qed.

(** With a sea-level temperature of 71.5 K the first isothermal layer has
    the base temperature 0: at 11 km the pressure from above is [nan] and
    the pressure from below is 0. *)
Lemma zero_base_temperature :
  let below := base (Fin 71.5) (Fin 101325.0) 0 in
  let above := base (Fin 71.5) (Fin 101325.0) 1 in
  layer_P 0 (fst below) (snd below) (at_ Hb 1) = Fin 0 /\
  layer_P 1 (fst above) (snd above) (at_ Hb 1) = NaN.
Proof.
  destruct Hb_values as (H0 & H1 & H2 & H3 & H4 & H5 & H6 & H7).
  destruct Lr_values as (L0 & L1 & L2 & L3 & L4 & L5 & L6).
  cbv zeta.
  assert (ET : layer_T 0 (Fin 71.5) (at_ Hb 1) = Fin 0).
  { rewrite H1, (@layer_T_lapse 0 _ _ 71.5 (11 * 1000) L0 ltac:(lra) H0).
    f_equal; lra. }
  assert (EP : layer_P 0 (Fin 71.5) (Fin 101325.0) (at_ Hb 1) = Fin 0).
  { unfold layer_P. rewrite ET, L0. cbn [eqb]. rewrite Req_b_false by lra.
    unfold R, g. farith.
    rewrite pow_zero_base; [farith; f_equal; lra | lra |].
    apply Rdiv_neg_neg; lra. }
  split.
  - exact EP.
  - rewrite base_succ. cbn [base fst snd Nat.add]. rewrite ET, EP.
    unfold layer_P. rewrite L1, H1. cbn [eqb]. rewrite Req_b_true by lra.
    unfold R, g. rewrite mul_fin, opp_fin, sub_fin.
    rewrite div_zero_neg by lra. cbn [mul]. unfold signed_inf. rdecide.
    reflexivity.
Qed.

(** C6 (amended): the body of the loop for a layer gives the selected samples
    that layer's temperature and pressure and leaves as running base pair
    (Tb, Pb) those formulas evaluated at the next base altitude; and at every
    layer boundary, for every sea-level temperature above 73.5 K and every
    finite sea-level pressure (the defaults are such), the temperature and
    the pressure computed with the layer below and with the layer above are
    the same real numbers. *)
Theorem C6_layer_continuity :
  (forall (i : nat) (r : f64 -> bool) (h : ndarray) (st : state),
     List.length (sT st) = List.length h ->
     List.length (sP st) = List.length h ->
     exists st',
       layer i (map r h) h st = Ok st' /\
       Tb st' = layer_T i (Tb st) (at_ Hb (i + 1)) /\
       Pb st' = layer_P i (Tb st) (Pb st) (at_ Hb (i + 1)) /\
       forall j, (j < List.length h)%nat -> r (nth j h NaN) = true ->
         nth j (sT st') NaN = layer_T i (Tb st) (nth j h NaN) /\
         nth j (sP st') NaN = layer_P i (Tb st) (Pb st) (nth j h NaN)) /\
  (forall (t0 p0 : real) (i : nat),
     (73.5 < t0)%R -> (i < 6)%nat ->
     let below := base (Fin t0) (Fin p0) i in
     let above := base (Fin t0) (Fin p0) (S i) in
     exists t p : real,
       layer_T i (fst below) (at_ Hb (S i)) = Fin t /\
       layer_T (S i) (fst above) (at_ Hb (S i)) = Fin t /\
       layer_P i (fst below) (snd below) (at_ Hb (S i)) = Fin p /\
       layer_P (S i) (fst above) (snd above) (at_ Hb (S i)) = Fin p).
Proof.
  split.
  - intros i r h st HT HP.
    destruct (@layer_spec i r h st HT HP)
      as (st' & E & _ & _ & ETb & EPb & Hel).
    exists st'. do 3 (split; [assumption|]).
    intros j Hj Hr. destruct (Hel j Hj) as [ET EP].
    rewrite Hr in ET, EP. split; assumption.
  - intros t0 p0 i Ht0 Hi. now apply continuity_finite.
Qed.

Lemma C6_layer_continuity_witness :
  let below := base (Fin 288.15) (Fin 101325.0) 0 in
  let above := base (Fin 288.15) (Fin 101325.0) 1 in
  exists t p : real,
    layer_T 0 (fst below) (at_ Hb 1) = Fin t /\
    layer_T 1 (fst above) (at_ Hb 1) = Fin t /\
    layer_P 0 (fst below) (snd below) (at_ Hb 1) = Fin p /\
    layer_P 1 (fst above) (snd above) (at_ Hb 1) = Fin p.
Proof.
  apply (proj2 C6_layer_continuity 288.15 101325.0 0%nat).
  - lra.
  - lia.
Defined.

(** C6 as stated fails for an overridden sea-level temperature of 71.5 K: at
    the 11 km boundary the pressure from above is [nan] and agrees with the
    pressure from below within no tolerance. *)
Lemma C6_zero_base_temperature :
  let below := base (Fin 71.5) (Fin 101325.0) 0 in
  let above := base (Fin 71.5) (Fin 101325.0) 1 in
  ~ (exists tol,
       agree tol (layer_P 1 (fst above) (snd above) (at_ Hb 1))
                 (layer_P 0 (fst below) (snd below) (at_ Hb 1))).
Proof.
  intros below above (tol & a & b & Ea & _).
  destruct zero_base_temperature as [_ E].
  fold above in E. rewrite E in Ea. discriminate Ea.
Qed.

End AtmosClaims.

(* ================================================================= *)
(** * flownormalshock: the properties of the specification *)

Module ShockClaims.

Import Shock ShockSpec ShockFacts.

Local Open Scope R_scope.

(** C9: at gamma = 2 the lower bound of mode [down] is 0.5; the call on the
    array [0.5, 0.8], whose first element lands on the bound, does not return
    an infinite upstream Mach number for that element: the second masked
    assignment hands numpy two values for the one place its mask selects, and
    the call ends in numpy's ValueError.  (A call on scalars on either bound
    does return [M1 = +inf] with [nan] and [inf] downstream, lemma
    [ShockFacts.on_bound_scalar].) *)
Theorem C9_array_on_bound_raises (junk : nat -> f64) :
  lowerbound (Fin 2) = Fin 0.5 /\
  flownormalshock junk [Fin 2] [Fin 0.5; Fin 0.8] "down"
  = Raise (ValueError msg_put).
Proof. split; [exact lowerbound_2 | apply on_bound_array]. Qed.

End ShockClaims.

(* ================================================================= *)
(** * Invalid input *)

Module ErrorClaims.

Import ErrorSpec.

Lemma any_nth (l : list bool) (j : nat) :
  nth j l false = true -> any l = true.
Proof.
  unfold any. revert j; induction l as [|b l IH]; intros j H.
  - destruct j; discriminate.
  - destruct j as [|j]; cbn in *.
    + now rewrite H.
    + rewrite (IH j H). apply orb_true_r.
Qed.

Lemma any_map_nth (p : f64 -> bool) (l : ndarray) (j : nat) :
  (j < List.length l)%nat -> p (nth j l NaN) = true -> any (map p l) = true.
Proof.
  intros Hj H. apply any_map_true. apply Exists_exists.
  exists (nth j l NaN). split; [now apply nth_In | assumption].
Qed.

Lemma any_map2_nth (p : f64 -> f64 -> bool) (xs ys : ndarray) (j : nat) :
  List.length xs = List.length ys -> (j < List.length ys)%nat ->
  p (nth j xs NaN) (nth j ys NaN) = true -> any (map2 p xs ys) = true.
Proof.
  intros HL Hj H. apply (@any_nth _ j).
  now rewrite (@nth_map2 _ _ _ p xs ys j NaN NaN false).
Qed.

Lemma isentropic_rejects (m : IsentropicSpec.mode) (flow : ndarray) (j : nat) :
  (j < List.length flow)%nat ->
  isentropic_outside m (nth j flow NaN) = true ->
  IsentropicSpec.rejects m flow = true.
Proof.
  intros Hj H.
  destruct m; cbn [IsentropicSpec.rejects isentropic_outside] in *;
    try (apply orb_true_iff in H; apply orb_true_iff; destruct H as [H|H];
         [left | right]);
    now apply (@any_map_nth _ flow j).
Qed.

Lemma shock_rejects (m : ShockSpec.mode) (gamma flow : ndarray) (j : nat) :
  List.length gamma = List.length flow -> (j < List.length flow)%nat ->
  shock_outside m (nth j gamma NaN) (nth j flow NaN) = true ->
  ShockSpec.rejects m gamma flow = true.
Proof.
  intros HL Hj H.
  assert (Hb : forall bound, nth j (map bound gamma) NaN = bound (nth j gamma NaN)).
  { intros bound. rewrite (nth_indep _ NaN (bound NaN)) by (rewrite length_map; lia).
    apply map_nth. }
  destruct m; cbn [ShockSpec.rejects shock_outside] in *.
  - now apply (@any_map_nth _ flow j).
  - apply orb_true_iff in H; apply orb_true_iff; destruct H as [H|H]; [left | right].
    + apply (@any_map2_nth ltb flow _ j); rewrite ?length_map; try lia.
      now rewrite Hb.
    + now apply (@any_map_nth _ flow j).
  - now apply (@any_map_nth _ flow j).
  - apply orb_true_iff in H; apply orb_true_iff; destruct H as [H|H]; [left | right].
    + now apply (@any_map_nth _ flow j).
    + apply (@any_map2_nth gtb flow _ j); rewrite ?length_map; try lia.
      now rewrite Hb.
Qed.

(** What [solve_mach] raises, whatever the shapes *)
Lemma isentropic_solve_raises (M0 gamma flow : ndarray) (mtype : string) :
  match IsentropicSpec.mode_of mtype with
  | None =>
      Isentropic.solve_mach M0 gamma flow mtype
      = Raise (Exception Isentropic.msg_mode)
  | Some m =>
      IsentropicSpec.rejects m flow = true ->
      Isentropic.solve_mach M0 gamma flow mtype
      = Raise (Exception (IsentropicSpec.msg_of m))
  end.
Proof.
  unfold Isentropic.solve_mach, IsentropicSpec.mode_of.
  destruct (in_list mtype ["mach"; "m"]%string).
  { cbn [IsentropicSpec.rejects IsentropicSpec.msg_of]. now intros ->. }
  destruct (in_list mtype ["temp"; "t"]%string).
  { cbn [IsentropicSpec.rejects IsentropicSpec.msg_of]. now intros ->. }
  destruct (in_list mtype ["pres"; "p"]%string).
  { cbn [IsentropicSpec.rejects IsentropicSpec.msg_of]. now intros ->. }
  destruct (in_list mtype ["dens"; "d"; "rho"]%string).
  { cbn [IsentropicSpec.rejects IsentropicSpec.msg_of]. now intros ->. }
  destruct (in_list mtype ["sub"; "sup"]%string); [|reflexivity].
  destruct (String.eqb mtype "sub");
    cbn [IsentropicSpec.rejects IsentropicSpec.msg_of]; now intros ->.
Qed.

Lemma shock_solve_raises (M0 gamma flow : ndarray) (mtype : string) :
  match ShockSpec.mode_of mtype with
  | None =>
      Shock.solve_mach M0 gamma flow mtype = Raise (Exception Shock.msg_mode)
  | Some m =>
      ShockSpec.rejects m gamma flow = true ->
      Shock.solve_mach M0 gamma flow mtype
      = Raise (Exception (ShockSpec.msg_of m))
  end.
Proof.
  unfold Shock.solve_mach, ShockSpec.mode_of.
  destruct (in_list mtype ["mach"; "m1"; "m"]%string).
  { cbn [ShockSpec.rejects ShockSpec.msg_of]. now intros ->. }
  destruct (in_list mtype ["down"; "mach2"; "m2"; "md"]%string).
  { cbn [ShockSpec.rejects ShockSpec.msg_of]. now intros ->. }
  destruct (in_list mtype ["pres"; "p"]%string).
  { cbn [ShockSpec.rejects ShockSpec.msg_of]. now intros ->. }
  destruct (in_list mtype ["dens"; "d"; "rho"]%string); [|reflexivity].
  cbn [ShockSpec.rejects ShockSpec.msg_of]. now intros ->.
Qed.

Lemma kinds_of_messages :
  kind_of_message Isentropic.msg_shape = Some ShapeMismatchError /\
  kind_of_message Isentropic.msg_mode = Some InvalidModeError /\
  Forall (fun msg => kind_of_message msg = Some DomainError) domain_messages.
Proof. repeat split. repeat constructor. Qed.

Lemma domain_message_kind (msg : string) :
  In msg domain_messages -> kind_of_message msg = Some DomainError.
Proof.
  destruct kinds_of_messages as (_ & _ & H). rewrite Forall_forall in H. apply H.
Qed.

Lemma isentropic_msg_of_domain (m : IsentropicSpec.mode) :
  kind_of_message (IsentropicSpec.msg_of m) = Some DomainError.
Proof. apply domain_message_kind. destruct m; cbn; tauto. Qed.

Lemma shock_msg_of_domain (m : ShockSpec.mode) :
  kind_of_message (ShockSpec.msg_of m) = Some DomainError.
Proof. apply domain_message_kind. destruct m; cbn; tauto. Qed.

Lemma gamma_rejected (gamma : ndarray) (j : nat) :
  (j < List.length gamma)%nat -> (nth j gamma NaN <=? Fin 1) = true ->
  any (map (fun g0 => g0 <=? Fin 1) gamma) = true.
Proof. intros Hj H. now apply (@any_map_nth _ gamma j). Qed.

Lemma shape_rejected (gamma flow : ndarray) :
  (1 < size gamma)%nat -> (1 < size flow)%nat -> size gamma <> size flow ->
  (1 <? size gamma)%nat && (1 <? size flow)%nat
    && negb (size gamma =? size flow)%nat = true.
Proof.
  intros H1 H2 H3.
  rewrite (proj2 (Nat.ltb_lt _ _) H1), (proj2 (Nat.ltb_lt _ _) H2).
  now rewrite (proj2 (Nat.eqb_neq _ _) H3).
Qed.

Import IsentropicSpec IsentropicFacts.

(** C8 (amended): a call to [flowisentropic] or [flownormalshock] with an
    element of gamma that is 1 or less, else with two non-scalar inputs of
    different shapes, else with an unrecognised mode string, else with an
    element of flow below or above the bounds of its mode, and a call to
    [atmosisa] with an unrecognised altitude convention, raises an exception
    of the corresponding kind (a domain error, a shape mismatch error, an
    invalid mode error, a domain error, an invalid mode error; in the source
    one exception class whose message tells them apart) and returns no
    value. *)
Theorem C8_invalid_input_raises :
  (forall gamma flow mtype j,
     (j < List.length gamma)%nat -> (nth j gamma NaN <=? Fin 1) = true ->
     raises (Isentropic.flowisentropic gamma flow mtype) DomainError) /\
  (forall gamma flow mtype,
     gamma_valid gamma ->
     (1 < size gamma)%nat -> (1 < size flow)%nat -> size gamma <> size flow ->
     raises (Isentropic.flowisentropic gamma flow mtype) ShapeMismatchError) /\
  (forall gamma flow mtype,
     gamma_valid gamma -> shapes_ok gamma flow ->
     IsentropicSpec.mode_of mtype = None ->
     raises (Isentropic.flowisentropic gamma flow mtype) InvalidModeError) /\
  (forall gamma flow mtype m j,
     gamma_valid gamma -> shapes_ok gamma flow ->
     IsentropicSpec.mode_of mtype = Some m ->
     (j < bshape gamma flow)%nat ->
     isentropic_outside m (nth j (bcast (bshape gamma flow) flow) NaN) = true ->
     raises (Isentropic.flowisentropic gamma flow mtype) DomainError) /\
  (forall junk gamma flow mtype j,
     (j < List.length gamma)%nat -> (nth j gamma NaN <=? Fin 1) = true ->
     raises (Shock.flownormalshock junk gamma flow mtype) DomainError) /\
  (forall junk gamma flow mtype,
     gamma_valid gamma ->
     (1 < size gamma)%nat -> (1 < size flow)%nat -> size gamma <> size flow ->
     raises (Shock.flownormalshock junk gamma flow mtype) ShapeMismatchError) /\
  (forall junk gamma flow mtype,
     gamma_valid gamma -> shapes_ok gamma flow ->
     ShockSpec.mode_of mtype = None ->
     raises (Shock.flownormalshock junk gamma flow mtype) InvalidModeError) /\
  (forall junk gamma flow mtype m j,
     gamma_valid gamma -> shapes_ok gamma flow ->
     ShockSpec.mode_of mtype = Some m ->
     (j < bshape gamma flow)%nat ->
     shock_outside m (nth j (bcast (bshape gamma flow) gamma) NaN)
       (nth j (bcast (bshape gamma flow) flow) NaN) = true ->
     raises (Shock.flownormalshock junk gamma flow mtype) DomainError) /\
  (forall h mtype T0 P0,
     mtype <> "geop"%string -> mtype <> "geom"%string ->
     raises (Atmos.atmosisa h mtype T0 P0) InvalidModeError).
Proof.
  destruct kinds_of_messages as (Kshape & Kmode & _).
  assert (Kgamma : kind_of_message Isentropic.msg_gamma = Some DomainError).
  { apply domain_message_kind. cbn; tauto. }
  repeat apply conj.
  - intros gamma flow mtype j Hj H. exists Isentropic.msg_gamma. split; [|exact Kgamma].
    unfold Isentropic.flowisentropic, Isentropic.flowisentropic_from.
    now rewrite (@gamma_rejected gamma j Hj H).
  - intros gamma flow mtype Hg H1 H2 H3. exists Isentropic.msg_shape.
    split; [|exact Kshape].
    unfold Isentropic.flowisentropic, Isentropic.flowisentropic_from.
    now rewrite (@gamma_valid_accepts gamma Hg), (@shape_rejected gamma flow H1 H2 H3).
  - intros gamma flow mtype Hg Hs Hm. exists Isentropic.msg_mode.
    split; [|exact Kmode].
    unfold Isentropic.flowisentropic, Isentropic.flowisentropic_from.
    rewrite (@gamma_valid_accepts gamma Hg), (@shapes_ok_accepts gamma flow Hs).
    cbv zeta.
    match goal with
    | |- context [Isentropic.solve_mach ?M0 ?g0 ?f0 mtype] =>
        pose proof (isentropic_solve_raises M0 g0 f0 mtype) as E
    end.
    rewrite Hm in E. now rewrite E.
  - intros gamma flow mtype m j Hg Hs Hm Hj Hout. exists (IsentropicSpec.msg_of m).
    split; [|apply isentropic_msg_of_domain].
    unfold Isentropic.flowisentropic, Isentropic.flowisentropic_from.
    rewrite (@gamma_valid_accepts gamma Hg), (@shapes_ok_accepts gamma flow Hs).
    cbv zeta.
    match goal with
    | |- context [Isentropic.solve_mach ?M0 ?g0 ?f0 mtype] =>
        pose proof (isentropic_solve_raises M0 g0 f0 mtype) as E
    end.
    rewrite Hm in E. rewrite E; [reflexivity|].
    pose proof (@shapes_ok_accepts gamma flow Hs) as Hs'.
    destruct Hs as (Hg0 & Hf0 & _).
    destruct (@broadcast_shapes gamma flow Hg0 Hf0 Hs') as [Lg Lf].
    apply (@isentropic_rejects m _ j); [|exact Hout].
    unfold bshape in Hj. now rewrite Lf.
  - intros junk gamma flow mtype j Hj H. exists Shock.msg_gamma. split; [|exact Kgamma].
    unfold Shock.flownormalshock.
    now rewrite (@gamma_rejected gamma j Hj H).
  - intros junk gamma flow mtype Hg H1 H2 H3. exists Shock.msg_shape.
    split; [|exact Kshape].
    unfold Shock.flownormalshock.
    now rewrite (@gamma_valid_accepts gamma Hg), (@shape_rejected gamma flow H1 H2 H3).
  - intros junk gamma flow mtype Hg Hs Hm. exists Shock.msg_mode.
    split; [|exact Kmode].
    unfold Shock.flownormalshock.
    rewrite (@gamma_valid_accepts gamma Hg), (@shapes_ok_accepts gamma flow Hs).
    cbv zeta.
    match goal with
    | |- context [Shock.solve_mach ?M0 ?g0 ?f0 mtype] =>
        pose proof (shock_solve_raises M0 g0 f0 mtype) as E
    end.
    rewrite Hm in E. now rewrite E.
  - intros junk gamma flow mtype m j Hg Hs Hm Hj Hout. exists (ShockSpec.msg_of m).
    split; [|apply shock_msg_of_domain].
    unfold Shock.flownormalshock.
    rewrite (@gamma_valid_accepts gamma Hg), (@shapes_ok_accepts gamma flow Hs).
    cbv zeta.
    match goal with
    | |- context [Shock.solve_mach ?M0 ?g0 ?f0 mtype] =>
        pose proof (shock_solve_raises M0 g0 f0 mtype) as E
    end.
    rewrite Hm in E. rewrite E; [reflexivity|].
    pose proof (@shapes_ok_accepts gamma flow Hs) as Hs'.
    destruct Hs as (Hg0 & Hf0 & _).
    destruct (@broadcast_shapes gamma flow Hg0 Hf0 Hs') as [Lg Lf].
    apply (@shock_rejects m _ _ j); [congruence | | exact Hout].
    unfold bshape in Hj. now rewrite Lf.
  - intros h mtype T0 P0 H1 H2. exists Atmos.msg_mode. split; [|exact Kmode].
    unfold Atmos.atmosisa.
    rewrite (proj2 (String.eqb_neq _ _) H1), (proj2 (String.eqb_neq _ _) H2).
    reflexivity.
Qed.

Lemma C8_invalid_input_raises_witness :
  raises (Isentropic.flowisentropic [Fin 0.75] [Fin 3] "mach") DomainError.
Proof.
  apply (proj1 C8_invalid_input_raises [Fin 0.75] [Fin 3] "mach"%string 0%nat).
  - cbn. lia.
  - cbn [nth]. fsimpl. reflexivity.
Defined.

(** C8 as stated fails for a flow that is not a number: [nan] is not within
    [0 <= T <= 1], and the call in mode [temp] returns a value. *)
Lemma C8_nan_not_rejected :
  (Fin 0 <=? NaN) && (NaN <=? Fin 1) = false /\
  exists r, Isentropic.flowisentropic [Fin 1.4] [NaN] "temp" = Ok r.
Proof.
  split; [reflexivity|].
  eexists. apply (@IsentropicFacts.scalar_call (Fin 1.4) NaN "temp" Temp).
  - fsimpl. reflexivity.
  - reflexivity.
  - reflexivity.
Qed.

End ErrorClaims.

(* ================================================================= *)
(** * Round trips *)

Module RoundTripClaims.

Import RoundTripSpec.

Local Open Scope R_scope.





(** ** The area modes: gamma = 3, area ratio 50.005 *)

(** A Newton-Raphson step for the area ratio 50.005 at gamma = 3, taken
    from outside [-1, 1], lands at 100 or above: 100 is the supersonic
    solution, and the step from [m] ends [0.01 (m - 100)^2 / (m^2 - 1)]
    above it. *)
Lemma step_gamma3_root (m : R) :
  m < -1 \/ 1 < m ->
  exists m',
    Isentropic.newton_step (Fin 3) (Fin 50.005) (Fin m) = Fin m' /\ 100 <= m'.
Proof.
  intros Hm.
  assert (Hm2 : 0 < m * m - 1) by (destruct Hm; nra).
  exists (2 * m * (50.005 * m - 1) / (m * m - 1)). split.
  - apply IsentropicClaims.step_gamma3; destruct Hm; nra.
  - apply Rdiv_ge_bound; [assumption|].
    pose proof (Rle_0_sqr (m - 100)) as H. unfold Rsqr in H.
    nra.
Qed.

Lemma iterates_gamma3_root (n : nat) (m : R) :
  100 <= m ->
  exists m',
    Nat.iter n (Isentropic.newton_step (Fin 3) (Fin 50.005)) (Fin m) = Fin m'
    /\ 100 <= m'.
Proof.
  revert m. induction n as [|n IH]; intros m Hm.
  - exists m. split; [reflexivity | assumption].
  - rewrite Nat.iter_succ_r.
    destruct (@step_gamma3_root m ltac:(right; lra)) as (m1 & E1 & H1).
    rewrite E1. now apply IH.
Qed.

(** From 0.2 the first step lands below -1 and the second at 100 or above,
    where the iteration stays. *)
Lemma sub_mode_reaches_supersonic_root :
  exists m',
    Nat.iter 10 (Isentropic.newton_step (Fin 3) (Fin 50.005)) (Fin 0.2) = Fin m'
    /\ 100 <= m'.
Proof.
  rewrite Nat.iter_succ_r. rewrite IsentropicClaims.step_gamma3 by lra.
  rewrite Nat.iter_succ_r.
  assert (H1 : 2 * 0.2 * (50.005 * 0.2 - 1) / (0.2 * 0.2 - 1) < -1).
  { match goal with
    | |- ?a / ?b < _ => replace (a / b) with ((- a) / (- b)) by (field; lra)
    end.
    apply Rdiv_lt_bound; lra. }
  destruct (@step_gamma3_root _ (or_introl H1)) as (m2 & E2 & H2).
  rewrite E2. now apply iterates_gamma3_root.
Qed.

(** C1 (defect in mode [sub]): the round trip fails for the area mode
    [sub], which does not return the subsonic solution: at gamma = 3 the
    forward call on the Mach number 0.01 returns the area ratio 50.005, and
    the call on the area ratio 50.005 in mode [sub] returns a Mach number
    of 100 or more, the supersonic solution of the Mach-area relation. *)
Theorem C1_sub_returns_supersonic_root :
  (exists r,
     Isentropic.flowisentropic [Fin 3] [Fin 0.01] "mach" = Ok (Scalars r) /\
     Isentropic.out_M r = Fin 0.01 /\ Isentropic.out_area r = Fin 50.005) /\
  (exists r' m',
     Isentropic.flowisentropic [Fin 3] [Fin 50.005] "sub" = Ok (Scalars r') /\
     Isentropic.out_M r' = Fin m' /\ 100 <= m').
Proof.
  split.
  - eexists. split.
    + apply (@IsentropicFacts.scalar_call (Fin 3) (Fin 0.01) "mach"
               IsentropicSpec.Mach).
      * fsimpl. reflexivity.
      * reflexivity.
      * cbn [IsentropicSpec.rejects map any existsb]. fsimpl. reflexivity.
    + cbv zeta. cbn [Isentropic.out_M Isentropic.out_area IsentropicSpec.mach_elem].
      split; [reflexivity|]. apply IsentropicClaims.forward_area_gamma3.
  - destruct sub_mode_reaches_supersonic_root as (m' & Em & Hm').
    eexists. exists m'. split.
    + apply (@IsentropicFacts.scalar_call (Fin 3) (Fin 50.005) "sub"
               IsentropicSpec.Sub).
      * fsimpl. reflexivity.
      * reflexivity.
      * cbn [IsentropicSpec.rejects map any existsb]. fsimpl. reflexivity.
    + cbv zeta. cbn [Isentropic.out_M IsentropicSpec.mach_elem].
      fsimpl. split; [exact Em | exact Hm'].
Qed.

End RoundTripClaims.

(* ================================================================= *)
(** * flowisentropic: further properties *)

Module IsentropicProperties.

Import Isentropic IsentropicSpec IsentropicFacts IsentropicClaims.

Local Open Scope R_scope.

(** A flow array that passes the validation of its mode passes it element
    by element. *)
Lemma rejects_nth (m : mode) (flow : ndarray) (j : nat) :
  rejects m flow = false -> (j < List.length flow)%nat ->
  rejects m [nth j flow NaN] = false.
Proof.
  intros H Hj.
  assert (P : forall p : f64 -> bool,
            any (map p flow) = false -> any (map p [nth j flow NaN]) = false).
  { intros p Hp. apply any_map_false in Hp. apply any_map_false.
    constructor; [|constructor].
    rewrite Forall_forall in Hp. apply Hp. now apply nth_In. }
  destruct m; cbn [rejects] in *;
    try (apply orb_false_iff in H; destruct H as [H1 H2];
         apply orb_false_iff; split); now apply P.
Qed.

Lemma gamma_accepted_nth (gamma : ndarray) (j : nat) :
  any (map (fun g0 => (g0 <=? Fin 1)%f64) gamma) = false ->
  (j < List.length gamma)%nat ->
  ((nth j gamma NaN) <=? Fin 1)%f64 = false.
Proof.
  intros H Hj. apply any_map_false in H. rewrite Forall_forall in H.
  apply H. now apply nth_In.
Qed.

Lemma any_bcast (p : f64 -> bool) (n : nat) (x : ndarray) :
  any (map p x) = false -> any (map p (bcast n x)) = false.
Proof.
  intros H. apply any_map_false in H. apply any_map_false.
  now apply Forall_bcast.
Qed.

(** What an array call returns, element by element *)
Lemma array_call (gamma flow : ndarray) (mtype : string) (r : flow5 ndarray) :
  gamma <> [] -> flow <> [] ->
  flowisentropic gamma flow mtype = Ok (Arrays r) ->
  let n := bshape gamma flow in
  let gamma' := bcast n gamma in
  let flow' := bcast n flow in
  exists m,
    mode_of mtype = Some m /\
    List.length gamma' = n /\ List.length flow' = n /\
    any (map (fun g0 => (g0 <=? Fin 1)%f64) gamma') = false /\
    rejects m flow' = false /\
    r = let M := map2 (mach_elem m) gamma' flow' in
        Flow5 M (map2 rel_T gamma' M) (map2 rel_P gamma' M)
          (map2 rel_rho gamma' M) (map2 area_elem gamma' M).
Proof.
  intros Hg Hf E n gamma' flow'.
  unfold flowisentropic in E. rewrite flowisentropic_elementwise in E by assumption.
  unfold elementwise in E.
  destruct (any (map (fun g0 => (g0 <=? Fin 1)%f64) gamma)) eqn:Eg; [discriminate|].
  destruct ((1 <? size gamma)%nat && (1 <? size flow)%nat
            && negb (size gamma =? size flow)%nat) eqn:Es; [discriminate|].
  destruct (@broadcast_shapes gamma flow Hg Hf Es) as [Lg Lf].
  fold (bshape gamma flow) in E, Lg, Lf. fold n in E, Lg, Lf.
  fold gamma' in E, Lg. fold flow' in E, Lf.
  destruct (mode_of mtype) as [m|]; [|discriminate].
  destruct (rejects m flow') eqn:Er; [discriminate|].
  destruct (n =? 1)%nat; [discriminate|].
  apply Ok_inj, Arrays_inj in E.
  exists m. do 3 (split; [reflexivity || assumption|]).
  split; [now apply any_bcast|]. split; [exact Er|]. now symmetry.
Qed.

(** X1: the result of [flowisentropic] never depends on the contents that
    [sp.empty] left in the preshaped Mach array: in every mode each element
    is overwritten (or the array is replaced) before it is read. *)
Theorem X1_no_uninitialised_output (junk1 junk2 : nat -> f64)
    (gamma flow : ndarray) (mtype : string) :
  gamma <> [] -> flow <> [] ->
  flowisentropic_from junk1 gamma flow mtype
  = flowisentropic_from junk2 gamma flow mtype.
Proof.
  intros Hg Hf.
  rewrite (@flowisentropic_elementwise junk1 gamma flow mtype Hg Hf).
  rewrite (@flowisentropic_elementwise junk2 gamma flow mtype Hg Hf).
  reflexivity.
Qed.

Lemma X1_no_uninitialised_output_witness :
  flowisentropic_from (fun _ => Fin 0) [Fin 1.4] [Fin 0.5; Fin 0] "temp"
  = flowisentropic_from (fun _ => PInf) [Fin 1.4] [Fin 0.5; Fin 0] "temp".
Proof. apply X1_no_uninitialised_output; discriminate. Defined.

(** X2: an array call that returns agrees, element by element, with the
    scalar calls: element [j] of the five arrays it returns is what the
    call on the [j]-th specific heat ratio and the [j]-th flow value
    returns (after a scalar input was repeated to the common shape). *)
Theorem X2_array_call_elementwise (gamma flow : ndarray) (mtype : string)
    (r : flow5 ndarray) (j : nat) :
  gamma <> [] -> flow <> [] ->
  flowisentropic gamma flow mtype = Ok (Arrays r) ->
  let n := bshape gamma flow in
  (j < n)%nat ->
  List.length (out_M r) = n /\
  flowisentropic [nth j (bcast n gamma) NaN] [nth j (bcast n flow) NaN] mtype
  = Ok (Scalars (Flow5 (nth j (out_M r) NaN) (nth j (out_T r) NaN)
                   (nth j (out_P r) NaN) (nth j (out_rho r) NaN)
                   (nth j (out_area r) NaN))).
Proof.
  intros Hg Hf E n Hj.
  destruct (@array_call gamma flow mtype r Hg Hf E)
    as (m & Em & Lg & Lf & Vg & Vf & Er).
  fold n in Lg, Lf, Vg, Vf, Er.
  set (gamma' := bcast n gamma) in *. set (flow' := bcast n flow) in *.
  assert (LM : List.length (map2 (mach_elem m) gamma' flow') = n).
  { rewrite length_map2; congruence. }
  subst r. cbv zeta. cbn [out_M out_T out_P out_rho out_area].
  split; [exact LM|].
  rewrite (@scalar_call (nth j gamma' NaN) (nth j flow' NaN) mtype m).
  - cbv zeta.
    rewrite !(@nth_map2 _ _ _ _ gamma' _ j NaN NaN NaN) by congruence.
    reflexivity.
  - apply gamma_accepted_nth; [assumption | lia].
  - assumption.
  - apply rejects_nth; [assumption | lia].
Qed.

Lemma X2_array_call_elementwise_witness :
  exists r,
    flowisentropic [Fin 3] [Fin 2; Fin 3] "mach" = Ok (Arrays r) /\
    List.length (out_M r) = 2%nat /\
    flowisentropic [nth 1 (bcast 2 [Fin 3]) NaN] [nth 1 (bcast 2 [Fin 2; Fin 3]) NaN]
      "mach"
    = Ok (Scalars (Flow5 (nth 1 (out_M r) NaN) (nth 1 (out_T r) NaN)
                     (nth 1 (out_P r) NaN) (nth 1 (out_rho r) NaN)
                     (nth 1 (out_area r) NaN))).
Proof.
  assert (Hg : gamma_valid [Fin 3]).
  { constructor; [fsimpl; reflexivity | constructor]. }
  assert (Hs : shapes_ok [Fin 3] [Fin 2; Fin 3]).
  { repeat split; try discriminate. left. reflexivity. }
  assert (Hr : rejects Mach (bcast (bshape [Fin 3] [Fin 2; Fin 3]) [Fin 2; Fin 3])
               = false).
  { cbn [bshape size List.length Nat.ltb Nat.leb bcast Nat.eqb rejects map any
         existsb]. fsimpl. reflexivity. }
  destruct (@flowisentropic_returns [Fin 3] [Fin 2; Fin 3] "mach" Mach Hg Hs
              eq_refl Hr) as (_ & _ & _ & E).
  cbn [bshape size List.length Nat.ltb Nat.leb Nat.eqb] in E.
  eexists. split; [exact E|].
  apply (@X2_array_call_elementwise [Fin 3] [Fin 2; Fin 3] "mach" _ 1%nat);
    [discriminate | discriminate | exact E |].
  cbn [bshape size List.length Nat.ltb Nat.leb]. lia.
Defined.

(** X3: a scalar input is repeated to the shape of the other input: a call
    with one specific heat ratio and an array of flow values returns what
    the call with that ratio repeated once for each flow value returns, and
    likewise for one flow value and an array of specific heat ratios. *)
Theorem X3_scalar_broadcast (g0 f0 : f64) (gamma flow : ndarray) (mtype : string) :
  (flow <> [] ->
   flowisentropic [g0] flow mtype
   = flowisentropic (repeat g0 (size flow)) flow mtype) /\
  (gamma <> [] ->
   flowisentropic gamma [f0] mtype
   = flowisentropic gamma (repeat f0 (size gamma)) mtype).
Proof.
  assert (Hany : forall (p : f64 -> bool) (v : f64) (k : nat),
            any (map p (repeat v (S k))) = any (map p [v])).
  { intros p v k. induction k as [|k IH]; [reflexivity|].
    change (any (map p (repeat v (S (S k)))))
      with (p v || any (map p (repeat v (S k)))).
    rewrite IH. cbn [map any existsb]. destruct (p v); reflexivity. }
  assert (Hsz : forall (v : f64) (k : nat), size (repeat v k) = k).
  { intros v k. unfold size. apply repeat_length. }
  split.
  - intros Hf.
    destruct flow as [|f1 [|f2 flow]]; [congruence | reflexivity |].
    set (fl := f1 :: f2 :: flow) in *.
    assert (Hn : size fl = S (S (List.length flow))) by reflexivity.
    rewrite Hn. set (k := List.length flow) in *.
    unfold flowisentropic.
    rewrite (@flowisentropic_elementwise _ [g0] fl mtype) by (discriminate || exact Hf).
    rewrite (@flowisentropic_elementwise _ (repeat g0 (S (S k))) fl mtype)
      by (discriminate || exact Hf).
    unfold elementwise.
    rewrite Hsz, Hn, Hany.
    rewrite (Nat.eqb_refl (S (S k))), (Nat.ltb_irrefl (S (S k))). cbn [negb].
    rewrite andb_false_r.
    replace ((1 <? size [g0])%nat) with false by reflexivity. cbn [andb].
    replace ((S (S k) <? size [g0])%nat) with false by reflexivity.
    rewrite bcast_scalar.
    rewrite (@bcast_array (S (S k)) (repeat g0 (S (S k))))
      by (rewrite Hsz; discriminate).
    reflexivity.
  - intros Hg.
    destruct gamma as [|g1 [|g2 gamma]]; [congruence | reflexivity |].
    set (gl := g1 :: g2 :: gamma) in *.
    assert (Hn : size gl = S (S (List.length gamma))) by reflexivity.
    rewrite Hn. set (k := List.length gamma) in *.
    unfold flowisentropic.
    rewrite (@flowisentropic_elementwise _ gl [f0] mtype) by (discriminate || exact Hg).
    rewrite (@flowisentropic_elementwise _ gl (repeat f0 (S (S k))) mtype)
      by (discriminate || exact Hg).
    unfold elementwise.
    rewrite Hsz, Hn.
    rewrite (Nat.eqb_refl (S (S k))), (Nat.ltb_irrefl (S (S k))). cbn [negb].
    rewrite andb_false_r.
    replace ((1 <? size [f0])%nat) with false by reflexivity.
    rewrite andb_false_r. cbn [andb].
    replace ((size [f0] <? S (S k))%nat) with true by reflexivity.
    rewrite bcast_scalar.
    rewrite (@bcast_array (S (S k)) (repeat f0 (S (S k))))
      by (rewrite Hsz; discriminate).
    reflexivity.
Qed.

Lemma X3_scalar_broadcast_witness :
  flowisentropic [Fin 1.4] [Fin 2; Fin 3] "mach"
  = flowisentropic (repeat (Fin 1.4) (size [Fin 2; Fin 3])) [Fin 2; Fin 3] "mach".
Proof.
  apply (proj1 (X3_scalar_broadcast (Fin 1.4) (Fin 0) [Fin 1.4] [Fin 2; Fin 3] "mach")).
  discriminate.
Defined.

(** X4: the mode string matters only through the input mode it selects:
    two strings that select the same mode (as ["t"] and ["temp"], or ["d"],
    ["rho"] and ["dens"]) give the same result on the same inputs, and so do
    two strings that select none. *)
Theorem X4_mode_aliases (gamma flow : ndarray) (m1 m2 : string) :
  gamma <> [] -> flow <> [] ->
  mode_of m1 = mode_of m2 ->
  flowisentropic gamma flow m1 = flowisentropic gamma flow m2.
Proof.
  intros Hg Hf Hm. unfold flowisentropic.
  rewrite !flowisentropic_elementwise by assumption.
  unfold elementwise. rewrite Hm. reflexivity.
Qed.

Lemma X4_mode_aliases_witness :
  flowisentropic [Fin 1.4] [Fin 0.5] "rho" = flowisentropic [Fin 1.4] [Fin 0.5] "dens".
Proof. apply X4_mode_aliases; [discriminate | discriminate | reflexivity]. Defined.

(** A call in mode [mach] on a finite Mach number *)
Lemma mach_call (g0 m : R) :
  1 < g0 -> 0 <= m ->
  flowisentropic [Fin g0] [Fin m] "mach"
  = Ok (Scalars (Flow5 (Fin m) (Fin (/ d_R g0 m))
                   (Fin (Rpower (d_R g0 m) (- g0 / (g0 - 1))))
                   (Fin (Rpower (d_R g0 m) (-1 / (g0 - 1))))
                   (area_elem (Fin g0) (Fin m)))).
Proof.
  intros Hg Hm.
  rewrite (@scalar_call (Fin g0) (Fin m) "mach" Mach).
  - cbv zeta. cbn [mach_elem].
    now rewrite rel_T_fin, rel_P_fin, rel_rho_fin.
  - fsimpl. reflexivity.
  - reflexivity.
  - cbn [rejects map any existsb]. fsimpl. reflexivity.
Qed.

(** Bernoulli's inequality for an exponent between 0 and 1 *)
Lemma Rpower_tangent (x l : R) :
  0 < x -> 0 <= l <= 1 -> Rpower x l <= 1 + l * (x - 1).
Proof.
  intros Hx Hl.
  set (w := 1 + l * (x - 1)).
  assert (Hw : 0 < w) by (unfold w; nra).
  assert (Hln : forall y, 0 < y -> ln y <= ln w + (y / w - 1)).
  { intros y Hy.
    assert (H := exp_ineq1_le (ln (y / w))).
    rewrite exp_ln in H by (apply Rdiv_lt_0_compat; assumption).
    unfold Rdiv in H at 1. rewrite ln_mult, ln_Rinv in H;
      [ | assumption | assumption | now apply Rinv_0_lt_compat ].
    lra. }
  assert (H1 := Hln 1 ltac:(lra)). rewrite ln_1 in H1.
  assert (H2 := Hln x Hx).
  assert (E : l * (x / w - 1) + (1 - l) * (1 / w - 1) = 0).
  { unfold w. field. fold w. lra. }
  assert (H : l * ln x <= ln w) by nra.
  apply Rle_trans with (Rtrigo_def.exp (ln w)); [|rewrite exp_ln; [apply Rle_refl | exact Hw]].
  unfold Rpower.
  destruct H as [H|H]; [left; now apply exp_increasing | right; now rewrite H].
Qed.

(** The area relation on a positive finite Mach number *)
Lemma rel_area_fin (g0 m : R) :
  1 < g0 -> 0 < m ->
  area_elem (Fin g0) (Fin m)
  = Fin (Rpower ((g0 + 1) / 2) (- ((g0 + 1) / 2 / (g0 - 1)))
         * Rpower (d_R g0 m) ((g0 + 1) / 2 / (g0 - 1)) / m).
Proof.
  intros Hg Hm. pose proof (d_R_ge_1 m Hg).
  unfold area_elem. cbn [eqb isinf]. rewrite Req_b_false by lra.
  unfold rel_area. rewrite rel_d_fin, ga_fin, gc_fin by lra. rewrite opp_fin.
  rewrite !pow_pos_gen by lra. farith. reflexivity.
Qed.

Lemma area_at_least_one (g0 m : R) :
  1 < g0 -> 0 < m ->
  1 <= Rpower ((g0 + 1) / 2) (- ((g0 + 1) / 2 / (g0 - 1)))
       * Rpower (d_R g0 m) ((g0 + 1) / 2 / (g0 - 1)) / m.
Proof.
  intros Hg Hm.
  set (a := (g0 + 1) / 2). set (c := a / (g0 - 1)).
  assert (Ha : 1 < a) by (unfold a; lra).
  assert (Hc : 0 < c) by (unfold c; apply Rdiv_lt_0_compat; lra).
  pose proof (d_R_ge_1 m Hg) as Hd.
  set (l := (g0 - 1) / 2 / a).
  assert (Hl : 0 < l < 1).
  { unfold l. split; [apply Rdiv_lt_0_compat; lra|].
    apply Rdiv_lt_bound; unfold a; lra. }
  assert (Hlc : l * c = / 2).
  { unfold l, c, a. field. lra. }
  assert (Hu : d_R g0 m / a = 1 + l * (m * m - 1)).
  { unfold d_R, l, a. field. lra. }
  assert (Hmm : 0 < m * m) by nra.
  assert (B := @Rpower_tangent (m * m) l Hmm ltac:(lra)).
  rewrite <- Hu in B.
  assert (Hpos : 0 < Rpower (m * m) l) by (unfold Rpower; apply exp_pos).
  assert (M : Rpower (Rpower (m * m) l) c <= Rpower (d_R g0 m / a) c).
  { apply Rle_Rpower_l; [lra | split; assumption]. }
  rewrite Rpower_mult, Hlc, Rpower_sqrt, sqrt_square in M by lra.
  assert (E : Rpower a (- c) * Rpower (d_R g0 m) c = Rpower (d_R g0 m / a) c).
  { unfold Rdiv. rewrite <- Rpower_mult_distr;
      [ | lra | apply Rinv_0_lt_compat; lra ].
    replace (Rpower (/ a) c) with (Rpower a (- c)); [ring|].
    unfold Rpower. rewrite ln_Rinv by lra. f_equal. ring. }
  rewrite E. apply Rdiv_ge_bound; lra.
Qed.

Lemma Rpower_neg_decreasing (x y e : R) :
  0 < x < y -> e < 0 -> Rpower y e < Rpower x e.
Proof.
  intros Hxy He.
  replace e with (- (- e)) by ring.
  assert (Hk : 0 < - e) by lra. set (k := - e) in *.
  rewrite !Rpower_Ropp.
  apply Rinv_lt_contravar.
  - apply Rmult_lt_0_compat; unfold Rpower; apply exp_pos.
  - apply Rlt_Rpower_l; lra.
Qed.

(** X5: for a finite Mach number [m >= 0] the call in mode [mach] returns
    the temperature ratio [1 / (1 + (gamma - 1) / 2 * m^2)] and finite
    pressure and density ratios; the three ratios lie in (0, 1], and they
    satisfy the ideal gas law [P = rho * T] and the isentropic relation
    [P = rho ^ gamma]. *)
Theorem X5_static_ratios (g0 m : R) :
  1 < g0 -> 0 <= m ->
  exists t p d : R,
    flowisentropic [Fin g0] [Fin m] "mach"
    = Ok (Scalars (Flow5 (Fin m) (Fin t) (Fin p) (Fin d)
                     (area_elem (Fin g0) (Fin m)))) /\
    t = / (1 + (g0 - 1) / 2 * (m * m)) /\
    0 < t <= 1 /\ 0 < p <= 1 /\ 0 < d <= 1 /\
    p = d * t /\ p = Rpower d g0.
Proof.
  intros Hg Hm. pose proof (d_R_ge_1 m Hg) as Hd.
  exists (/ d_R g0 m), (Rpower (d_R g0 m) (- g0 / (g0 - 1))),
         (Rpower (d_R g0 m) (-1 / (g0 - 1))).
  split; [now apply mach_call|].
  split; [reflexivity|].
  assert (En : forall k, 0 < k -> - k / (g0 - 1) <= 0).
  { intros k Hk. apply Rdiv_le_bound; lra. }
  split.
  { split; [apply Rinv_0_lt_compat; lra|].
    rewrite <- Rinv_1. apply Rinv_le_contravar; lra. }
  split; [apply Rpower_unit_interval; [lra | apply En; lra]|].
  split.
  { apply Rpower_unit_interval; [lra|].
    replace (-1) with (- (1)) by lra. apply En; lra. }
  split.
  - replace (/ d_R g0 m) with (Rpower (d_R g0 m) (- (1)))
      by (rewrite Rpower_Ropp, Rpower_1; lra).
    rewrite <- Rpower_plus. f_equal. field. lra.
  - rewrite Rpower_mult. f_equal. field. lra.
Qed.

Lemma X5_static_ratios_witness :
  exists t p d : R,
    flowisentropic [Fin 1.4] [Fin 2] "mach"
    = Ok (Scalars (Flow5 (Fin 2) (Fin t) (Fin p) (Fin d)
                     (area_elem (Fin 1.4) (Fin 2)))) /\
    t = / (1 + (1.4 - 1) / 2 * (2 * 2)) /\
    0 < t <= 1 /\ 0 < p <= 1 /\ 0 < d <= 1 /\
    p = d * t /\ p = Rpower d 1.4.
Proof. apply X5_static_ratios; lra. Defined.

(** X6: in exact arithmetic, for every finite Mach number [m > 0] the area
    ratio returned in mode [mach] is a finite number that is 1 or more (the
    weighted inequality of the arithmetic and geometric means of 1 and
    [m^2]).  The bound is attained at [m = 1], so in [float64], where the
    value is rounded, it can come out one unit in the last place below 1
    there. *)
Theorem X6_area_ratio_at_least_one (g0 m : R) :
  1 < g0 -> 0 < m ->
  exists (r : flow5 f64) (A : R),
    flowisentropic [Fin g0] [Fin m] "mach" = Ok (Scalars r) /\
    out_M r = Fin m /\ out_area r = Fin A /\ 1 <= A.
Proof.
  intros Hg Hm.
  pose proof (@area_at_least_one g0 m Hg Hm) as HA.
  eexists. eexists.
  split; [apply mach_call; lra|]. cbn [out_M out_area].
  split; [reflexivity|].
  split; [now apply rel_area_fin | exact HA].
Qed.

Lemma X6_area_ratio_at_least_one_witness :
  exists (r : flow5 f64) (A : R),
    flowisentropic [Fin 1.4] [Fin 3] "mach" = Ok (Scalars r) /\
    out_M r = Fin 3 /\ out_area r = Fin A /\ 1 <= A.
Proof. apply X6_area_ratio_at_least_one; lra. Defined.

(** X7: in mode [mach] the temperature, pressure and density ratios are
    strictly decreasing in the Mach number: of two finite Mach numbers
    [0 <= m1 < m2] the larger one gets the smaller three ratios. *)
Theorem X7_ratios_decrease_with_mach (g0 m1 m2 : R) :
  1 < g0 -> 0 <= m1 < m2 ->
  exists t1 p1 d1 t2 p2 d2 : R,
    flowisentropic [Fin g0] [Fin m1] "mach"
    = Ok (Scalars (Flow5 (Fin m1) (Fin t1) (Fin p1) (Fin d1)
                     (area_elem (Fin g0) (Fin m1)))) /\
    flowisentropic [Fin g0] [Fin m2] "mach"
    = Ok (Scalars (Flow5 (Fin m2) (Fin t2) (Fin p2) (Fin d2)
                     (area_elem (Fin g0) (Fin m2)))) /\
    t2 < t1 /\ p2 < p1 /\ d2 < d1.
Proof.
  intros Hg Hm.
  pose proof (d_R_ge_1 m1 Hg) as Hd1.
  assert (Hd : d_R g0 m1 < d_R g0 m2).
  { unfold d_R. apply Rplus_lt_compat_l, Rmult_lt_compat_l; [lra | nra]. }
  do 6 eexists.
  split; [apply mach_call; lra|].
  split; [apply mach_call; lra|].
  assert (En : forall k, 0 < k -> - k / (g0 - 1) < 0).
  { intros k Hk. apply Rdiv_lt_bound; lra. }
  split; [apply Rinv_lt_contravar; [nra | exact Hd]|].
  split.
  - apply Rpower_neg_decreasing; [lra|]. apply En; lra.
  - apply Rpower_neg_decreasing; [lra|].
    replace (-1) with (- (1)) by lra. apply En; lra.
Qed.

Lemma X7_ratios_decrease_with_mach_witness :
  exists t1 p1 d1 t2 p2 d2 : R,
    flowisentropic [Fin 1.4] [Fin 0] "mach"
    = Ok (Scalars (Flow5 (Fin 0) (Fin t1) (Fin p1) (Fin d1)
                     (area_elem (Fin 1.4) (Fin 0)))) /\
    flowisentropic [Fin 1.4] [Fin 2] "mach"
    = Ok (Scalars (Flow5 (Fin 2) (Fin t2) (Fin p2) (Fin d2)
                     (area_elem (Fin 1.4) (Fin 2)))) /\
    t2 < t1 /\ p2 < p1 /\ d2 < d1.
Proof. apply X7_ratios_decrease_with_mach; lra. Defined.

Lemma Rpower_ge_1 (f e : R) : 0 < f <= 1 -> e <= 0 -> 1 <= Rpower f e.
Proof.
  intros Hf He.
  replace e with (- (- e)) by ring.
  assert (Hk : 0 <= - e) by lra. set (k := - e) in *.
  rewrite Rpower_Ropp.
  assert (Hp : 0 < Rpower f k) by (unfold Rpower; apply exp_pos).
  assert (H1 : Rpower f k <= 1).
  { assert (E1 : Rpower 1 k = 1).
    { unfold Rpower. rewrite ln_1, Rmult_0_r. apply exp_0. }
    rewrite <- E1. apply Rle_Rpower_l; lra. }
  rewrite <- Rinv_1. apply Rinv_le_contravar; lra.
Qed.

(** The quantity [d = 1 + (gamma - 1) / 2 * M^2] at the Mach number that a
    closed-form inverse computes from [X >= 1] *)
Lemma d_of_inverse (g0 X : R) :
  1 < g0 -> 1 <= X ->
  0 <= 1 / ((g0 - 1) / 2) * (X - 1) /\
  d_R g0 (R_sqrt.sqrt (1 / ((g0 - 1) / 2) * (X - 1))) = X.
Proof.
  intros Hg HX.
  assert (H0 : 0 <= 1 / ((g0 - 1) / 2) * (X - 1)).
  { apply Rmult_le_pos; [|lra]. apply Rlt_le, Rdiv_lt_0_compat; lra. }
  split; [exact H0|].
  unfold d_R. rewrite sqrt_sqrt by exact H0. field. lra.
Qed.

(** X8: each inverse mode reproduces its input: for a temperature,
    pressure or density ratio in (0, 1] the call in mode [temp], [pres] or
    [dens] returns a finite Mach number [M >= 0] and, in the corresponding
    output, the ratio it was given. *)
Theorem X8_inverse_modes_reproduce_input (g0 f : R) :
  1 < g0 -> 0 < f <= 1 ->
  (exists r m, flowisentropic [Fin g0] [Fin f] "temp" = Ok (Scalars r) /\
               out_M r = Fin m /\ 0 <= m /\ out_T r = Fin f) /\
  (exists r m, flowisentropic [Fin g0] [Fin f] "pres" = Ok (Scalars r) /\
               out_M r = Fin m /\ 0 <= m /\ out_P r = Fin f) /\
  (exists r m, flowisentropic [Fin g0] [Fin f] "dens" = Ok (Scalars r) /\
               out_M r = Fin m /\ 0 <= m /\ out_rho r = Fin f).
Proof.
  intros Hg Hf.
  assert (Hrej : forall m, m = Temp \/ m = Pres \/ m = Dens ->
            rejects m [Fin f] = false).
  { intros m [-> | [-> | ->]]; cbn [rejects map any existsb]; fsimpl; reflexivity. }
  assert (Hgam : (Fin g0 <=? Fin 1)%f64 = false) by (fsimpl; reflexivity).
  split; [|split].
  - assert (HX : 1 <= / f).
    { rewrite <- Rinv_1. apply Rinv_le_contravar; lra. }
    destruct (d_of_inverse Hg HX) as [H0 Ed].
    do 2 eexists. rewrite (@scalar_call (Fin g0) (Fin f) "temp" Temp Hgam eq_refl);
      [|apply Hrej; auto].
    cbv zeta. cbn [mach_elem eqb]. rewrite Req_b_false by lra.
    unfold mach_of_temp. rewrite gb_fin, pow_neg_one by lra. farith.
    rewrite sqrt_fin by exact H0.
    split; [reflexivity|]. cbn [out_M out_T].
    split; [reflexivity|]. split; [apply sqrt_pos|].
    rewrite rel_T_fin, Ed, Rinv_inv by assumption. reflexivity.
  - assert (He : (g0 - 1) / - g0 <= 0).
    { replace ((g0 - 1) / - g0) with (- ((g0 - 1) / g0)) by (field; lra).
      assert (0 < (g0 - 1) / g0) by (apply Rdiv_lt_0_compat; lra). lra. }
    pose proof (Rpower_ge_1 Hf He) as HX.
    destruct (d_of_inverse Hg HX) as [H0 Ed].
    do 2 eexists. rewrite (@scalar_call (Fin g0) (Fin f) "pres" Pres Hgam eq_refl);
      [|apply Hrej; auto].
    cbv zeta. cbn [mach_elem eqb]. rewrite Req_b_false by lra.
    unfold mach_of_pres. rewrite gb_fin. farith.
    rewrite pow_pos_gen by lra. farith.
    rewrite sqrt_fin by exact H0.
    split; [reflexivity|]. cbn [out_M out_P].
    split; [reflexivity|]. split; [apply sqrt_pos|].
    rewrite rel_P_fin, Ed, Rpower_mult by assumption.
    replace ((g0 - 1) / - g0 * (- g0 / (g0 - 1))) with 1 by (field; lra).
    rewrite Rpower_1 by lra. reflexivity.
  - assert (He : (g0 - 1) / -1 <= 0) by lra.
    pose proof (Rpower_ge_1 Hf He) as HX.
    destruct (d_of_inverse Hg HX) as [H0 Ed].
    do 2 eexists. rewrite (@scalar_call (Fin g0) (Fin f) "dens" Dens Hgam eq_refl);
      [|apply Hrej; auto].
    cbv zeta. cbn [mach_elem eqb]. rewrite Req_b_false by lra.
    unfold mach_of_dens. rewrite gb_fin. farith.
    rewrite pow_pos_gen by lra. farith.
    rewrite sqrt_fin by exact H0.
    split; [reflexivity|]. cbn [out_M out_rho].
    split; [reflexivity|]. split; [apply sqrt_pos|].
    rewrite rel_rho_fin, Ed, Rpower_mult by assumption.
    replace ((g0 - 1) / -1 * (-1 / (g0 - 1))) with 1 by (field; lra).
    rewrite Rpower_1 by lra. reflexivity.
Qed.

Lemma X8_inverse_modes_reproduce_input_witness :
  exists r m, flowisentropic [Fin 1.4] [Fin 0.5] "pres" = Ok (Scalars r) /\
              out_M r = Fin m /\ 0 <= m /\ out_P r = Fin 0.5.
Proof.
  apply (proj1 (proj2 (@X8_inverse_modes_reproduce_input 1.4 0.5
                         ltac:(lra) ltac:(lra)))).
Defined.

End IsentropicProperties.

(* ================================================================= *)
(** * flownormalshock: further properties *)

Module ShockProperties.

Import Shock ShockSpec ShockFacts.

Local Open Scope R_scope.

(** The temperature ratio on a finite Mach number *)
Lemma shock_rel_T_fin (g0 m : R) :
  1 < g0 -> 1 <= m ->
  rel_T (Fin g0) (Fin m)
  = Fin ((1 + (m * m - 1) * g0 / ((g0 + 1) / 2)) / rho_R g0 (m * m)).
Proof.
  intros Hg Hm. assert (HK : 1 <= m * m) by nra.
  destruct (rho_R_bounds Hg HK) as (_ & Hr & _).
  unfold rel_T. rewrite shock_rel_P_fin, shock_rel_rho_fin by assumption.
  rewrite div_fin by lra. reflexivity.
Qed.

(** A call in mode [mach] on a finite Mach number *)
Lemma shock_mach_call junk (g0 m : R) :
  1 < g0 -> 1 <= m ->
  flownormalshock junk [Fin g0] [Fin m] "mach"
  = Ok (Scalars (Shock7 (Fin m)
                   (Fin (R_sqrt.sqrt (Q_R g0 (m * m))))
                   (Fin ((1 + (m * m - 1) * g0 / ((g0 + 1) / 2)) / rho_R g0 (m * m)))
                   (Fin (1 + (m * m - 1) * g0 / ((g0 + 1) / 2)))
                   (Fin (rho_R g0 (m * m)))
                   (rel_P0 (Fin g0) (Fin m)) (rel_P1 (Fin g0) (Fin m)))).
Proof.
  intros Hg Hm.
  rewrite (@shock_scalar_call junk (Fin g0) (Fin m) "mach" Mach).
  - cbv zeta. cbn [mach_elem].
    now rewrite rel_M2_fin, shock_rel_T_fin, shock_rel_P_fin, shock_rel_rho_fin.
  - fsimpl. reflexivity.
  - reflexivity.
  - cbn [rejects map any existsb]. fsimpl. reflexivity.
Qed.

(** The temperature ratio across the shock is 1 or more. *)
Lemma shock_T_ge_1 (g0 K : R) :
  1 < g0 -> 1 <= K ->
  1 <= (1 + (K - 1) * g0 / ((g0 + 1) / 2)) / rho_R g0 K.
Proof.
  intros Hg HK. destruct (rho_R_bounds Hg HK) as (Hd & Hr & _).
  apply Rdiv_ge_bound; [lra|]. unfold rho_R. rewrite Rmult_1_l.
  apply Rdiv_le_bound; [lra|].
  replace (1 + (K - 1) * g0 / ((g0 + 1) / 2))
    with ((2 * g0 * K - (g0 - 1)) / (g0 + 1)) by (field; lra).
  assert (E : (2 * g0 * K - (g0 - 1)) / (g0 + 1) * (2 + (g0 - 1) * K)
              = ((2 * g0 * K - (g0 - 1)) * (2 + (g0 - 1) * K)) / (g0 + 1))
    by (field; lra).
  rewrite E. apply Rdiv_ge_bound; [lra|].
  assert (F : (2 * g0 * K - (g0 - 1)) * (2 + (g0 - 1) * K)
              - (g0 + 1) * K * (g0 + 1)
              = 2 * (g0 - 1) * ((K - 1) * (g0 * K + 1))) by ring.
  assert (0 <= (K - 1) * (g0 * K + 1)) by (apply Rmult_le_pos; nra).
  assert (0 <= 2 * (g0 - 1) * ((K - 1) * (g0 * K + 1)))
    by (apply Rmult_le_pos; lra).
  lra.
Qed.

(** X9: a shock at the sonic point changes nothing: for every specific heat
    ratio the call on the upstream Mach number 1 returns the downstream
    Mach number 1 and the temperature, pressure, density and total pressure
    ratios 1; the seventh value is [((gamma + 1) / 2) ^ (gamma / (gamma - 1))],
    the stagnation-to-static pressure ratio of a sonic flow. *)
Theorem X9_sonic_shock_is_identity junk (g0 : R) :
  1 < g0 ->
  flownormalshock junk [Fin g0] [Fin 1] "mach"
  = Ok (Scalars (Shock7 (Fin 1) (Fin 1) (Fin 1) (Fin 1) (Fin 1) (Fin 1)
                   (Fin (Rpower ((g0 + 1) / 2) (g0 / (g0 - 1)))))).
Proof.
  intros Hg.
  rewrite shock_mach_call by lra.
  assert (EQ : Q_R g0 (1 * 1) = 1) by (unfold Q_R; field; lra).
  assert (Er : rho_R g0 (1 * 1) = 1) by (unfold rho_R; field; lra).
  assert (EP : 1 + (1 * 1 - 1) * g0 / ((g0 + 1) / 2) = 1) by (field; lra).
  assert (ET : rel_T (Fin g0) (Fin 1) = Fin 1).
  { rewrite shock_rel_T_fin, Er, EP by lra. f_equal. lra. }
  assert (E0 : rel_P0 (Fin g0) (Fin 1) = Fin 1).
  { unfold rel_P0. rewrite ET, shock_rel_P_fin, EP, AtmosFacts.pow_one_base by lra.
    apply mul_one_l. }
  assert (E1 : rel_P1 (Fin g0) (Fin 1)
               = Fin (Rpower ((g0 + 1) / 2) (g0 / (g0 - 1)))).
  { unfold rel_P1.
    rewrite shock_ga_fin, shock_gb_fin, shock_gc_fin, !pow_two by lra.
    farith.
    replace ((g0 + 1) / 2 * ((g0 + 1) / 2) * (1 * 1) / (g0 * (1 * 1) - (g0 - 1) / 2))
      with ((g0 + 1) / 2) by (field; lra).
    rewrite pow_pos_gen by lra. farith. f_equal. field. lra. }
  rewrite EQ, Er, EP, E0, E1, sqrt_1.
  replace (1 / 1) with 1 by lra. reflexivity.
Qed.

Lemma X9_sonic_shock_is_identity_witness :
  flownormalshock (fun _ => NaN) [Fin 1.4] [Fin 1] "mach"
  = Ok (Scalars (Shock7 (Fin 1) (Fin 1) (Fin 1) (Fin 1) (Fin 1) (Fin 1)
                   (Fin (Rpower ((1.4 + 1) / 2) (1.4 / (1.4 - 1)))))).
Proof. apply X9_sonic_shock_is_identity. lra. Defined.

(** X10: behind a shock the flow is subsonic, hotter, denser and at a higher
    pressure: for a finite upstream Mach number [m >= 1] the call returns a
    downstream Mach number in (sqrt((gamma-1)/(2 gamma)), 1], temperature
    and pressure ratios that are 1 or more, and a density ratio in
    [1, (gamma+1)/(gamma-1)), so each output is accepted as the input of its
    inverse mode; the pressure ratio is [1 + 2 gamma / (gamma + 1) * (m^2 - 1)]
    and the three ratios satisfy [P = rho * T]. *)
Theorem X10_shock_ratio_bounds junk (g0 m : R) :
  1 < g0 -> 1 <= m ->
  exists m2 t p d : R,
    flownormalshock junk [Fin g0] [Fin m] "mach"
    = Ok (Scalars (Shock7 (Fin m) (Fin m2) (Fin t) (Fin p) (Fin d)
                     (rel_P0 (Fin g0) (Fin m)) (rel_P1 (Fin g0) (Fin m)))) /\
    R_sqrt.sqrt ((g0 - 1) / (2 * g0)) < m2 <= 1 /\
    1 <= t /\ 1 <= p /\ 1 <= d < (g0 + 1) / (g0 - 1) /\
    p = 1 + 2 * g0 / (g0 + 1) * (m * m - 1) /\ p = d * t.
Proof.
  intros Hg Hm. assert (HK : 1 <= m * m) by nra.
  destruct (Q_R_bounds Hg HK) as (Hd & Hl & Hu).
  destruct (rho_R_bounds Hg HK) as (Hd' & Hr & Hr').
  assert (Hb : 0 < (g0 - 1) / (2 * g0)) by (apply Rdiv_lt_0_compat; lra).
  do 4 eexists. split; [now apply shock_mach_call|].
  split.
  { split.
    - apply sqrt_lt_1_alt. lra.
    - apply Rle_trans with (R_sqrt.sqrt 1); [|rewrite sqrt_1; lra].
      apply sqrt_le_1_alt. lra. }
  split; [now apply shock_T_ge_1|].
  split.
  { assert (0 <= (m * m - 1) * g0 / ((g0 + 1) / 2)).
    { apply Rdiv_ge_bound; [lra|]. nra. }
    lra. }
  split; [split; assumption|].
  split; [field; lra|].
  set (r := rho_R g0 (m * m)) in *. field. lra.
Qed.

Lemma X10_shock_ratio_bounds_witness :
  exists m2 t p d : R,
    flownormalshock (fun _ => NaN) [Fin 1.4] [Fin 2] "mach"
    = Ok (Scalars (Shock7 (Fin 2) (Fin m2) (Fin t) (Fin p) (Fin d)
                     (rel_P0 (Fin 1.4) (Fin 2)) (rel_P1 (Fin 1.4) (Fin 2)))) /\
    R_sqrt.sqrt ((1.4 - 1) / (2 * 1.4)) < m2 <= 1 /\
    1 <= t /\ 1 <= p /\ 1 <= d < (1.4 + 1) / (1.4 - 1) /\
    p = 1 + 2 * 1.4 / (1.4 + 1) * (2 * 2 - 1) /\ p = d * t.
Proof. apply X10_shock_ratio_bounds; lra. Defined.

(** X11: a [nan] flow value passes the validation of the modes [down] and
    [dens], and neither of their two masked assignments selects it: the
    upstream Mach number returned for it is whatever [sp.empty] left in the
    preshaped array. *)
Theorem X11_nan_flow_returns_uninitialised junk (g0 : R) :
  1 < g0 ->
  (exists r, flownormalshock junk [Fin g0] [NaN] "down" = Ok (Scalars r)
             /\ out_M r = junk 0%nat) /\
  (exists r, flownormalshock junk [Fin g0] [NaN] "dens" = Ok (Scalars r)
             /\ out_M r = junk 0%nat).
Proof.
  intros Hg. split; eexists.
  - rewrite (@shock_scalar_call junk (Fin g0) NaN "down" Down).
    + cbv zeta. split; [reflexivity|]. cbn [out_M mach_elem].
      rewrite lowerbound_fin by assumption. reflexivity.
    + fsimpl. reflexivity.
    + reflexivity.
    + cbn [rejects map map2 any existsb].
      rewrite lowerbound_fin by assumption. reflexivity.
  - rewrite (@shock_scalar_call junk (Fin g0) NaN "dens" Dens).
    + cbv zeta. split; [reflexivity|]. cbn [out_M mach_elem].
      rewrite upperbound_fin by assumption. reflexivity.
    + fsimpl. reflexivity.
    + reflexivity.
    + cbn [rejects map map2 any existsb].
      rewrite upperbound_fin by assumption. reflexivity.
Qed.

Lemma X11_nan_flow_returns_uninitialised_witness :
  exists r, flownormalshock (fun _ => Fin 7) [Fin 1.4] [NaN] "down" = Ok (Scalars r)
            /\ out_M r = Fin 7.
Proof.
  apply (proj1 (@X11_nan_flow_returns_uninitialised (fun _ => Fin 7) 1.4 ltac:(lra))).
Defined.

(** X12: an infinite upstream Mach number is not handled apart: an
    infinite flow value passes the validation of the modes [mach] and
    [pres], the upstream Mach number is [+inf], and the relations evaluated
    there as they stand give an infinite pressure ratio and [nan] for the
    downstream Mach number and the other ratios. *)
Theorem X12_infinite_upstream_mach junk (g0 : R) :
  1 < g0 ->
  flownormalshock junk [Fin g0] [PInf] "mach"
  = Ok (Scalars (Shock7 PInf NaN NaN PInf NaN NaN NaN)) /\
  flownormalshock junk [Fin g0] [PInf] "pres"
  = Ok (Scalars (Shock7 PInf NaN NaN PInf NaN NaN NaN)).
Proof.
  intros Hg.
  destruct (relations_pinf Hg) as (E1 & E2 & E3 & E4 & E5 & E6).
  split.
  - rewrite (@shock_scalar_call junk (Fin g0) PInf "mach" Mach).
    + cbv zeta. cbn [mach_elem]. now rewrite E1, E2, E3, E4, E5, E6.
    + fsimpl. reflexivity.
    + reflexivity.
    + reflexivity.
  - rewrite (@shock_scalar_call junk (Fin g0) PInf "pres" Pres).
    + cbv zeta. cbn [mach_elem].
      assert (E : mach_of_pres (Fin g0) PInf = PInf).
      { unfold mach_of_pres. cbn [sub add opp mul]. unfold signed_inf.
        rdecide. cbn [div]. rdecide. reflexivity. }
      now rewrite E, E1, E2, E3, E4, E5, E6.
    + fsimpl. reflexivity.
    + reflexivity.
    + reflexivity.
Qed.

Lemma X12_infinite_upstream_mach_witness :
  flownormalshock (fun _ => NaN) [Fin 1.4] [PInf] "mach"
  = Ok (Scalars (Shock7 PInf NaN NaN PInf NaN NaN NaN)).
Proof.
  apply (proj1 (@X12_infinite_upstream_mach (fun _ => NaN) 1.4 ltac:(lra))).
Defined.

Lemma sqrt_ge_1 (K : R) : 1 <= K -> 1 <= R_sqrt.sqrt K.
Proof.
  intros HK. apply Rle_trans with (R_sqrt.sqrt 1); [rewrite sqrt_1; lra|].
  apply sqrt_le_1_alt. exact HK.
Qed.

(** X13: each inverse mode of the normal shock relations reproduces its
    input: for a pressure ratio [p >= 1], a density ratio
    [1 <= d < (gamma+1)/(gamma-1)] or a downstream Mach number
    [sqrt((gamma-1)/(2 gamma)) < m2 <= 1] the call in mode [pres], [dens] or
    [down] returns a finite upstream Mach number [M >= 1] and, in the
    corresponding output, the value it was given. *)
Theorem X13_shock_inverse_modes_reproduce_input junk (g0 : R) :
  1 < g0 ->
  (forall p, 1 <= p ->
     exists r m, flownormalshock junk [Fin g0] [Fin p] "pres" = Ok (Scalars r) /\
                 out_M r = Fin m /\ 1 <= m /\ out_P r = Fin p) /\
  (forall d, 1 <= d < (g0 + 1) / (g0 - 1) ->
     exists r m, flownormalshock junk [Fin g0] [Fin d] "dens" = Ok (Scalars r) /\
                 out_M r = Fin m /\ 1 <= m /\ out_rho r = Fin d) /\
  (forall m2, R_sqrt.sqrt ((g0 - 1) / (2 * g0)) < m2 <= 1 ->
     exists r m, flownormalshock junk [Fin g0] [Fin m2] "down" = Ok (Scalars r) /\
                 out_M r = Fin m /\ 1 <= m /\ out_M2 r = Fin m2).
Proof.
  intros Hg.
  assert (Hgam : (Fin g0 <=? Fin 1)%f64 = false) by (fsimpl; reflexivity).
  split; [|split].
  - intros p Hp.
    set (K := (p - 1) * (g0 + 1) / (2 * g0) + 1).
    assert (HK : 1 <= K).
    { unfold K. assert (0 <= (p - 1) * (g0 + 1) / (2 * g0)); [|lra].
      apply Rdiv_ge_bound; nra. }
    do 2 eexists.
    rewrite (@shock_scalar_call junk (Fin g0) (Fin p) "pres" Pres Hgam eq_refl).
    2:{ cbn [rejects map any existsb]. fsimpl. reflexivity. }
    cbv zeta. cbn [mach_elem]. unfold mach_of_pres. farith. fold K.
    rewrite sqrt_fin by lra.
    split; [reflexivity|]. cbn [out_M out_P].
    split; [reflexivity|]. split; [now apply sqrt_ge_1|].
    rewrite shock_rel_P_fin, sqrt_sqrt by lra. f_equal. unfold K. field. lra.
  - intros d Hd.
    assert (Hub : d * (g0 - 1) < g0 + 1).
    { destruct Hd as [_ Hd]. apply Rmult_lt_compat_r with (r := g0 - 1) in Hd; [|lra].
      replace ((g0 + 1) / (g0 - 1) * (g0 - 1)) with (g0 + 1) in Hd by (field; lra).
      exact Hd. }
    assert (Hden : 0 < 1 + g0 + d - d * g0) by lra.
    set (K := 2 * d / (1 + g0 + d - d * g0)).
    assert (HK : 1 <= K).
    { unfold K. apply Rdiv_ge_bound; [exact Hden|]. nra. }
    do 2 eexists.
    rewrite (@shock_scalar_call junk (Fin g0) (Fin d) "dens" Dens Hgam eq_refl).
    2:{ cbn [rejects map map2 any existsb]. rewrite upperbound_fin by assumption.
        fsimpl. reflexivity. }
    cbv zeta. cbn [mach_elem]. rewrite upperbound_fin by assumption.
    cbn [ltb]. rewrite Rlt_b_true by lra.
    unfold mach_of_dens. farith. fold K.
    rewrite sqrt_fin by lra.
    split; [reflexivity|]. cbn [out_M out_rho].
    split; [reflexivity|]. split; [now apply sqrt_ge_1|].
    rewrite shock_rel_rho_fin, sqrt_sqrt by (try apply sqrt_ge_1; lra).
    f_equal. unfold rho_R, K. field. split; lra.
  - intros m2 Hm2.
    assert (Hb : 0 < (g0 - 1) / (2 * g0)) by (apply Rdiv_lt_0_compat; lra).
    assert (Hs : 0 < R_sqrt.sqrt ((g0 - 1) / (2 * g0))) by (apply sqrt_lt_R0; lra).
    assert (Hq : (g0 - 1) / (2 * g0) < m2 * m2).
    { rewrite <- (sqrt_sqrt ((g0 - 1) / (2 * g0))) by lra. nra. }
    assert (Hden : 0 < g0 * (m2 * m2) - (g0 - 1) / 2).
    { apply Rmult_lt_compat_l with (r := g0) in Hq; [|lra].
      replace (g0 * ((g0 - 1) / (2 * g0))) with ((g0 - 1) / 2) in Hq by (field; lra).
      lra. }
    set (K := (1 + (g0 - 1) / 2 * (m2 * m2)) / (g0 * (m2 * m2) - (g0 - 1) / 2)).
    assert (HK : 1 <= K).
    { unfold K. apply Rdiv_ge_bound; [exact Hden|].
      assert (m2 * m2 <= 1) by nra. nra. }
    do 2 eexists.
    rewrite (@shock_scalar_call junk (Fin g0) (Fin m2) "down" Down Hgam eq_refl).
    2:{ cbn [rejects map map2 any existsb]. rewrite lowerbound_fin by assumption.
        fsimpl. reflexivity. }
    cbv zeta. cbn [mach_elem]. rewrite lowerbound_fin by assumption.
    unfold gtb. cbn [ltb]. rewrite Rlt_b_true by lra.
    unfold mach_of_down. rewrite shock_gb_fin, pow_two. farith. fold K.
    rewrite sqrt_fin by lra.
    split; [reflexivity|]. cbn [out_M out_M2].
    split; [reflexivity|]. split; [now apply sqrt_ge_1|].
    rewrite rel_M2_fin, sqrt_sqrt by (try apply sqrt_ge_1; lra).
    f_equal. rewrite <- (sqrt_square m2) by lra. f_equal.
    unfold Q_R, K. field. split; [lra|].
    assert (0 < g0 * K - (g0 - 1) / 2) by nra.
    unfold K in *. intros E. 
    assert (F : g0 * ((1 + (g0 - 1) / 2 * (m2 * m2)) / (g0 * (m2 * m2) - (g0 - 1) / 2))
                - (g0 - 1) / 2
                = (g0 * (2 + (g0 - 1) * (m2 * m2))
                   - (g0 - 1) * (g0 * (m2 * m2) - (g0 - 1) / 2))
                  / (2 * (g0 * (m2 * m2) - (g0 - 1) / 2))) by (field; lra).
    nra.
Qed.

Lemma X13_shock_inverse_modes_reproduce_input_witness :
  exists r m, flownormalshock (fun _ => NaN) [Fin 1.4] [Fin 4.5] "pres"
              = Ok (Scalars r) /\
              out_M r = Fin m /\ 1 <= m /\ out_P r = Fin 4.5.
Proof.
  apply (proj1 (@X13_shock_inverse_modes_reproduce_input (fun _ => NaN) 1.4
                  ltac:(lra)) 4.5).
  lra.
Defined.

End ShockProperties.

(* ================================================================= *)
(** * flownormalshock on arrays *)

Module ShockArrays.

Import Shock ShockSpec ShockFacts.
Import IsentropicSpec(gamma_valid, shapes_ok, bshape).

(** ** Masked assignment of a whole array *)

Lemma count_le (mask : list bool) : (count mask <= List.length mask)%nat.
Proof.
  unfold count. induction mask as [|[|] mask IH]; cbn [filter List.length]; lia.
Qed.

Lemma count_all (mask : list bool) :
  count mask = List.length mask -> all mask = true.
Proof.
  unfold count, all.
  induction mask as [|[|] mask IH]; cbn [filter List.length forallb andb]; intros H.
  - reflexivity.
  - apply IH. lia.
  - pose proof (count_le mask) as L. unfold count in L. lia.
Qed.

Lemma all_count (mask : list bool) :
  all mask = true -> count mask = List.length mask.
Proof.
  unfold count, all.
  induction mask as [|[|] mask IH]; cbn [filter List.length forallb andb]; intros H.
  - reflexivity.
  - rewrite IH by assumption. reflexivity.
  - discriminate.
Qed.

Lemma scatter_all {A} (x vals : list A) (mask : list bool) :
  List.length x = List.length mask -> List.length vals = List.length mask ->
  all mask = true -> scatter x mask vals = vals.
Proof.
  unfold all. revert x vals.
  induction mask as [|[|] mask IH]; intros [|a x] [|v vals] Lx Lv H;
    cbn [List.length] in *; try discriminate; try reflexivity.
  cbn [scatter]. cbn [forallb andb] in H. rewrite IH by (assumption || lia).
  reflexivity.
Qed.

(** [x[mask] = vals] with as many values as [x] has elements, and not just
    one: numpy accepts it when the mask selects every element, and only
    then. *)
Lemma put_whole {A} (x vals : list A) (mask : list bool) :
  List.length x = List.length mask -> List.length vals = List.length mask ->
  List.length vals <> 1%nat ->
  put x mask vals = if all mask then Ok vals else Raise (ValueError msg_put).
Proof.
  intros Lx Lv L1. unfold put.
  destruct (List.length vals =? count mask)%nat eqn:E.
  - apply Nat.eqb_eq in E. rewrite Lv in E. symmetry in E.
    rewrite (count_all _ E), scatter_all; auto using count_all.
  - apply Nat.eqb_neq in E.
    destruct (all mask) eqn:Ea.
    + apply all_count in Ea. congruence.
    + destruct vals as [|v [|v' vals]]; try reflexivity.
      cbn [List.length] in L1. congruence.
Qed.

(** ** The resolution of the upstream Mach number, mode by mode *)

Lemma solve_mach_modes (M0 gamma flow : ndarray) (mtype : string) :
  solve_mach M0 gamma flow mtype
  = match mode_of mtype with
    | None => Raise (Exception msg_mode)
    | Some m =>
        if rejects m gamma flow then Raise (Exception (msg_of m))
        else
          match m with
          | Mach => Ok flow
          | Down =>
              put (fill M0 (map2 leb flow (map lowerbound gamma)) PInf)
                (map2 gtb flow (map lowerbound gamma))
                (map2 mach_of_down gamma flow)
          | Pres => Ok (map2 mach_of_pres gamma flow)
          | Dens =>
              put (fill M0 (map2 geb flow (map upperbound gamma)) PInf)
                (map2 ltb flow (map upperbound gamma))
                (map2 mach_of_dens gamma flow)
          end
    end.
Proof.
  unfold solve_mach, mode_of.
  destruct (in_list mtype ["mach"; "m1"; "m"]%string); [reflexivity|].
  destruct (in_list mtype ["down"; "mach2"; "m2"; "md"]%string); [reflexivity|].
  destruct (in_list mtype ["pres"; "p"]%string); [reflexivity|].
  destruct (in_list mtype ["dens"; "d"; "rho"]%string); reflexivity.
Qed.

Lemma length_fill_mask {A} (x : list A) (mask : list bool) (v : A) :
  List.length (fill x mask v) = List.length x.
Proof.
  revert mask. induction x as [|a x IH]; intros [|m mask]; cbn [fill List.length];
    try reflexivity. now rewrite IH.
Qed.

Lemma length_map2_eq {A B C} (f : A -> B -> C) (xs : list A) (ys : list B) (n : nat) :
  List.length xs = n -> List.length ys = n -> List.length (map2 f xs ys) = n.
Proof. intros Lx Ly. rewrite length_map2; congruence. Qed.

(** Where every flow value is strictly inside its bound, the right-hand
    side of the second masked assignment is the Mach number of each
    element. *)
Lemma down_inside (u : f64) (gamma flow : ndarray) :
  all (map2 gtb flow (map lowerbound gamma)) = true ->
  map2 mach_of_down gamma flow = map2 (mach_elem u Down) gamma flow.
Proof.
  unfold all. revert flow.
  induction gamma as [|g0 gamma IH]; intros [|f flow] H; try reflexivity.
  cbn [map map2 forallb] in H. apply andb_prop in H. destruct H as [H1 H2].
  cbn [map2]. rewrite IH by assumption. cbn [mach_elem]. now rewrite H1.
Qed.

Lemma dens_inside (u : f64) (gamma flow : ndarray) :
  all (map2 ltb flow (map upperbound gamma)) = true ->
  map2 mach_of_dens gamma flow = map2 (mach_elem u Dens) gamma flow.
Proof.
  unfold all. revert flow.
  induction gamma as [|g0 gamma IH]; intros [|f flow] H; try reflexivity.
  cbn [map map2 forallb] in H. apply andb_prop in H. destruct H as [H1 H2].
  cbn [map2]. rewrite IH by assumption. cbn [mach_elem]. now rewrite H1.
Qed.

Lemma map2_mach (u : f64) (gamma flow : ndarray) :
  List.length gamma = List.length flow ->
  map2 (mach_elem u Mach) gamma flow = flow.
Proof.
  revert flow. induction gamma as [|g0 gamma IH]; intros [|f flow] L;
    cbn [List.length] in L; try discriminate; try reflexivity.
  cbn [map2 mach_elem]. f_equal. apply IH. congruence.
Qed.

(** The Mach array of a call on arrays of a common length other than 1 *)
Lemma solve_mach_arrays (u : f64) (M0 gamma flow : ndarray) (m : mode) (n : nat) :
  List.length M0 = n -> List.length gamma = n -> List.length flow = n ->
  n <> 1%nat ->
  forall M,
    match m with
    | Mach => Ok flow
    | Down =>
        put (fill M0 (map2 leb flow (map lowerbound gamma)) PInf)
          (map2 gtb flow (map lowerbound gamma))
          (map2 mach_of_down gamma flow)
    | Pres => Ok (map2 mach_of_pres gamma flow)
    | Dens =>
        put (fill M0 (map2 geb flow (map upperbound gamma)) PInf)
          (map2 ltb flow (map upperbound gamma))
          (map2 mach_of_dens gamma flow)
    end = Ok M ->
    M = map2 (mach_elem u m) gamma flow.
Proof.
  intros L0 Lg Lf Hn M E.
  assert (Llb : List.length (map lowerbound gamma) = n) by now rewrite length_map.
  assert (Lub : List.length (map upperbound gamma) = n) by now rewrite length_map.
  destruct m.
  - apply Ok_inj in E. subst M. symmetry. apply map2_mach. congruence.
  - rewrite put_whole in E.
    + destruct (all (map2 gtb flow (map lowerbound gamma))) eqn:Ea; [|discriminate].
      apply Ok_inj in E. subst M. now apply down_inside.
    + rewrite length_fill_mask, (@length_map2_eq _ _ _ _ _ _ n); congruence.
    + rewrite !(@length_map2_eq _ _ _ _ _ _ n); congruence.
    + rewrite (@length_map2_eq _ _ _ _ _ _ n); congruence.
  - apply Ok_inj in E. subst M. reflexivity.
  - rewrite put_whole in E.
    + destruct (all (map2 ltb flow (map upperbound gamma))) eqn:Ea; [|discriminate].
      apply Ok_inj in E. subst M. now apply dens_inside.
    + rewrite length_fill_mask, (@length_map2_eq _ _ _ _ _ _ n); congruence.
    + rewrite !(@length_map2_eq _ _ _ _ _ _ n); congruence.
    + rewrite (@length_map2_eq _ _ _ _ _ _ n); congruence.
Qed.

(** A call on two arrays of one length, two elements or more *)
Lemma shock_same_shape junk (gamma flow : ndarray) (mtype : string) :
  List.length gamma = List.length flow -> (2 <= List.length flow)%nat ->
  gamma_valid gamma ->
  flownormalshock junk gamma flow mtype
  = M <- solve_mach (empty junk (size flow)) gamma flow mtype ;;
    if (size M =? 1)%nat
    then Ok (Scalars (Shock7 (flat0 M) (flat0 (map2 rel_M2 gamma M))
                        (flat0 (map2 rel_T gamma M)) (flat0 (map2 rel_P gamma M))
                        (flat0 (map2 rel_rho gamma M)) (flat0 (map2 rel_P0 gamma M))
                        (flat0 (map2 rel_P1 gamma M))))
    else Ok (Arrays (Shock7 M (map2 rel_M2 gamma M) (map2 rel_T gamma M)
                       (map2 rel_P gamma M) (map2 rel_rho gamma M)
                       (map2 rel_P0 gamma M) (map2 rel_P1 gamma M))).
Proof.
  intros L Hn Hg. unfold flownormalshock.
  rewrite (IsentropicFacts.gamma_valid_accepts Hg).
  unfold size in *. rewrite L, Nat.eqb_refl, Nat.ltb_irrefl. cbn [negb].
  rewrite andb_false_r.
  rewrite !bcast_array by (unfold size; lia).
  reflexivity.
Qed.

Lemma size_not_one (M : ndarray) (n : nat) :
  List.length M = n -> (2 <= n)%nat -> (size M =? 1)%nat = false.
Proof. intros L Hn. apply Nat.eqb_neq. unfold size. lia. Qed.

(** X14: on two arrays of one shape with two elements or more, the modes
    [down] and [dens] return only if every flow value lies strictly inside
    its bound: then the upstream Mach numbers are the closed-form inverses
    of the elements; if some element that passed the validation is not
    strictly inside (it lies on the bound, or it is [nan]), the second
    masked assignment gets more values than its mask selects and numpy
    raises a ValueError. *)
Theorem X14_masked_modes_on_arrays junk (gamma flow : ndarray) :
  List.length gamma = List.length flow -> (2 <= List.length flow)%nat ->
  gamma_valid gamma ->
  (rejects Down gamma flow = false ->
   flownormalshock junk gamma flow "down"
   = if all (map2 gtb flow (map lowerbound gamma))
     then
       let M := map2 mach_of_down gamma flow in
       Ok (Arrays (Shock7 M (map2 rel_M2 gamma M) (map2 rel_T gamma M)
                     (map2 rel_P gamma M) (map2 rel_rho gamma M)
                     (map2 rel_P0 gamma M) (map2 rel_P1 gamma M)))
     else Raise (ValueError msg_put)) /\
  (rejects Dens gamma flow = false ->
   flownormalshock junk gamma flow "dens"
   = if all (map2 ltb flow (map upperbound gamma))
     then
       let M := map2 mach_of_dens gamma flow in
       Ok (Arrays (Shock7 M (map2 rel_M2 gamma M) (map2 rel_T gamma M)
                     (map2 rel_P gamma M) (map2 rel_rho gamma M)
                     (map2 rel_P0 gamma M) (map2 rel_P1 gamma M)))
     else Raise (ValueError msg_put)).
Proof.
  intros L Hn Hg.
  assert (Le : List.length (empty junk (size flow)) = List.length flow).
  { unfold empty, size. now rewrite length_map, length_seq. }
  split; intros Hr.
  - rewrite shock_same_shape, solve_mach_modes by assumption.
    replace (mode_of "down") with (Some Down) by reflexivity. rewrite Hr.
    rewrite put_whole.
    + destruct (all _); [|reflexivity]. cbn [bind]. cbv zeta.
      rewrite (@size_not_one _ (List.length flow)); [reflexivity | | assumption].
      now apply length_map2_eq.
    + rewrite length_fill_mask, (@length_map2_eq _ _ _ _ _ _ (List.length flow));
        rewrite ?length_map; congruence.
    + rewrite !(@length_map2_eq _ _ _ _ _ _ (List.length flow));
        rewrite ?length_map; congruence.
    + rewrite (@length_map2_eq _ _ _ _ _ _ (List.length flow)); try congruence. lia.
  - rewrite shock_same_shape, solve_mach_modes by assumption.
    replace (mode_of "dens") with (Some Dens) by reflexivity. rewrite Hr.
    rewrite put_whole.
    + destruct (all _); [|reflexivity]. cbn [bind]. cbv zeta.
      rewrite (@size_not_one _ (List.length flow)); [reflexivity | | assumption].
      now apply length_map2_eq.
    + rewrite length_fill_mask, (@length_map2_eq _ _ _ _ _ _ (List.length flow));
        rewrite ?length_map; congruence.
    + rewrite !(@length_map2_eq _ _ _ _ _ _ (List.length flow));
        rewrite ?length_map; congruence.
    + rewrite (@length_map2_eq _ _ _ _ _ _ (List.length flow)); try congruence. lia.
Qed.

Lemma X14_masked_modes_on_arrays_witness :
  flownormalshock (fun _ => NaN) [Fin 2; Fin 2] [Fin 0.5; Fin 0.8] "down"
  = if all (map2 gtb [Fin 0.5; Fin 0.8] (map lowerbound [Fin 2; Fin 2]))
    then
      let M := map2 mach_of_down [Fin 2; Fin 2] [Fin 0.5; Fin 0.8] in
      Ok (Arrays (Shock7 M (map2 rel_M2 [Fin 2; Fin 2] M)
                    (map2 rel_T [Fin 2; Fin 2] M) (map2 rel_P [Fin 2; Fin 2] M)
                    (map2 rel_rho [Fin 2; Fin 2] M) (map2 rel_P0 [Fin 2; Fin 2] M)
                    (map2 rel_P1 [Fin 2; Fin 2] M)))
    else Raise (ValueError msg_put).
Proof.
  apply (proj1 (@X14_masked_modes_on_arrays (fun _ => NaN) [Fin 2; Fin 2]
                  [Fin 0.5; Fin 0.8] eq_refl (le_n 2)
                  ltac:(constructor; [fsimpl; reflexivity
                                     | constructor; [fsimpl; reflexivity | constructor]]))).
  cbn [rejects map map2 any existsb]. rewrite lowerbound_2. fsimpl. reflexivity.
Defined.

(** X15: the mode string matters only through the input mode it selects:
    two strings that select the same mode (as ["m2"] and ["down"]), or none,
    give the same result on the same inputs. *)
Theorem X15_shock_mode_aliases junk (gamma flow : ndarray) (m1 m2 : string) :
  mode_of m1 = mode_of m2 ->
  flownormalshock junk gamma flow m1 = flownormalshock junk gamma flow m2.
Proof.
  intros Hm. unfold flownormalshock. rewrite !solve_mach_modes, Hm. reflexivity.
Qed.

Lemma X15_shock_mode_aliases_witness :
  flownormalshock (fun _ => NaN) [Fin 1.4] [Fin 0.5] "m2"
  = flownormalshock (fun _ => NaN) [Fin 1.4] [Fin 0.5] "down".
Proof. apply X15_shock_mode_aliases. reflexivity. Defined.

Lemma shock_any_bcast (p : f64 -> bool) (n : nat) (x : ndarray) :
  any (map p x) = false -> any (map p (bcast n x)) = false.
Proof.
  intros H. apply any_map_false in H. apply any_map_false.
  now apply IsentropicClaims.Forall_bcast.
Qed.

(** What an array call returns, element by element *)
Lemma shock_array_call junk (u : f64) (gamma flow : ndarray) (mtype : string)
    (r : shock7 ndarray) :
  gamma <> [] -> flow <> [] ->
  flownormalshock junk gamma flow mtype = Ok (Arrays r) ->
  let n := bshape gamma flow in
  let gamma' := bcast n gamma in
  let flow' := bcast n flow in
  exists m,
    mode_of mtype = Some m /\
    List.length gamma' = n /\ List.length flow' = n /\
    any (map (fun g0 => g0 <=? Fin 1) gamma') = false /\
    rejects m gamma' flow' = false /\
    r = let M := map2 (mach_elem u m) gamma' flow' in
        Shock7 M (map2 rel_M2 gamma' M) (map2 rel_T gamma' M)
          (map2 rel_P gamma' M) (map2 rel_rho gamma' M)
          (map2 rel_P0 gamma' M) (map2 rel_P1 gamma' M).
Proof.
  intros Hg Hf E n gamma' flow'.
  unfold flownormalshock in E.
  destruct (any (map (fun g0 => g0 <=? Fin 1) gamma)) eqn:Eg; [discriminate|].
  destruct ((1 <? size gamma)%nat && (1 <? size flow)%nat
            && negb (size gamma =? size flow)%nat) eqn:Es; [discriminate|].
  destruct (@IsentropicFacts.broadcast_shapes gamma flow Hg Hf Es) as [Lg Lf].
  cbv zeta in E.
  fold (bshape gamma flow) in E, Lg, Lf. fold n in E, Lg, Lf.
  fold gamma' in E, Lg. fold flow' in E, Lf.
  assert (Le : List.length (empty junk n) = n).
  { unfold empty. now rewrite length_map, length_seq. }
  destruct (Nat.eq_dec n 1) as [H1|H1].
  - exfalso.
    destruct (@IsentropicClaims.length_one _ gamma') as [g0 Eg0]; [congruence|].
    destruct (@IsentropicClaims.length_one _ flow') as [f0 Ef0]; [congruence|].
    destruct (@IsentropicClaims.length_one _ (empty junk n)) as [u0 Eu0]; [congruence|].
    rewrite Eg0, Ef0, Eu0, solve_mach_single in E.
    destruct (mode_of mtype) as [m|]; [|discriminate].
    destruct (rejects m [g0] [f0]); [discriminate|].
    cbn [bind size List.length Nat.eqb] in E. apply Ok_inj in E. discriminate E.
  - rewrite solve_mach_modes in E.
    destruct (mode_of mtype) as [m|]; [|discriminate].
    destruct (rejects m gamma' flow') eqn:Er; [discriminate|].
    match type of E with
    | bind ?x _ = _ => destruct x as [M|e] eqn:EM; [|discriminate]
    end.
    apply (@solve_mach_arrays u _ _ _ _ n Le Lg Lf H1) in EM.
    cbn [bind] in E.
    assert (LM : List.length M = n).
    { subst M. now apply length_map2_eq. }
    replace ((size M =? 1)%nat) with false in E
      by (symmetry; apply Nat.eqb_neq; unfold size; congruence).
    apply Ok_inj, Arrays_inj in E.
    exists m. split; [reflexivity|]. split; [exact Lg|]. split; [exact Lf|].
    split; [now apply shock_any_bcast|]. split; [exact Er|].
    cbv zeta. rewrite <- EM. now symmetry.
Qed.

(** A pair of arrays that passes the validation of its mode passes it
    element by element. *)
Lemma shock_rejects_nth (m : mode) (gamma flow : ndarray) (j : nat) :
  List.length gamma = List.length flow -> (j < List.length flow)%nat ->
  rejects m gamma flow = false ->
  rejects m [nth j gamma NaN] [nth j flow NaN] = false.
Proof.
  intros L Hj H.
  destruct (rejects m [nth j gamma NaN] [nth j flow NaN]) eqn:E; [|reflexivity].
  rewrite (@ErrorClaims.shock_rejects m gamma flow j L Hj) in H; [discriminate|].
  destruct m; cbn [rejects map map2 any existsb] in E;
    rewrite ?orb_false_r in E; exact E.
Qed.

(** X16: an array call that returns agrees, element by element, with the
    scalar calls, in every mode: element [j] of the seven arrays it returns
    is what the call on the [j]-th specific heat ratio and the [j]-th flow
    value returns, whatever [sp.empty] holds there. *)
Theorem X16_shock_array_call_elementwise junk junk' (gamma flow : ndarray)
    (mtype : string) (r : shock7 ndarray) (j : nat) :
  gamma <> [] -> flow <> [] ->
  flownormalshock junk gamma flow mtype = Ok (Arrays r) ->
  let n := bshape gamma flow in
  (j < n)%nat ->
  List.length (out_M r) = n /\
  flownormalshock junk' [nth j (bcast n gamma) NaN] [nth j (bcast n flow) NaN] mtype
  = Ok (Scalars (Shock7 (nth j (out_M r) NaN) (nth j (out_M2 r) NaN)
                   (nth j (out_T r) NaN) (nth j (out_P r) NaN)
                   (nth j (out_rho r) NaN) (nth j (out_P0 r) NaN)
                   (nth j (out_P1 r) NaN))).
Proof.
  intros Hg Hf E n Hj.
  destruct (@shock_array_call junk (junk' 0%nat) gamma flow mtype r Hg Hf E)
    as (m & Em & Lg & Lf & Vg & Vf & Er).
  fold n in Lg, Lf, Vg, Vf, Er.
  set (gamma' := bcast n gamma) in *. set (flow' := bcast n flow) in *.
  assert (LM : List.length (map2 (mach_elem (junk' 0%nat) m) gamma' flow') = n).
  { now apply length_map2_eq. }
  subst r. cbv zeta.
  cbn [out_M out_M2 out_T out_P out_rho out_P0 out_P1].
  split; [exact LM|].
  rewrite (@shock_scalar_call junk' (nth j gamma' NaN) (nth j flow' NaN) mtype m).
  - cbv zeta.
    rewrite !(@nth_map2 _ _ _ _ gamma' _ j NaN NaN NaN) by congruence.
    reflexivity.
  - apply any_map_false in Vg. rewrite Forall_forall in Vg.
    apply Vg, nth_In. lia.
  - assumption.
  - apply shock_rejects_nth; [congruence | lia | assumption].
Qed.

Lemma X16_shock_array_call_elementwise_witness :
  exists r,
    flownormalshock (fun _ => NaN) [Fin 1.4; Fin 1.4] [Fin 2; Fin 3] "mach"
    = Ok (Arrays r) /\
    List.length (out_M r) = 2%nat /\
    flownormalshock (fun _ => PInf)
      [nth 1 (bcast 2 [Fin 1.4; Fin 1.4]) NaN] [nth 1 (bcast 2 [Fin 2; Fin 3]) NaN]
      "mach"
    = Ok (Scalars (Shock7 (nth 1 (out_M r) NaN) (nth 1 (out_M2 r) NaN)
                     (nth 1 (out_T r) NaN) (nth 1 (out_P r) NaN)
                     (nth 1 (out_rho r) NaN) (nth 1 (out_P0 r) NaN)
                     (nth 1 (out_P1 r) NaN))).
Proof.
  assert (Hg : gamma_valid [Fin 1.4; Fin 1.4]).
  { constructor; [fsimpl; reflexivity
                 | constructor; [fsimpl; reflexivity | constructor]]. }
  assert (E : flownormalshock (fun _ => NaN) [Fin 1.4; Fin 1.4] [Fin 2; Fin 3] "mach"
              = Ok (Arrays
                      (let M := [Fin 2; Fin 3] in
                       let gamma := [Fin 1.4; Fin 1.4] in
                       Shock7 M (map2 rel_M2 gamma M) (map2 rel_T gamma M)
                         (map2 rel_P gamma M) (map2 rel_rho gamma M)
                         (map2 rel_P0 gamma M) (map2 rel_P1 gamma M)))).
  { rewrite (@shock_same_shape _ [Fin 1.4; Fin 1.4] [Fin 2; Fin 3] "mach"
               eq_refl (le_n 2) Hg).
    rewrite solve_mach_modes.
    replace (mode_of "mach") with (Some Mach) by reflexivity.
    cbn [rejects map any existsb]. fsimpl. reflexivity. }
  eexists. split; [exact E|].
  apply (@X16_shock_array_call_elementwise (fun _ => NaN) (fun _ => PInf)
           [Fin 1.4; Fin 1.4] [Fin 2; Fin 3] "mach" _ 1%nat);
    [discriminate | discriminate | exact E |].
  cbn [bshape size List.length Nat.ltb Nat.leb]. lia.
Defined.

End ShockArrays.

(* ================================================================= *)
(** * atmosisa: further properties *)

Module AtmosProperties.

Import Atmos AtmosSpec AtmosProfileSpec AtmosFacts AtmosClaims.

Local Abbreviation real := Rdefinitions.R.

(** ** Calls on arrays *)

Lemma nth_map_in {A B} (f : A -> B) (l : list A) (j : nat) (d : A) (d' : B) :
  (j < List.length l)%nat -> nth j (map f l) d' = f (nth j l d).
Proof.
  intros Hj. rewrite (nth_indep _ d' (f d)) by now rewrite length_map.
  apply map_nth.
Qed.

(** What a call returns on an array that is not of size 1 *)
Lemma atmos_array_call (h : ndarray) (mtype : string) (T0 P0 : f64) :
  mtype = "geop"%string \/ mtype = "geom"%string -> size h <> 1%nat ->
  exists T P : ndarray,
    atmosisa h mtype T0 P0
    = Ok (Arrays (Atm4 T (map (fun t => sqrt (Fin 1.4 * R * t)) T) P
                    (map2 (fun p t => p / (R * t)) P T))) /\
    List.length T = size h /\ List.length P = size h /\
    forall j, (j < size h)%nat ->
      (nth j T NaN, nth j P NaN)
      = sample T0 P0 7 (nth j (geopotential mtype h) NaN).
Proof.
  intros Hm Hn.
  assert (Hh : atmosisa h mtype T0 P0
               = (let h' := geopotential mtype h in
                  st <- walk (seq 0 7) h'
                          (State (map (fun o => o * T0) (ones (size h')))
                                 (map (fun o => o * P0) (ones (size h'))) T0 P0) ;;
                  if (size h' =? 1)%nat
                  then Ok (Scalars (Atm4 (flat0 (sT st))
                                      (sqrt (Fin 1.4 * R * flat0 (sT st)))
                                      (flat0 (sP st))
                                      (flat0 (sP st) / (R * flat0 (sT st)))))
                  else Ok (Arrays (Atm4 (sT st)
                                     (map (fun t => sqrt (Fin 1.4 * R * t)) (sT st))
                                     (sP st)
                                     (map2 (fun p t => p / (R * t)) (sP st) (sT st)))))).
  { unfold atmosisa, geopotential.
    destruct Hm as [-> | ->]; reflexivity. }
  rewrite Hh. cbv zeta.
  assert (Hs : size (geopotential mtype h) = size h).
  { unfold geopotential, size. destruct (String.eqb mtype "geop"); [reflexivity|].
    apply length_map. }
  destruct (walk_from_sea_level T0 P0 (geopotential mtype h))
    as (st & E & HT & HP & Hel).
  rewrite E. cbn [bind]. rewrite Hs.
  replace ((size h =? 1)%nat) with false by (symmetry; now apply Nat.eqb_neq).
  exists (sT st), (sP st). split; [reflexivity|].
  unfold size in *. split; [congruence|]. split; [congruence|].
  intros j Hj. apply Hel. congruence.
Qed.

(** The value of a call read off the sample function *)
Lemma atmos_scalar_sample (x : f64) (mtype : string) (T0 P0 : f64) :
  mtype = "geop"%string \/ mtype = "geom"%string ->
  atmosisa [x] mtype T0 P0
  = let (T, P) := sample T0 P0 7 (nth 0 (geopotential mtype [x]) NaN) in
    Ok (Scalars (Atm4 T (sqrt (Fin 1.4 * R * T)) P (P / (R * T)))).
Proof.
  intros Hm. rewrite atmos_scalar_call. unfold geopotential.
  destruct Hm as [-> | ->]; reflexivity.
Qed.

Lemma nth_geopotential (mtype : string) (h : ndarray) (j : nat) :
  (j < size h)%nat ->
  nth j (geopotential mtype h) NaN
  = nth 0 (geopotential mtype [nth j h NaN]) NaN.
Proof.
  intros Hj. unfold geopotential.
  destruct (String.eqb mtype "geop"); [reflexivity|].
  cbn [map nth].
  now rewrite (@nth_map_in _ _ (fun x => x * (Re / (Re + x))) h j NaN NaN).
Qed.

(** An array call, element by element *)
Lemma atmos_elementwise (h : ndarray) (mtype : string) (T0 P0 : f64)
    (r : atm4 ndarray) (j : nat) :
  atmosisa h mtype T0 P0 = Ok (Arrays r) -> (j < size h)%nat ->
  List.length (out_T r) = size h /\
  atmosisa [nth j h NaN] mtype T0 P0
  = Ok (Scalars (Atm4 (nth j (out_T r) NaN) (nth j (out_a r) NaN)
                   (nth j (out_P r) NaN) (nth j (out_rho r) NaN))).
Proof.
  intros E Hj.
  assert (Hm : mtype = "geop"%string \/ mtype = "geom"%string).
  { unfold atmosisa in E.
    destruct (String.eqb mtype "geop") eqn:E1; [left; now apply String.eqb_eq|].
    destruct (String.eqb mtype "geom") eqn:E2; [right; now apply String.eqb_eq|].
    discriminate E. }
  assert (Hn : size h <> 1%nat).
  { intros H1. destruct (@IsentropicClaims.length_one _ h H1) as [x ->].
    rewrite atmos_scalar_sample in E by assumption.
    destruct (sample T0 P0 7 _). apply Ok_inj in E. discriminate E. }
  destruct (@atmos_array_call h mtype T0 P0 Hm Hn) as (T & P & E' & LT & LP & Hel).
  rewrite E' in E. apply Ok_inj, Arrays_inj in E. subst r.
  cbn [out_T out_a out_P out_rho]. split; [exact LT|].
  rewrite atmos_scalar_sample by assumption.
  rewrite <- nth_geopotential by assumption.
  rewrite <- (Hel j Hj).
  rewrite (@nth_map_in _ _ _ T j NaN NaN) by lia.
  rewrite (@nth_map2 _ _ _ _ P T j NaN NaN NaN) by lia.
  reflexivity.
Qed.

(** X17: with a recognised mode string [atmosisa] never raises, whatever
    the altitudes are ([nan], infinite, below the centre of the Earth) and
    whatever the sea-level conditions: a single altitude gives four scalars,
    and any other array gives four arrays of its length. *)
Theorem X17_atmosisa_never_raises (h : ndarray) (mtype : string) (T0 P0 : f64) :
  mtype = "geop"%string \/ mtype = "geom"%string ->
  (size h = 1%nat -> exists r, atmosisa h mtype T0 P0 = Ok (Scalars r)) /\
  (size h <> 1%nat ->
   exists r, atmosisa h mtype T0 P0 = Ok (Arrays r) /\
             List.length (out_T r) = size h /\ List.length (out_a r) = size h /\
             List.length (out_P r) = size h /\ List.length (out_rho r) = size h).
Proof.
  intros Hm. split.
  - intros H1. destruct (@IsentropicClaims.length_one _ h H1) as [x ->].
    rewrite atmos_scalar_sample by assumption.
    destruct (sample T0 P0 7 _). eexists. reflexivity.
  - intros Hn.
    destruct (@atmos_array_call h mtype T0 P0 Hm Hn) as (T & P & E & LT & LP & _).
    eexists. split; [exact E|]. cbn [out_T out_a out_P out_rho].
    rewrite length_map, length_map2 by congruence. auto.
Qed.

Lemma X17_atmosisa_never_raises_witness :
  exists r, atmosisa [NaN] "geom" NaN NaN = Ok (Scalars r).
Proof.
  apply (proj1 (@X17_atmosisa_never_raises [NaN] "geom" NaN NaN
                  (or_intror eq_refl)) eq_refl).
Defined.

(** X18: an array call agrees, element by element, with the scalar calls:
    element [j] of the four arrays it returns is what the call on the
    [j]-th altitude alone returns, in both altitude conventions. *)
Theorem X18_atmosisa_array_elementwise (h : ndarray) (mtype : string)
    (T0 P0 : f64) (r : atm4 ndarray) (j : nat) :
  atmosisa h mtype T0 P0 = Ok (Arrays r) -> (j < size h)%nat ->
  List.length (out_T r) = size h /\
  atmosisa [nth j h NaN] mtype T0 P0
  = Ok (Scalars (Atm4 (nth j (out_T r) NaN) (nth j (out_a r) NaN)
                   (nth j (out_P r) NaN) (nth j (out_rho r) NaN))).
Proof. intros E Hj. now apply atmos_elementwise. Qed.

Lemma X18_atmosisa_array_elementwise_witness :
  exists r,
    atmosisa [Fin 0; Fin 12000] "geom" (Fin 288.15) (Fin 101325) = Ok (Arrays r) /\
    List.length (out_T r) = size [Fin 0; Fin 12000] /\
    atmosisa [nth 1 [Fin 0; Fin 12000] NaN] "geom" (Fin 288.15) (Fin 101325)
    = Ok (Scalars (Atm4 (nth 1 (out_T r) NaN) (nth 1 (out_a r) NaN)
                     (nth 1 (out_P r) NaN) (nth 1 (out_rho r) NaN))).
Proof.
  destruct (@atmos_array_call [Fin 0; Fin 12000] "geom" (Fin 288.15) (Fin 101325)
              (or_intror eq_refl) ltac:(discriminate)) as (T & P & E & _).
  eexists. split; [exact E|].
  apply (@X18_atmosisa_array_elementwise [Fin 0; Fin 12000] "geom" (Fin 288.15)
           (Fin 101325) _ 1%nat E).
  cbn [size List.length]. lia.
Defined.

(** ** The layer of a finite altitude *)

Local Open Scope R_scope.

Lemma selected_fin (i : nat) (x hb : real) :
  (1 <= i)%nat -> at_ Hb i = Fin hb ->
  selected i (Fin x) = Rlt_b hb x.
Proof.
  intros Hi E. unfold selected. destruct i as [|i]; [lia|].
  cbn [Nat.eqb]. rewrite E. reflexivity.
Qed.

(** The sample whose last selecting layer is [k] gets the values of
    layer [k]. *)
Lemma sample_in_layer (k : nat) (x T0 P0 : f64) :
  (k <= 6)%nat -> selected k x = true ->
  ((k < 6)%nat -> selected (S k) x = false) ->
  sample T0 P0 7 x
  = (layer_T k (fst (base T0 P0 k)) x,
     layer_P k (fst (base T0 P0 k)) (snd (base T0 P0 k)) x).
Proof.
  intros Hk Hs Hn.
  assert (E : sample T0 P0 7 x = sample T0 P0 (S k) x).
  { destruct (Nat.eq_dec k 6) as [->|H6]; [reflexivity|].
    replace 7%nat with (S k + (6 - k))%nat by lia.
    apply not_selected_later; [lia|]. apply Hn. lia. }
  rewrite E. cbn [sample]. rewrite Hs.
  destruct (base T0 P0 k). reflexivity.
Qed.

(** The layer of each finite altitude *)
Lemma layer_of_altitude (x : real) :
  exists k : nat,
    (k <= 6)%nat /\ selected k (Fin x) = true /\
    ((k < 6)%nat -> selected (S k) (Fin x) = false) /\
    ((k = 0%nat /\ x <= 11000) \/ (k = 1%nat /\ 11000 < x <= 20000) \/
     (k = 2%nat /\ 20000 < x <= 32000) \/ (k = 3%nat /\ 32000 < x <= 47000) \/
     (k = 4%nat /\ 47000 < x <= 51000) \/ (k = 5%nat /\ 51000 < x <= 71000) \/
     (k = 6%nat /\ 71000 < x)).
Proof.
  destruct Hb_values as (H0 & H1 & H2 & H3 & H4 & H5 & H6 & H7).
  assert (S0 : selected 0 (Fin x) = true) by reflexivity.
  assert (Sel : forall i hb, (1 <= i)%nat -> at_ Hb i = Fin hb ->
            (hb < x -> selected i (Fin x) = true) /\
            (x <= hb -> selected i (Fin x) = false)).
  { intros i hb Hi E. rewrite (@selected_fin i x hb Hi E).
    split; intros H; [apply Rlt_b_true | apply Rlt_b_false]; lra. }
  destruct (Sel 1%nat _ ltac:(lia) H1) as [A1 B1].
  destruct (Sel 2%nat _ ltac:(lia) H2) as [A2 B2].
  destruct (Sel 3%nat _ ltac:(lia) H3) as [A3 B3].
  destruct (Sel 4%nat _ ltac:(lia) H4) as [A4 B4].
  destruct (Sel 5%nat _ ltac:(lia) H5) as [A5 B5].
  destruct (Sel 6%nat _ ltac:(lia) H6) as [A6 B6].
  destruct (Rle_dec x 11000).
  { exists 0%nat. split; [lia|]. split; [exact S0|].
    split; [intros _; apply B1; lra|]. left. split; [reflexivity | lra]. }
  destruct (Rle_dec x 20000).
  { exists 1%nat. split; [lia|]. split; [apply A1; lra|].
    split; [intros _; apply B2; lra|]. right; left. split; [reflexivity | lra]. }
  destruct (Rle_dec x 32000).
  { exists 2%nat. split; [lia|]. split; [apply A2; lra|].
    split; [intros _; apply B3; lra|].
    do 2 right; left. split; [reflexivity | lra]. }
  destruct (Rle_dec x 47000).
  { exists 3%nat. split; [lia|]. split; [apply A3; lra|].
    split; [intros _; apply B4; lra|].
    do 3 right; left. split; [reflexivity | lra]. }
  destruct (Rle_dec x 51000).
  { exists 4%nat. split; [lia|]. split; [apply A4; lra|].
    split; [intros _; apply B5; lra|].
    do 4 right; left. split; [reflexivity | lra]. }
  destruct (Rle_dec x 71000).
  { exists 5%nat. split; [lia|]. split; [apply A5; lra|].
    split; [intros _; apply B6; lra|].
    do 5 right; left. split; [reflexivity | lra]. }
  exists 6%nat. split; [lia|]. split; [apply A6; lra|].
  split; [intros; lia|]. do 6 right. split; [reflexivity | lra].
Qed.

Lemma offset_values (x : real) :
  (x <= 11000 -> isa_temperature_offset x = -0.0065 * x) /\
  (11000 < x <= 20000 -> isa_temperature_offset x = -71.5) /\
  (20000 < x <= 32000 -> isa_temperature_offset x = -71.5 + 0.001 * (x - 20000)) /\
  (32000 < x <= 47000 -> isa_temperature_offset x = -59.5 + 0.0028 * (x - 32000)) /\
  (47000 < x <= 51000 -> isa_temperature_offset x = -17.5) /\
  (51000 < x <= 71000 -> isa_temperature_offset x = -17.5 - 0.0028 * (x - 51000)) /\
  (71000 < x -> isa_temperature_offset x = -73.5 - 0.002 * (x - 71000)).
Proof.
  unfold isa_temperature_offset.
  repeat match goal with |- context [Rle_dec ?a ?b] => destruct (Rle_dec a b) end;
    repeat split; intros; lra.
Qed.

(** The temperature of a sample at a finite geopotential altitude *)
Lemma temperature_at (x t0 : real) (P0 : f64) :
  fst (sample (Fin t0) P0 7 (Fin x)) = Fin (t0 + isa_temperature_offset x).
Proof.
  destruct Hb_values as (H0 & H1 & H2 & H3 & H4 & H5 & H6 & H7).
  destruct Lr_values as (L0 & L1 & L2 & L3 & L4 & L5 & L6).
  destruct (base_T t0 P0) as (E0 & E1 & E2 & E3 & E4 & E5 & E6).
  destruct (offset_values x) as (O0 & O1 & O2 & O3 & O4 & O5 & O6).
  destruct (layer_of_altitude x) as (k & Hk & Hs & Hn & Hc).
  rewrite (@sample_in_layer k (Fin x) (Fin t0) P0 Hk Hs Hn). cbn [fst].
  destruct Hc as [[-> Hx] | [[-> Hx] | [[-> Hx] | [[-> Hx] | [[-> Hx] | [[-> Hx] | [-> Hx]]]]]]].
  - rewrite E0, (@layer_T_lapse 0 _ _ _ _ L0 ltac:(lra) H0), O0 by lra.
    f_equal. lra.
  - rewrite E1, (@layer_T_iso 1 _ _ L1), O1 by lra. f_equal. lra.
  - rewrite E2, (@layer_T_lapse 2 _ _ _ _ L2 ltac:(lra) H2), O2 by lra.
    f_equal. lra.
  - rewrite E3, (@layer_T_lapse 3 _ _ _ _ L3 ltac:(lra) H3), O3 by lra.
    f_equal. lra.
  - rewrite E4, (@layer_T_iso 4 _ _ L4), O4 by lra. f_equal. lra.
  - rewrite E5, (@layer_T_lapse 5 _ _ _ _ L5 ltac:(lra) H5), O5 by lra.
    f_equal. lra.
  - rewrite E6, (@layer_T_lapse 6 _ _ _ _ L6 ltac:(lra) H6), O6 by lra.
    f_equal. lra.
Qed.

(** The geopotential altitude of a finite geometric altitude other than
    minus the radius of the Earth *)
Lemma geopotential_fin (x : real) :
  x <> -6356766.0 ->
  (Fin x * (Re / (Re + Fin x)))%f64 = Fin (x * (6356766.0 / (6356766.0 + x))).
Proof.
  intros Hx. unfold Re. rewrite add_fin, div_fin by lra. now rewrite mul_fin.
Qed.

(** X19: at every finite altitude, in every layer, the temperature returned
    is the sea-level temperature [T0] plus an offset that depends on the
    geopotential altitude alone: the piecewise linear profile of the
    standard atmosphere (-6.5 K/km up to 11 km, constant to 20 km, +1 K/km
    to 32 km, +2.8 K/km to 47 km, constant to 51 km, -2.8 K/km to 71 km,
    -2 K/km above), whatever the sea-level pressure is.  In the geometric
    convention the profile is read at [h * Re / (Re + h)]. *)
Theorem X19_temperature_profile (x t0 : real) (P0 : f64) :
  (exists r,
     atmosisa [Fin x] "geop" (Fin t0) P0 = Ok (Scalars r) /\
     out_T r = Fin (t0 + isa_temperature_offset x)) /\
  (x <> -6356766.0 ->
   exists r,
     atmosisa [Fin x] "geom" (Fin t0) P0 = Ok (Scalars r) /\
     out_T r
     = Fin (t0 + isa_temperature_offset (x * (6356766.0 / (6356766.0 + x))))).
Proof.
  split; [|intros Hx]; rewrite atmos_scalar_call;
    cbn [String.eqb Ascii.eqb Bool.eqb]; rewrite ?geopotential_fin by assumption.
  - pose proof (temperature_at x t0 P0) as E.
    destruct (sample (Fin t0) P0 7 (Fin x)) as [T P]. cbn [fst] in E.
    eexists. split; [reflexivity|]. exact E.
  - pose proof (temperature_at (x * (6356766.0 / (6356766.0 + x))) t0 P0) as E.
    destruct (sample (Fin t0) P0 7 _) as [T P]. cbn [fst] in E.
    eexists. split; [reflexivity|]. exact E.
Qed.

Lemma X19_temperature_profile_witness :
  exists r,
    atmosisa [Fin 5000] "geom" (Fin 288.15) (Fin 101325) = Ok (Scalars r) /\
    out_T r
    = Fin (288.15
           + isa_temperature_offset (5000 * (6356766.0 / (6356766.0 + 5000)))).
Proof.
  apply (proj2 (X19_temperature_profile 5000 288.15 (Fin 101325))). lra.
Defined.

(** X20: the troposphere, continued below 0 m: at every geopotential
    altitude [h <= 11 km], negative ones included, with a positive
    sea-level temperature [T0] and as long as [T = T0 - 0.0065 h] is
    positive, the call returns [T], the speed of sound [sqrt (1.4 R T)], the
    pressure [P = P0 * (T / T0) ^ (g / (0.0065 R))] and the density
    [P / (R T)]. *)
Theorem X20_troposphere (x t0 p0 : real) :
  x <= 11000 -> 0 < t0 -> 0.0065 * x < t0 ->
  let T := t0 - 0.0065 * x in
  let P := p0 * Rpower (T / t0) (9.80665 / (0.0065 * 287.053)) in
  atmosisa [Fin x] "geop" (Fin t0) (Fin p0)
  = Ok (Scalars (Atm4 (Fin T) (Fin (R_sqrt.sqrt (1.4 * 287.053 * T)))
                   (Fin P) (Fin (P / (287.053 * T))))).
Proof.
  intros Hx Ht0 HT T P.
  destruct Hb_values as (H0 & H1 & _).
  destruct Lr_values as (L0 & _).
  rewrite atmos_scalar_call. cbn [String.eqb Ascii.eqb Bool.eqb].
  rewrite (@sample_in_layer 0 (Fin x) (Fin t0) (Fin p0)); [|lia|reflexivity|].
  2:{ intros _. rewrite (@selected_fin 1 x _ ltac:(lia) H1).
      apply Rlt_b_false. lra. }
  cbn [base fst snd].
  assert (ET : layer_T 0 (Fin t0) (Fin x) = Fin T).
  { rewrite (@layer_T_lapse 0 _ _ _ _ L0 ltac:(lra) H0). f_equal. unfold T. lra. }
  assert (HTp : 0 < T) by (unfold T; lra).
  assert (EP : layer_P 0 (Fin t0) (Fin p0) (Fin x) = Fin P).
  { unfold layer_P. rewrite ET, L0. cbn [eqb]. rewrite Req_b_false by lra.
    unfold R, g. farith. rewrite pow_pos_gen by (apply Rdiv_lt_0_compat; lra).
    farith. unfold P.
    match goal with
    | |- Fin (_ * Rpower _ ?e) = _ =>
        replace e with (9.80665 / (0.0065 * 287.053)) by lra
    end.
    reflexivity. }
  rewrite ET, EP. unfold R. farith.
  rewrite sqrt_fin by nra. reflexivity.
Qed.

Lemma X20_troposphere_witness :
  let T := 288.15 - 0.0065 * (-2000) in
  let P := 101325 * Rpower (T / 288.15) (9.80665 / (0.0065 * 287.053)) in
  atmosisa [Fin (-2000)] "geop" (Fin 288.15) (Fin 101325)
  = Ok (Scalars (Atm4 (Fin T) (Fin (R_sqrt.sqrt (1.4 * 287.053 * T)))
                   (Fin P) (Fin (P / (287.053 * T))))).
Proof. apply X20_troposphere; lra. Defined.

(** X21: the sea-level conditions are what the call returns at sea level:
    at the altitude 0, in both altitude conventions, the temperature and
    the pressure returned are [T0] and [P0] themselves, for every finite
    non-zero [T0] and every [P0]. *)
Theorem X21_sea_level (mtype : string) (t0 : real) (P0 : f64) :
  mtype = "geop"%string \/ mtype = "geom"%string -> t0 <> 0 ->
  atmosisa [Fin 0] mtype (Fin t0) P0
  = Ok (Scalars (Atm4 (Fin t0) (sqrt (Fin 1.4 * R * Fin t0)) P0
                   (P0 / (R * Fin t0))))%f64.
Proof.
  intros Hm Ht0.
  destruct Hb_values as (H0 & H1 & _).
  destruct Lr_values as (L0 & _).
  assert (Es : sample (Fin t0) P0 7 (Fin 0) = (Fin t0, P0)).
  { rewrite (@sample_in_layer 0 (Fin 0) (Fin t0) P0); [|lia|reflexivity|].
    2:{ intros _. rewrite (@selected_fin 1 0 _ ltac:(lia) H1).
        apply Rlt_b_false. lra. }
    cbn [base fst snd].
    assert (ET : layer_T 0 (Fin t0) (Fin 0) = Fin t0).
    { rewrite (@layer_T_lapse 0 _ _ _ _ L0 ltac:(lra) H0). f_equal. lra. }
    unfold layer_P. rewrite ET, L0. cbn [eqb]. rewrite Req_b_false by lra.
    rewrite div_fin by assumption.
    replace (t0 / t0) with 1 by (field; assumption).
    now rewrite pow_one_base, mul_one_r. }
  rewrite atmos_scalar_call.
  assert (Eg : (Fin 0 * (Re / (Re + Fin 0)))%f64 = Fin 0).
  { rewrite geopotential_fin by lra. f_equal. lra. }
  destruct Hm as [-> | ->]; cbn [String.eqb Ascii.eqb Bool.eqb];
    rewrite ?Eg, Es; reflexivity.
Qed.

Lemma X21_sea_level_witness :
  atmosisa [Fin 0] "geom" (Fin 300) PInf
  = Ok (Scalars (Atm4 (Fin 300) (sqrt (Fin 1.4 * R * Fin 300)) PInf
                   (PInf / (R * Fin 300))))%f64.
Proof. apply X21_sea_level; [right; reflexivity | lra]. Defined.

(** X22: no altitude is too high: above 71 km the temperature goes on
    decreasing by 2 K per km, so from the geopotential altitude
    [71000 + (T0 - 73.5) / 0.002] on (178.325 km with the default [T0]) the
    call returns a negative absolute temperature and [nan] for the speed
    of sound, without raising. *)
Theorem X22_negative_temperature (x t0 : real) (P0 : f64) :
  71000 < x -> t0 - 73.5 < 0.002 * (x - 71000) ->
  exists r t,
    atmosisa [Fin x] "geop" (Fin t0) P0 = Ok (Scalars r) /\
    out_T r = Fin t /\ t < 0 /\ out_a r = NaN.
Proof.
  intros Hx Ht.
  pose proof (@above_mesosphere_base x t0 P0 ltac:(lra)) as E. cbv zeta in E.
  eexists. eexists. split; [exact E|]. cbn [out_T out_a].
  split; [reflexivity|]. split; [lra|].
  unfold R. rewrite !mul_fin. cbn [sqrt]. rewrite Rlt_b_true; [reflexivity|].
  nra.
Qed.

Lemma X22_negative_temperature_witness :
  exists r t,
    atmosisa [Fin 200000] "geop" (Fin 288.15) (Fin 101325) = Ok (Scalars r) /\
    out_T r = Fin t /\ t < 0 /\ out_a r = NaN.
Proof. apply X22_negative_temperature; lra. Defined.

(** No layer selects a [nan] altitude. *)
Lemma sample_nan (T0 P0 : f64) : sample T0 P0 7 NaN = (T0, P0).
Proof.
  change 7%nat with (0 + 7)%nat.
  rewrite not_selected_later; [reflexivity | lia | reflexivity].
Qed.

(** X23: a [nan] altitude is not rejected and no layer selects it: the call
    returns for it the sea-level temperature and pressure [T0] and [P0], as
    a scalar call and as an element of an array, in both altitude
    conventions. *)
Theorem X23_nan_altitude (mtype : string) (T0 P0 : f64) :
  mtype = "geop"%string \/ mtype = "geom"%string ->
  atmosisa [NaN] mtype T0 P0
  = Ok (Scalars (Atm4 T0 (sqrt (Fin 1.4 * R * T0)) P0 (P0 / (R * T0))))%f64 /\
  forall (h : ndarray) (r : atm4 ndarray) (j : nat),
    atmosisa h mtype T0 P0 = Ok (Arrays r) -> (j < size h)%nat ->
    nth j h NaN = NaN ->
    nth j (out_T r) NaN = T0 /\ nth j (out_P r) NaN = P0.
Proof.
  intros Hm.
  assert (E : atmosisa [NaN] mtype T0 P0
              = Ok (Scalars (Atm4 T0 (sqrt (Fin 1.4 * R * T0)) P0
                               (P0 / (R * T0))))%f64).
  { rewrite atmos_scalar_call.
    destruct Hm as [-> | ->]; cbn [String.eqb Ascii.eqb Bool.eqb];
      cbn [mul]; now rewrite sample_nan. }
  split; [exact E|].
  intros h r j Er Hj Hn.
  destruct (@atmos_elementwise h mtype T0 P0 r j Er Hj) as [_ Ej].
  rewrite Hn, E in Ej. apply Ok_inj, Scalars_inj in Ej.
  split; [apply (f_equal (@out_T f64)) in Ej | apply (f_equal (@out_P f64)) in Ej];
    cbn [out_T out_P] in Ej; now symmetry.
Qed.

Lemma X23_nan_altitude_witness :
  atmosisa [NaN] "geop" (Fin 288.15) (Fin 101325)
  = Ok (Scalars (Atm4 (Fin 288.15) (sqrt (Fin 1.4 * R * Fin 288.15)) (Fin 101325)
                   (Fin 101325 / (R * Fin 288.15))))%f64.
Proof.
  apply (proj1 (@X23_nan_altitude "geop" (Fin 288.15) (Fin 101325)
                  (or_introl eq_refl))).
Defined.

End AtmosProperties.

(* ================================================================= *)
(** * flownormalshock: the loss of total pressure *)

Module ShockEntropy.

Import Shock ShockSpec ShockEntropySpec ShockFacts.

Local Open Scope R_scope.

(** The derivative of [ln (a * x + b)] *)
Lemma derivable_ln_affine (a b x : R) :
  0 < a * x + b ->
  derivable_pt_lim (fun z => ln (a * z + b)) x (a / (a * x + b)).
Proof.
  intros Hp.
  assert (Du : derivable_pt_lim (fun z => a * z + b) x a).
  { apply derivable_pt_lim_ext with (f := (mult_real_fct a id + fct_cte b)%F).
    - intros z. reflexivity.
    - replace a with (a * 1 + 0) at 2 by lra.
      apply derivable_pt_lim_plus; [|apply derivable_pt_lim_const].
      apply derivable_pt_lim_scal, derivable_pt_lim_id. }
  pose proof (derivable_pt_lim_comp _ ln x _ _ Du (derivable_pt_lim_ln _ Hp)) as D.
  apply derivable_pt_lim_ext with (g := fun z => ln (a * z + b)) in D;
    [|intros z; reflexivity].
  replace (a / (a * x + b)) with (/ (a * x + b) * a) by (field; lra).
  exact D.
Qed.

Lemma entropy_derivative (g0 x : R) :
  1 < g0 -> 1 <= x ->
  derivable_pt_lim (entropy_R g0) x (entropy_slope_R g0 x).
Proof.
  intros Hg Hx. unfold entropy_R, entropy_slope_R.
  assert (H1 : 0 < 2 * g0 * x + - (g0 - 1)) by nra.
  assert (H2 : 0 < 1 * x + 0) by lra.
  assert (H3 : 0 < (g0 - 1) * x + 2) by nra.
  pose proof (@derivable_ln_affine _ _ _ H1) as D1.
  pose proof (derivable_pt_lim_scal _ g0 _ _ (@derivable_ln_affine _ _ _ H2)) as D2.
  pose proof (derivable_pt_lim_scal _ g0 _ _ (@derivable_ln_affine _ _ _ H3)) as D3.
  pose proof (derivable_pt_lim_plus _ _ _ _ _
                (derivable_pt_lim_minus _ _ _ _ _ D1 D2) D3) as D.
  eapply derivable_pt_lim_ext; [|exact D].
  intros z. reflexivity.
Qed.

Lemma entropy_slope_nonneg (g0 x : R) :
  1 < g0 -> 1 <= x -> 0 <= entropy_slope_R g0 x.
Proof.
  intros Hg Hx. unfold entropy_slope_R.
  assert (H1 : 0 < 2 * g0 * x + - (g0 - 1)) by nra.
  assert (H3 : 0 < (g0 - 1) * x + 2) by nra.
  replace (2 * g0 / (2 * g0 * x + - (g0 - 1)) - g0 * (1 / (1 * x + 0))
           + g0 * ((g0 - 1) / ((g0 - 1) * x + 2)))
    with (2 * g0 * (g0 - 1) * ((x - 1) * (x - 1))
          / (x * (2 * g0 * x + - (g0 - 1)) * ((g0 - 1) * x + 2)))
    by (field; lra).
  apply Rdiv_ge_bound.
  - apply Rmult_lt_0_compat; [apply Rmult_lt_0_compat|]; lra.
  - rewrite Rmult_0_l. apply Rmult_le_pos; [nra|]. nra.
Qed.

(** The entropy does not decrease across the shock. *)
Lemma entropy_rise (g0 K : R) :
  1 < g0 -> 1 <= K -> entropy_R g0 1 <= entropy_R g0 K.
Proof.
  intros Hg [HK | <-]; [|lra].
  destruct (MVT_cor2 (entropy_R g0) (entropy_slope_R g0) 1 K HK) as (c & E & Hc).
  - intros c Hc. apply entropy_derivative; lra.
  - pose proof (@entropy_slope_nonneg g0 c Hg ltac:(lra)) as Hs.
    assert (0 <= entropy_slope_R g0 c * (K - 1)) by (apply Rmult_le_pos; lra).
    lra.
Qed.

(** [gamma * ln rho <= ln P] behind the shock *)
Lemma entropy_log (g0 K : R) :
  1 < g0 -> 1 <= K ->
  0 < 1 + (K - 1) * g0 / ((g0 + 1) / 2) /\
  g0 * ln (rho_R g0 K) <= ln (1 + (K - 1) * g0 / ((g0 + 1) / 2)).
Proof.
  intros Hg HK.
  pose proof (entropy_rise Hg HK) as H. unfold entropy_R in H.
  destruct (rho_R_bounds Hg HK) as (Hd & Hr & _).
  set (P := 1 + (K - 1) * g0 / ((g0 + 1) / 2)).
  assert (EP : P = (2 * g0 * K + - (g0 - 1)) * / (g0 + 1)) by (unfold P; field; lra).
  assert (HP : 0 < P).
  { unfold P. assert (0 <= (K - 1) * g0 / ((g0 + 1) / 2)); [|lra].
    apply Rdiv_ge_bound; nra. }
  split; [exact HP|].
  assert (Er : rho_R g0 K = (g0 + 1) * (K * / ((g0 - 1) * K + 2))).
  { unfold rho_R. field. lra. }
  assert (H1 : 0 < 2 * g0 * K + - (g0 - 1)) by nra.
  assert (H3 : 0 < (g0 - 1) * K + 2) by nra.
  rewrite EP, Er.
  rewrite !ln_mult, !ln_Rinv;
    try lra; try (apply Rinv_0_lt_compat; lra);
    try (apply Rmult_lt_0_compat; [lra | apply Rinv_0_lt_compat; lra]).
  replace (1 * 1 + 0) with 1 in H by lra. rewrite ln_1 in H.
  replace (2 * g0 * 1 + - (g0 - 1)) with (g0 + 1) in H by lra.
  replace ((g0 - 1) * 1 + 2) with (g0 + 1) in H by lra.
  replace (1 * K + 0) with K in H by lra.
  lra.
Qed.

(** The total pressure ratio on a finite Mach number *)
Lemma rel_P0_fin (g0 m : R) :
  1 < g0 -> 1 <= m ->
  let P := 1 + (m * m - 1) * g0 / ((g0 + 1) / 2) in
  rel_P0 (Fin g0) (Fin m)
  = Fin (P * Rpower (P / rho_R g0 (m * m)) (- (g0 / (g0 - 1)))).
Proof.
  intros Hg Hm P. assert (HK : 1 <= m * m) by nra.
  destruct (rho_R_bounds Hg HK) as (_ & Hr & _).
  destruct (entropy_log Hg HK) as [HP _]. fold P in HP.
  unfold rel_P0, rel_T.
  rewrite shock_rel_P_fin, shock_rel_rho_fin, shock_gc_fin by (assumption || lra).
  fold P. rewrite div_fin, opp_fin by lra.
  rewrite pow_pos_gen by (apply Rdiv_lt_0_compat; lra).
  now rewrite mul_fin.
Qed.

(** X24: a shock never gains total pressure: for gamma > 1 and a finite
    upstream Mach number [m >= 1] the total pressure ratio returned is a
    finite number in (0, 1] (the entropy [ln (P / rho^gamma)] does not
    decrease across the shock). *)
Theorem X24_total_pressure_loss junk (g0 m : R) :
  1 < g0 -> 1 <= m ->
  exists r p0,
    flownormalshock junk [Fin g0] [Fin m] "mach" = Ok (Scalars r) /\
    out_M r = Fin m /\ out_P0 r = Fin p0 /\ 0 < p0 <= 1.
Proof.
  intros Hg Hm. assert (HK : 1 <= m * m) by nra.
  destruct (rho_R_bounds Hg HK) as (_ & Hr & _).
  destruct (entropy_log Hg HK) as [HP L].
  do 2 eexists.
  rewrite (@shock_scalar_call junk (Fin g0) (Fin m) "mach" Mach).
  2:{ fsimpl. reflexivity. }
  2:{ reflexivity. }
  2:{ cbn [rejects map any existsb]. fsimpl. reflexivity. }
  cbv zeta. cbn [mach_elem]. split; [reflexivity|]. cbn [out_M out_P0].
  split; [reflexivity|]. rewrite rel_P0_fin by assumption. cbv zeta.
  split; [reflexivity|].
  set (P := 1 + (m * m - 1) * g0 / ((g0 + 1) / 2)) in *.
  set (r := rho_R g0 (m * m)) in *.
  assert (Hq : 0 < P / r) by (apply Rdiv_lt_0_compat; lra).
  split.
  - apply Rmult_lt_0_compat; [exact HP | unfold Rpower; apply exp_pos].
  - assert (E : P * Rpower (P / r) (- (g0 / (g0 - 1)))
                = Rtrigo_def.exp (- ((ln P - g0 * ln r) / (g0 - 1)))).
    { unfold Rpower. rewrite <- (exp_ln P HP) at 1. rewrite <- exp_plus.
      f_equal.
      assert (El : ln (P / r) = ln P - ln r).
      { unfold Rdiv. rewrite ln_mult, ln_Rinv;
          [ lra | lra | exact HP | apply Rinv_0_lt_compat; lra ]. }
      rewrite El. field. lra. }
    rewrite E.
    assert (0 <= (ln P - g0 * ln r) / (g0 - 1)).
    { apply Rdiv_ge_bound; lra. }
    assert (H0 : - ((ln P - g0 * ln r) / (g0 - 1)) <= 0) by lra.
    apply Rle_trans with (Rtrigo_def.exp 0); [|rewrite exp_0; apply Rle_refl].
    destruct H0 as [H0 | H0]; [left; now apply exp_increasing | right; now rewrite H0].
Qed.

Lemma X24_total_pressure_loss_witness :
  exists r p0,
    flownormalshock (fun _ => NaN) [Fin 1.4] [Fin 2] "mach" = Ok (Scalars r) /\
    out_M r = Fin 2 /\ out_P0 r = Fin p0 /\ 0 < p0 <= 1.
Proof. apply X24_total_pressure_loss; lra. Defined.

End ShockEntropy.
